(** * gesichtool: face extraction tool

    A shallow embedding of [src/gesichtool.cpp], in its revision with the dlib
    and the OpenCV detector, and of [src/semaphore_guard.hpp]. The earlier,
    cascade-only revision is in the modules [CascadeOnly] and
    [CascadeOnlyRun], the first, sequential program in module [Sequential].

    - C++ [int] is a [Z] with its 32-bit wrap-around written out.
    - [cv::Rect], [cv::Size], [dlib::rectangle] and [Options] are records.
    - Calls into OpenCV, dlib, fmt and the C library are modelled by what they
      return; the values they compute are either symbolic ([cv.Mat]) or given
      by a [World] record (which files decode, which rectangles the detectors
      report, how many hardware threads exist, which directories can be
      created, which data files are found). The exceptions of the tool's own
      code are modelled, and so are the exceptions the library calls raise
      for arguments they refuse: [std::filesystem::create_directory] that
      fails, [cv::samples::findFile] that finds nothing, a region outside the
      image, [cv::resize] of or to an empty size, [cv::cvtColor] of an empty
      image, [detectMultiScale] of a classifier that did not load. Running
      out of memory, disk or threads is not modelled.
    - Code with side effects runs in a small writer/exception monad [M]: the
      list of externally visible actions performed, then how the code ended.
    - [run_dlib] / [run_opencv] are a transition system: the main thread, one
      thread per launched [std::async] task, the counting semaphore. *)

From Stdlib Require Import ZArith Lia Ascii String DecimalString DecimalPos DecimalN.
From stdpp Require Import base list strings.

Local Open Scope Z_scope.

(** ** Machine integers *)

Definition INT_MIN : Z := - 2 ^ 31.
Definition INT_MAX : Z := 2 ^ 31 - 1.

(** Two's complement reduction of a mathematical integer to [int]. *)
Definition wrap32 (z : Z) : Z := (z + 2 ^ 31) mod 2 ^ 32 - 2 ^ 31.

Definition is_int (z : Z) : Prop := INT_MIN <= z <= INT_MAX.

Definition int_add (a b : Z) : Z := wrap32 (a + b).
Definition int_sub (a b : Z) : Z := wrap32 (a - b).
Definition int_mul (a b : Z) : Z := wrap32 (a * b).

(** ** OpenCV and dlib values *)

Module cv.

Module Size.
Record t : Type := mk { width : Z; height : Z }.
End Size.

Module Point.
Record t : Type := mk { x : Z; y : Z }.
End Point.

Module Rect.
Record t : Type := mk { x : Z; y : Z; width : Z; height : Z }.

(** [Rect::tl()] and [Rect::br()]: top-left corner, and the corner one past
    the bottom-right pixel. *)
Definition tl (r : t) : Point.t := Point.mk (x r) (y r).
Definition br (r : t) : Point.t :=
  Point.mk (int_add (x r) (width r)) (int_add (y r) (height r)).
End Rect.

(** Images are kept symbolic: where the pixels come from and which OpenCV
    operations were applied to them. *)
Inductive Mat : Type :=
| MatEmpty                                   (* [cv::Mat()], a failed [imread] *)
| MatFile (path : string) (cols rows : Z)    (* a decoded image file *)
| MatRoi (m : Mat) (roi : Rect.t)            (* [m(roi)] *)
| MatResize (m : Mat) (dsize : Size.t)       (* [cv::resize(m, _, dsize)] *)
| MatGray (m : Mat).                         (* [cv::cvtColor(m, _, COLOR_BGR2GRAY)] *)

Fixpoint cols (m : Mat) : Z :=
  match m with
  | MatEmpty => 0
  | MatFile _ c _ => c
  | MatRoi _ r => Rect.width r
  | MatResize _ s => Size.width s
  | MatGray m' => cols m'
  end.

Fixpoint rows (m : Mat) : Z :=
  match m with
  | MatEmpty => 0
  | MatFile _ _ r => r
  | MatRoi _ r => Rect.height r
  | MatResize _ s => Size.height s
  | MatGray m' => rows m'
  end.

(** [Mat::empty()]: no elements. *)
Definition empty (m : Mat) : bool := (rows m * cols m =? 0).

End cv.

Module dlib.
(** A [dlib::rectangle], seen through the accessors the tool calls. *)
Record rectangle : Type :=
  mk { left : Z; top : Z; width : Z; height : Z }.
End dlib.

(** ** Text: fmt and path helpers *)

Definition string_of_nonneg (z : Z) : string :=
  NilZero.string_of_uint (N.to_uint (Z.to_N z)).

Fixpoint zeros (n : nat) : string :=
  match n with
  | O => EmptyString
  | S n' => String "0" (zeros n')
  end.

Definition zero_pad (width : nat) (s : string) : string :=
  zeros (width - String.length s) +:+ s.

(** [fmt::format("{:03d}", z)]: sign-aware zero padding to three columns. *)
Definition fmt_03d (z : Z) : string :=
  if z <? 0 then "-" +:+ zero_pad 2 (string_of_nonneg (- z))
  else zero_pad 3 (string_of_nonneg z).

Fixpoint ends_with_slash (s : string) : bool :=
  match s with
  | EmptyString => false
  | String c EmptyString => Ascii.eqb c "/"
  | String _ s' => ends_with_slash s'
  end.

(** [std::filesystem::path::operator/] with a relative right operand. *)
Definition path_join (dir name : string) : string :=
  match dir with
  | EmptyString => name
  | _ => if ends_with_slash dir then dir +:+ name else dir +:+ "/" +:+ name
  end.

(** [fmt::format("face{:03d}-{:03d}.jpg", image_idx, face_idx)] *)
Definition face_basename (image_idx face_idx : Z) : string :=
  "face" +:+ fmt_03d image_idx +:+ "-" +:+ fmt_03d face_idx +:+ ".jpg".

(** The number a zero-padded decimal string stands for. *)
Definition padded_value (s : string) : option N :=
  N.of_uint <$> NilEmpty.uint_of_string s.

(** ** Effects *)

Inductive exn : Type :=
| runtime_error (what : string)
| invalid_argument (what : string)
| out_of_range (what : string)
| ArgParseError (what : string)
| ArgParseError_nested (what : string) (inner : exn)   (* [std::throw_with_nested] *)
| cv_Exception (func : string)       (* [cv::Exception] from the named OpenCV function *)
| filesystem_error (p : string).     (* [std::filesystem::filesystem_error] for a path *)

(** Arguments of a [fmt::print] call; their rendering is left to fmt. *)
Inductive fmt_arg : Type :=
| FInt (z : Z)
| FSize (n : nat)
| FPath (p : string)
| FWhat (e : exn).                   (* [err.what()] *)

Inductive action : Type :=
| Print (format : string) (args : list fmt_arg)       (* [fmt::print(...)] *)
| PrintErr (format : string) (args : list fmt_arg)    (* [fmt::print(stderr, ...)] *)
| CreateDirectory (p : string)
| FindFile (name : string)
| CascadeLoad (file : string)
| GetFrontalFaceDetector
| Imread (p : string)
| DetectMultiScale (image : cv.Mat) (min_neighbors : Z) (min_size max_size : cv.Size.t)
| DlibDetect (image : cv.Mat)
| Imwrite (filename : string) (image : cv.Mat).

Inductive result (A : Type) : Type :=
| Ok (a : A)
| Throw (e : exn)
| Exit (status : Z).
Arguments Ok {A} a.
Arguments Throw {A} e.
Arguments Exit {A} status.

Definition M (A : Type) : Type := (list action * result A)%type.

Definition ret {A} (a : A) : M A := ([], Ok a).
Definition throw {A} (e : exn) : M A := ([], Throw e).
Definition exit {A} (status : Z) : M A := ([], Exit status).
Definition emit (a : action) : M unit := ([a], Ok tt).

Definition bind {A B} (f : A -> M B) (m : M A) : M B :=
  match m with
  | (t, Ok a) => let '(t', r) := f a in (t ++ t', r)
  | (t, Throw e) => (t, Throw e)
  | (t, Exit s) => (t, Exit s)
  end.

(** [try { m } catch (std::exception const& err) { handler }] *)
Definition try_catch {A} (m : M A) (handler : exn -> M A) : M A :=
  match m with
  | (t, Throw e) => let '(t', r) := handler e in (t ++ t', r)
  | _ => m
  end.

#[global] Instance M_ret : MRet M := @ret.
#[global] Instance M_bind : MBind M := @bind.

Definition trace {A} (m : M A) : list action := fst m.
Definition outcome {A} (m : M A) : result A := snd m.

(** ** OpenCV calls that check their arguments *)

(** The check of [Mat::Mat(Mat const&, Rect const&)]. *)
Definition roi_inside (m : cv.Mat) (roi : cv.Rect.t) : bool :=
  (0 <=? cv.Rect.x roi) && (0 <=? cv.Rect.width roi)
  && (int_add (cv.Rect.x roi) (cv.Rect.width roi) <=? cv.cols m)
  && (0 <=? cv.Rect.y roi) && (0 <=? cv.Rect.height roi)
  && (int_add (cv.Rect.y roi) (cv.Rect.height roi) <=? cv.rows m).

(** [m(roi)] *)
Definition Mat_roi (m : cv.Mat) (roi : cv.Rect.t) : M cv.Mat :=
  if roi_inside m roi then mret (cv.MatRoi m roi)
  else throw (cv_Exception "Mat").

(** [Size::empty()] *)
Definition size_empty (s : cv.Size.t) : bool :=
  (cv.Size.width s <=? 0) || (cv.Size.height s <=? 0).

(** [cv::resize(src, dst, dsize)]: neither the source nor [dsize] may be
    empty (the scale factors are left at 0). *)
Definition resize (src : cv.Mat) (dsize : cv.Size.t) : M cv.Mat :=
  if cv.empty src || size_empty dsize then throw (cv_Exception "resize")
  else mret (cv.MatResize src dsize).

(** [cv::cvtColor(src, dst, cv::COLOR_BGR2GRAY)]: the source may not be empty. *)
Definition cvtColor (src : cv.Mat) : M cv.Mat :=
  if cv.empty src then throw (cv_Exception "cvtColor")
  else mret (cv.MatGray src).

(** What the outside world answers. *)
Record World : Type := {
  hardware_concurrency : nat;
  create_directory_fails : string -> bool;   (* the directory cannot be created *)
  findFile_fails : string -> bool;           (* the data file is not found *)
  findFile : string -> string;
  cascade_load : string -> bool;
  imread : string -> cv.Mat;
  detectMultiScale : cv.Mat -> Z -> cv.Size.t -> cv.Size.t -> list cv.Rect.t;
  frontal_face_detector : cv.Mat -> list dlib.rectangle
}.

(** [std::filesystem::create_directory(p)] *)
Definition create_directory (w : World) (p : string) : M unit :=
  emit (CreateDirectory p) ;;
  if create_directory_fails w p then throw (filesystem_error p) else mret tt.

(** [cv::samples::findFile(name)], with [required] left at [true]. *)
Definition samples_findFile (w : World) (name : string) : M string :=
  emit (FindFile name) ;;
  if findFile_fails w name then throw (cv_Exception "findFile")
  else mret (findFile w name).

(** ** [extract_faces] *)

(** The loop body's local [inflation] (the scaled inflation is disabled in
    the source). *)
Definition inflation : Z := 0.

(** The rectangle [enlarged_face] is initialised with: the detected one grown
    by [inflation] on every side. *)
Definition inflated (face : cv.Rect.t) : cv.Rect.t :=
  cv.Rect.mk (int_sub (cv.Rect.x face) inflation)
             (int_sub (cv.Rect.y face) inflation)
             (int_add (cv.Rect.width face) (int_mul inflation 2))
             (int_add (cv.Rect.height face) (int_mul inflation 2)).

(** The condition of the [if]: a corner of [r] is left of or above the
    image, or its far corner is on or past the right or bottom border. *)
Definition rejected (image : cv.Mat) (r : cv.Rect.t) : bool :=
  (cv.Point.x (cv.Rect.tl r) <? 0)
  || (cv.Point.y (cv.Rect.tl r) <? 0)
  || (cv.Point.x (cv.Rect.br r) >=? cv.cols image)
  || (cv.Point.y (cv.Rect.br r) >=? cv.rows image).

(** The loop body's local [enlarged_face] after the [if]: the grown
    rectangle, or the detected one when the grown one was rejected. *)
Definition enlarged_face (image : cv.Mat) (face : cv.Rect.t) : M cv.Rect.t :=
  let enlarged := inflated face in
  if rejected image enlarged
  then emit (Print "  enlargement rejected\n" []) ;; mret face
  else mret enlarged.

(** The range-for loop of [extract_faces], from the current [face_idx]. *)
Fixpoint extract_faces_from (face_idx : Z) (image : cv.Mat) (faces : list cv.Rect.t)
    (image_idx : Z) (output_directory : string) (output_size : cv.Size.t) : M unit :=
  match faces with
  | [] => mret tt
  | face :: faces' =>
      r ← enlarged_face image face;
      emit (Print "extracting face at: {} {} {} {} from {}x{}\n"
              [FInt (cv.Rect.x r); FInt (cv.Rect.y r);
               FInt (cv.Rect.width r); FInt (cv.Rect.height r);
               FInt (cv.cols image); FInt (cv.rows image)]) ;;
      face_image ← Mat_roi image r;
      let filename := path_join output_directory (face_basename image_idx face_idx) in
      face_image ← resize face_image output_size;
      emit (Imwrite filename face_image) ;;
      extract_faces_from (int_add face_idx 1) image faces'
                         image_idx output_directory output_size
  end.

Definition extract_faces (image : cv.Mat) (faces : list cv.Rect.t) (image_idx : Z)
    (output_directory : string) (output_size : cv.Size.t) : M unit :=
  extract_faces_from 0 image faces image_idx output_directory output_size.

(** [detect_faces]: scale factor 1.1 and flags 0 are constants of the call. *)
Definition detect_faces (w : World) (image : cv.Mat)
    (min_size max_size : option cv.Size.t) (min_neighbors : Z) : M (list cv.Rect.t) :=
  let mn := default (cv.Size.mk 0 0) min_size in
  let mx := default (cv.Size.mk 0 0) max_size in
  emit (DetectMultiScale image min_neighbors mn mx) ;;
  mret (detectMultiScale w image min_neighbors mn mx).

(** ** The revision before the dlib detector

    [src/gesichtool.cpp] as it was with the cascade classifier only:
    detection and extraction are one function, and the thumbnails are always
    512x512. Its [run] is [run_opencv] without the first message; its
    [parse_args] is the one below without [--size], [--opencv], [--dlib]. *)
Module CascadeOnly.

(** The range-for loop of [detect_and_extract_faces]. *)
Fixpoint extract_loop (face_idx : Z) (image : cv.Mat) (faces : list cv.Rect.t)
    (image_idx : Z) (output_directory : string) : M unit :=
  match faces with
  | [] => mret tt
  | face :: faces' =>
      r ← enlarged_face image face;
      emit (Print "extracting face at: {} {} {} {}\n"
              [FInt (cv.Rect.x r); FInt (cv.Rect.y r);
               FInt (cv.Rect.width r); FInt (cv.Rect.height r)]) ;;
      face_image ← Mat_roi image r;
      let filename := path_join output_directory (face_basename image_idx face_idx) in
      face_image ← resize face_image (cv.Size.mk 512 512);
      emit (Imwrite filename face_image) ;;
      extract_loop (int_add face_idx 1) image faces' image_idx output_directory
  end.

Definition detect_and_extract_faces (w : World) (image_idx : Z) (image : cv.Mat)
    (min_size max_size : option cv.Size.t) (min_neighbors : Z)
    (output_directory : string) : M unit :=
  faces ← detect_faces w image min_size max_size min_neighbors;
  emit (Print "  detected {}\n" [FSize (length faces)]) ;;
  extract_loop 0 image faces image_idx output_directory.

End CascadeOnly.

(** ** Options and the command line *)

Inductive Mode : Type := DLIB | OPENCV.

Record Options : Type := {
  mode : Mode;
  images : list string;
  output_directory : string;
  output_size : cv.Size.t;
  min_size : option cv.Size.t;
  max_size : option cv.Size.t;
  verbose : bool;
  min_neighbors : Z
}.

(** The default member initialisers of [struct Options]. *)
Definition Options_default : Options := {|
  mode := DLIB;
  images := [];
  output_directory := EmptyString;
  output_size := cv.Size.mk 512 512;
  min_size := Some (cv.Size.mk 512 512);
  max_size := None;
  verbose := false;
  min_neighbors := 3
|}.

Definition set_mode (v : Mode) (o : Options) : Options :=
  {| mode := v; images := images o; output_directory := output_directory o;
     output_size := output_size o; min_size := min_size o; max_size := max_size o;
     verbose := verbose o; min_neighbors := min_neighbors o |}.
Definition push_image (v : string) (o : Options) : Options :=
  {| mode := mode o; images := images o ++ [v]; output_directory := output_directory o;
     output_size := output_size o; min_size := min_size o; max_size := max_size o;
     verbose := verbose o; min_neighbors := min_neighbors o |}.
Definition set_output_directory (v : string) (o : Options) : Options :=
  {| mode := mode o; images := images o; output_directory := v;
     output_size := output_size o; min_size := min_size o; max_size := max_size o;
     verbose := verbose o; min_neighbors := min_neighbors o |}.
Definition set_output_size (v : cv.Size.t) (o : Options) : Options :=
  {| mode := mode o; images := images o; output_directory := output_directory o;
     output_size := v; min_size := min_size o; max_size := max_size o;
     verbose := verbose o; min_neighbors := min_neighbors o |}.
Definition set_min_size (v : option cv.Size.t) (o : Options) : Options :=
  {| mode := mode o; images := images o; output_directory := output_directory o;
     output_size := output_size o; min_size := v; max_size := max_size o;
     verbose := verbose o; min_neighbors := min_neighbors o |}.
Definition set_max_size (v : option cv.Size.t) (o : Options) : Options :=
  {| mode := mode o; images := images o; output_directory := output_directory o;
     output_size := output_size o; min_size := min_size o; max_size := v;
     verbose := verbose o; min_neighbors := min_neighbors o |}.
Definition set_verbose (v : bool) (o : Options) : Options :=
  {| mode := mode o; images := images o; output_directory := output_directory o;
     output_size := output_size o; min_size := min_size o; max_size := max_size o;
     verbose := v; min_neighbors := min_neighbors o |}.
Definition set_min_neighbors (v : Z) (o : Options) : Options :=
  {| mode := mode o; images := images o; output_directory := output_directory o;
     output_size := output_size o; min_size := min_size o; max_size := max_size o;
     verbose := verbose o; min_neighbors := v |}.

Definition help_text : string :=
  "Usage: gesichtool [OPTIONS] IMAGE... -o OUTDIR\n" +:+
  "Extract faces from image files\n" +:+
  "\n" +:+
  "General Options:\n" +:+
  "  -h, --help                Print this help\n" +:+
  "  -v, --verbose             Be more verbose\n" +:+
  "\n" +:+
  "Face Detect Mode:\n" +:+
  "  --dlib                    Use dlib face detection (default)\n" +:+
  "  --opencv                  Use OpenCV face detection\n" +:+
  "Face Detect Options:\n" +:+
  "  -n, --min-neighbors INT   Higher values reduce false positives (default: 3)\n" +:+
  "  --min-size WxH            Minimum sizes for detected faces\n" +:+
  "  --max-size WxH            Maximum sizes for detected faces\n" +:+
  "\n" +:+
  "Output Options:\n" +:+
  "  -o, --output DIR          Output directory\n" +:+
  "  --size WxH         Rescale output images to WxH (default: 512x512)\n".

Definition print_help : M unit := emit (Print help_text []).

(** *** Number scanning shared by [std::stoi] and [sscanf("%d")] *)

(** [isspace] in the C locale. *)
Definition is_space (c : ascii) : bool :=
  let n := nat_of_ascii c in ((n =? 32) || ((9 <=? n) && (n <=? 13)))%nat.

Definition digit_of (c : ascii) : option Z :=
  let n := nat_of_ascii c in
  if ((48 <=? n) && (n <=? 57))%nat then Some (Z.of_nat (n - 48)) else None.

Fixpoint skip_space (s : string) : string :=
  match s with
  | String c s' => if is_space c then skip_space s' else s
  | EmptyString => s
  end.

(** The longest run of decimal digits at the front of [s], accumulated. *)
Fixpoint read_digits (acc : Z) (s : string) : Z * string :=
  match s with
  | String c s' =>
      match digit_of c with
      | Some d => read_digits (10 * acc + d) s'
      | None => (acc, s)
      end
  | EmptyString => (acc, s)
  end.

(** Leading white space, an optional sign, at least one digit. *)
Definition read_int (s : string) : option (Z * string) :=
  let s1 := skip_space s in
  let '(neg, s2) :=
    match s1 with
    | String c s' =>
        if Ascii.eqb c "-" then (true, s')
        else if Ascii.eqb c "+" then (false, s')
        else (false, s1)
    | EmptyString => (false, s1)
    end in
  match s2 with
  | String c _ =>
      match digit_of c with
      | Some _ => let '(v, rest) := read_digits 0 s2 in
                  Some (if neg then - v else v, rest)
      | None => None
      end
  | EmptyString => None
  end.

(** [std::stoi]: [std::invalid_argument] without a number,
    [std::out_of_range] when it does not fit an [int]. *)
Definition stoi (s : string) : M Z :=
  match read_int s with
  | None => throw (invalid_argument "stoi")
  | Some (v, _) =>
      if (INT_MIN <=? v) && (v <=? INT_MAX) then mret v
      else throw (out_of_range "stoi")
  end.

(** What [sscanf("%d")] stores for the digits it has read, as glibc does it:
    the number is converted as by [strtol], which stops at the ends of
    [long], and the [long] is then cut down to an [int]. *)
Definition scanned_int (z : Z) : Z :=
  wrap32 (Z.max (- 2 ^ 63) (Z.min (2 ^ 63 - 1) z)).

(** [to_size]: [sscanf(text, "%dx%d", &w, &h)] must convert two items. *)
Definition to_size (text : string) : M cv.Size.t :=
  let failed : M cv.Size.t :=
    throw (runtime_error ("failed to read cv::Size from " +:+ text)) in
  match read_int text with
  | Some (w, String c rest) =>
      if Ascii.eqb c "x" then
        match read_int rest with
        | Some (h, _) => mret (cv.Size.mk (scanned_int w) (scanned_int h))
        | None => failed
        end
      else failed
  | _ => failed
  end.

Definition starts_with_dash (arg : string) : bool :=
  match arg with
  | String c _ => Ascii.eqb c "-"
  | EmptyString => false
  end.

Definition requires_an_argument {A} (arg : string) : M A :=
  throw (ArgParseError (arg +:+ " requires an argument")).

(** The [for] loop of [parse_args] over the arguments not yet consumed. *)
Fixpoint parse_loop (opts : Options) (argv : list string) : M Options :=
  match argv with
  | [] => mret opts
  | arg :: rest =>
      if starts_with_dash arg then
        if String.eqb arg "-o" || String.eqb arg "--option" then
          match rest with
          | [] => requires_an_argument arg
          | v :: rest' => parse_loop (set_output_directory v opts) rest'
          end
        else if String.eqb arg "-v" || String.eqb arg "--verbose" then
          parse_loop (set_verbose true opts) rest
        else if String.eqb arg "-h" || String.eqb arg "--help" then
          print_help ;; exit 0
        else if String.eqb arg "-n" || String.eqb arg "--min-neighbors" then
          match rest with
          | [] => requires_an_argument arg
          | v :: rest' =>
              n ← try_catch (stoi v) (fun err =>
                     throw (ArgParseError_nested
                              ("invalid value " +:+ v +:+ " for argument") err));
              parse_loop (set_min_neighbors n opts) rest'
          end
        else if String.eqb arg "--min-size" then
          match rest with
          | [] => requires_an_argument arg
          | v :: rest' =>
              sz ← to_size v;
              parse_loop (set_min_size (Some sz) opts) rest'
          end
        else if String.eqb arg "--max-size" then
          match rest with
          | [] => requires_an_argument arg
          | v :: rest' =>
              sz ← to_size v;
              parse_loop (set_max_size (Some sz) opts) rest'
          end
        else if String.eqb arg "--size" then
          match rest with
          | [] => requires_an_argument arg
          | v :: rest' =>
              sz ← to_size v;
              parse_loop (set_output_size sz opts) rest'
          end
        else if String.eqb arg "--opencv" then
          parse_loop (set_mode OPENCV opts) rest
        else if String.eqb arg "--dlib" then
          parse_loop (set_mode DLIB opts) rest
        else
          throw (ArgParseError ("unknown argument " +:+ arg +:+ " given"))
      else
        parse_loop (push_image arg opts) rest
  end.

Definition string_empty (s : string) : bool :=
  match s with EmptyString => true | _ => false end.

Definition parse_args (argv : list string) : M Options :=
  opts ← parse_loop Options_default argv;
  if bool_decide (images opts = []) then
    throw (ArgParseError "no input images given")
  else if string_empty (output_directory opts) then
    throw (ArgParseError "no output directory given")
  else mret opts.

(** ** The per-image tasks *)

(** [opts.images[images_idx]]; the launching loop keeps the index in range. *)
Definition images_at (opts : Options) (images_idx : nat) : string :=
  default EmptyString (images opts !! images_idx).

(** [static_cast<int>] of a [dlib::rectangle]'s accessors. *)
Definition rect_of_dlib (rect : dlib.rectangle) : cv.Rect.t :=
  cv.Rect.mk (wrap32 (dlib.left rect)) (wrap32 (dlib.top rect))
             (wrap32 (dlib.width rect)) (wrap32 (dlib.height rect)).

(** The lambda of [run_dlib], between the guard's construction and its
    destruction. *)
Definition dlib_task (w : World) (opts : Options) (images_idx : nat) : M unit :=
  let input_image_path := images_at opts images_idx in
  (if verbose opts
   then emit (Print "processing {}\n" [FPath input_image_path])
   else mret tt) ;;
  emit GetFrontalFaceDetector ;;
  emit (Imread input_image_path) ;;
  let image := imread w input_image_path in
  gray ← cvtColor image;
  emit (DlibDetect gray) ;;
  let dlib_faces := frontal_face_detector w gray in
  let faces := rect_of_dlib <$> dlib_faces in
  extract_faces image faces (wrap32 (Z.of_nat images_idx))
                (output_directory opts) (output_size opts).

(** The lambda of [run_opencv], between the guard's construction and its
    destruction. *)
Definition opencv_task (w : World) (opts : Options) (cascade_file : string)
    (images_idx : nat) : M unit :=
  let input_image_path := images_at opts images_idx in
  emit (CascadeLoad cascade_file) ;;
  if negb (cascade_load w cascade_file) then
    throw (runtime_error ("failed to load " +:+ cascade_file))
  else
    emit (Imread input_image_path) ;;
    let image := imread w input_image_path in
    if cv.empty image then
      emit (PrintErr "error: failed to read image: {}\n" [FPath input_image_path])
    else
      faces ← detect_faces w image (min_size opts) (max_size opts) (min_neighbors opts);
      extract_faces image faces (wrap32 (Z.of_nat images_idx))
                    (output_directory opts) (output_size opts) ;;
      emit (Print "  detected {}\n" [FSize (length faces)]).

Definition cascade_name : string :=
  "haarcascades/haarcascade_frontalface_default.xml".

(** What differs between [run_dlib] and [run_opencv]: what the function does
    before it creates the semaphore, what the launching loop does before each
    [std::async], and the task. *)
Record async_batch : Type := {
  prologue : M unit;
  before_launch : nat -> list action;
  task : nat -> M unit
}.

Definition run_dlib (w : World) (opts : Options) : async_batch := {|
  prologue := emit (Print "running dlib face detection\n" []);
  before_launch := fun _ => [];
  task := dlib_task w opts
|}.

Definition run_opencv (w : World) (opts : Options) : async_batch :=
  let cascade_file := findFile w cascade_name in {|
  prologue := emit (Print "running OpenCV face detection\n" []) ;;
              samples_findFile w cascade_name ;; mret tt;
  before_launch := fun images_idx =>
    if verbose opts
    then [Print "processing {}\n" [FPath (images_at opts images_idx)]]
    else [];
  task := opencv_task w opts cascade_file
|}.

(** The [switch] of [run]. *)
Definition run (w : World) (opts : Options) : async_batch :=
  match mode opts with
  | OPENCV => run_opencv w opts
  | DLIB => run_dlib w opts
  end.

(** [run] up to the construction of [sem] in [run_dlib] / [run_opencv]:
    the output directory, then what the chosen function does first. *)
Definition run_prologue (w : World) (opts : Options) : M unit :=
  create_directory w (output_directory opts) ;; prologue (run w opts).

(** ** The threads of a run *)

Inductive tid : Type := MainThread | TaskThread (images_idx : nat).

Inductive event : Type :=
| Act (a : action)
| Acquire                      (* [SemaphoreGuard]'s constructor returned *)
| Release                      (* [~SemaphoreGuard] *)
| Launch (images_idx : nat)    (* [futures.push_back(std::async(...))] *)
| Got (images_idx : nat)       (* [future.get()] returned or rethrew *)
| Leave (r : result unit).     (* [run] returned or threw, all locals destroyed *)

(** A task launched with [std::launch::async]. *)
Inductive tstate : Type :=
| Created                      (* not yet past [m_sem.acquire()] *)
| Running (todo : list action) (* inside the guard's scope *)
| Finished.                    (* guard destroyed, the future is ready *)

Inductive mstate : Type :=
| Launching (images_idx : nat)  (* the first [for] loop *)
| Getting (k : nat)             (* the second [for] loop, at [futures[k]] *)
| Unwinding (r : result unit)   (* destroying [futures]: each destructor waits *)
| Left (r : result unit).

Record state : Type := {
  st_opts : Options;             (* the [Options const&] all threads share *)
  st_sem : nat;                  (* the counter of [sem] *)
  st_futures : list tstate;
  st_main : mstate;
  st_log : list (tid * event)    (* most recent first *)
}.

Definition log_main (acts : list action) : list (tid * event) :=
  rev ((fun a => (MainThread, Act a)) <$> acts).

(** [run] up to and including the construction of [sem], or up to the
    exception that ends it before ([st_sem] is then the count [sem] would
    have been given). *)
Definition init (w : World) (opts : Options) : state :=
  let m := run_prologue w opts in {|
  st_opts := opts;
  st_sem := hardware_concurrency w;
  st_futures := [];
  st_main := match outcome m with Ok _ => Launching 0 | r => Left r end;
  st_log := match outcome m with Ok _ => [] | r => [(MainThread, Leave r)] end
            ++ log_main (trace m)
|}.

Definition all_finished (futures : list tstate) : bool :=
  forallb (fun t => match t with Finished => true | _ => false end) futures.

(** One step of the main thread; [None] when it is blocked or has left. *)
Definition step_main (w : World) (s : state) : option state :=
  let opts := st_opts s in
  let batch := run w opts in
  match st_main s with
  | Launching i =>
      if (i <? length (images opts))%nat then
        Some {| st_opts := opts; st_sem := st_sem s;
                st_futures := st_futures s ++ [Created];
                st_main := Launching (S i);
                st_log := (MainThread, Launch i)
                          :: log_main (before_launch batch i) ++ st_log s |}
      else
        Some {| st_opts := opts; st_sem := st_sem s;
                st_futures := st_futures s;
                st_main := Getting 0;
                st_log := (MainThread, Act (Print "waiting for results\n" []))
                          :: st_log s |}
  | Getting k =>
      match st_futures s !! k with
      | Some Finished =>
          Some {| st_opts := opts; st_sem := st_sem s;
                  st_futures := st_futures s;
                  st_main := match outcome (task batch k) with
                             | Ok _ => Getting (S k)
                             | r => Unwinding r
                             end;
                  st_log := (MainThread, Got k) :: st_log s |}
      | Some _ => None
      | None =>
          Some {| st_opts := opts; st_sem := st_sem s;
                  st_futures := st_futures s;
                  st_main := Unwinding (Ok tt);
                  st_log := st_log s |}
      end
  | Unwinding r =>
      if all_finished (st_futures s) then
        Some {| st_opts := opts; st_sem := st_sem s;
                st_futures := st_futures s;
                st_main := Left r;
                st_log := (MainThread, Leave r) :: st_log s |}
      else None
  | Left _ => None
  end.

(** One step of the task for image [i]; [None] when it is blocked in
    [acquire], not launched yet, or finished. *)
Definition step_task (w : World) (i : nat) (s : state) : option state :=
  let opts := st_opts s in
  let batch := run w opts in
  match st_futures s !! i with
  | Some Created =>
      match st_sem s with
      | O => None
      | S c =>
          Some {| st_opts := opts; st_sem := c;
                  st_futures := <[i := Running (trace (task batch i))]> (st_futures s);
                  st_main := st_main s;
                  st_log := (TaskThread i, Acquire) :: st_log s |}
      end
  | Some (Running (a :: todo)) =>
      Some {| st_opts := opts; st_sem := st_sem s;
              st_futures := <[i := Running todo]> (st_futures s);
              st_main := st_main s;
              st_log := (TaskThread i, Act a) :: st_log s |}
  | Some (Running []) =>
      Some {| st_opts := opts; st_sem := S (st_sem s);
              st_futures := <[i := Finished]> (st_futures s);
              st_main := st_main s;
              st_log := (TaskThread i, Release) :: st_log s |}
  | Some Finished | None => None
  end.

Definition step (w : World) (t : tid) (s : state) : option state :=
  match t with
  | MainThread => step_main w s
  | TaskThread i => step_task w i s
  end.

(** Running a schedule: which thread moves at each step. *)
Fixpoint exec (w : World) (schedule : list tid) (s : state) : option state :=
  match schedule with
  | [] => Some s
  | t :: schedule' =>
      match step w t s with
      | Some s' => exec w schedule' s'
      | None => None
      end
  end.

Definition reachable (w : World) (opts : Options) (s : state) : Prop :=
  exists schedule, exec w schedule (init w opts) = Some s.

(** ** What is read off a trace *)

(** The files written by [cv::imwrite], in order. *)
Definition imwrites (t : list action) : list (string * cv.Mat) :=
  omap (fun a => match a with Imwrite f m => Some (f, m) | _ => None end) t.

(** The messages sent to [stderr], in order. *)
Definition stderr_lines (t : list action) : list string :=
  omap (fun a => match a with PrintErr f _ => Some f | _ => None end) t.

Definition rect_is_int (r : cv.Rect.t) : Prop :=
  is_int (cv.Rect.x r) /\ is_int (cv.Rect.y r) /\
  is_int (cv.Rect.width r) /\ is_int (cv.Rect.height r).

(** OpenCV's own notion of a region of interest that fits the image. *)
Definition within_image (image : cv.Mat) (r : cv.Rect.t) : Prop :=
  0 <= cv.Rect.x r /\ 0 <= cv.Rect.width r /\
  cv.Rect.x r + cv.Rect.width r <= cv.cols image /\
  0 <= cv.Rect.y r /\ 0 <= cv.Rect.height r /\
  cv.Rect.y r + cv.Rect.height r <= cv.rows image.

(** A rectangle [extract_faces] can make a thumbnail of: OpenCV accepts it
    as a region of the image, the region has pixels, and the output size is
    not empty. *)
Definition extractable (image : cv.Mat) (sz : cv.Size.t) (face : cv.Rect.t) : bool :=
  roi_inside image face && negb (cv.empty (cv.MatRoi image face))
  && negb (size_empty sz).

(** The rectangles before the first one that is not extractable. *)
Fixpoint extracted (image : cv.Mat) (sz : cv.Size.t) (faces : list cv.Rect.t)
    : list cv.Rect.t :=
  match faces with
  | [] => []
  | face :: faces' =>
      if extractable image sz face then face :: extracted image sz faces' else []
  end.

(** The thumbnail the tool is meant to write for face [j] of image [i]. *)
Definition thumbnail (opts : Options) (image : cv.Mat) (i : nat) (j : nat)
    (face : cv.Rect.t) : string * cv.Mat :=
  (path_join (output_directory opts) (face_basename (Z.of_nat i) (Z.of_nat j)),
   cv.MatResize (cv.MatRoi image face) (output_size opts)).

(** The rectangles the detector of the mode reports for [image]: those of
    the cascade classifier, or those of the dlib detector with the fields
    they have. *)
Definition detected (w : World) (opts : Options) (image : cv.Mat) : list cv.Rect.t :=
  match mode opts with
  | OPENCV =>
      detectMultiScale w image (min_neighbors opts)
        (default (cv.Size.mk 0 0) (min_size opts))
        (default (cv.Size.mk 0 0) (max_size opts))
  | DLIB =>
      (fun rect => cv.Rect.mk (dlib.left rect) (dlib.top rect)
                              (dlib.width rect) (dlib.height rect))
      <$> frontal_face_detector w (cv.MatGray image)
  end.

(** The call of that detector. *)
Definition detection (opts : Options) (image : cv.Mat) : action :=
  match mode opts with
  | OPENCV =>
      DetectMultiScale image (min_neighbors opts)
        (default (cv.Size.mk 0 0) (min_size opts))
        (default (cv.Size.mk 0 0) (max_size opts))
  | DLIB => DlibDetect (cv.MatGray image)
  end.


(** ** What is read off a state *)

Definition is_running (t : tstate) : bool :=
  match t with Running _ => true | _ => false end.

(** How many tasks are between [m_sem.acquire()] and [m_sem.release()]. *)
Fixpoint holders (futures : list tstate) : nat :=
  match futures with
  | [] => 0
  | t :: futures' => (if is_running t then 1 else 0) + holders futures'
  end.

#[global] Instance tid_eq_dec : EqDecision tid.
Proof. solve_decision. Defined.

(** The events of one thread, oldest first. *)
Definition events_of (t : tid) (log : list (tid * event)) : list event :=
  omap (fun te : tid * event => if decide (te.1 = t) then Some te.2 else None)
       (rev log).

(** The actions among the events of a task. *)
Definition acts_of (evs : list event) : list action :=
  omap (fun e => match e with Act a => Some a | _ => None end) evs.

(** Everything one task does, from the guard's constructor to its destructor. *)
Definition task_events (body : list action) : list event :=
  Acquire :: (Act <$> body) ++ [Release].

(** How far a task with the given body has come, against what it has logged. *)
Definition task_progress (body : list action) (ts : option tstate)
    (evs : list event) : Prop :=
  match ts with
  | None | Some Created => evs = []
  | Some (Running todo) =>
      exists done, done ++ todo = body /\ evs = Acquire :: (Act <$> done)
  | Some Finished => evs = task_events body
  end.

(** Whether [run] got as far as its launching loop. *)
Definition started (w : World) (opts : Options) : bool :=
  match outcome (run_prologue w opts) with Ok _ => true | _ => false end.

Definition main_consistent (started : bool) (n : nat) (s : state) : Prop :=
  match st_main s with
  | Launching k => started = true /\ length (st_futures s) = k /\ (k <= n)%nat
  | Getting _ | Unwinding _ => started = true /\ length (st_futures s) = n
  | Left _ =>
      all_finished (st_futures s) = true /\
      if started then length (st_futures s) = n else st_futures s = []
  end.

Record invariant (w : World) (opts : Options) (s : state) : Prop := {
  inv_opts : st_opts s = opts;
  inv_sem : (st_sem s + holders (st_futures s))%nat = hardware_concurrency w;
  inv_main : main_consistent (started w opts) (length (images opts)) s;
  inv_log : forall i,
    task_progress (trace (task (run w opts) i)) (st_futures s !! i)
                  (events_of (TaskThread i) (st_log s))
}.

(** [s'] can be reached from [s]. *)
Definition steps (w : World) (s s' : state) : Prop :=
  exists schedule, exec w schedule s = Some s'.

(** A task that is waiting for a slot or is through, not one in between. *)
Definition idle (t : tstate) : Prop := t = Created \/ t = Finished.

Fixpoint waiting (futures : list tstate) : nat :=
  match futures with
  | [] => 0
  | Created :: futures' => S (waiting futures')
  | _ :: futures' => waiting futures'
  end.

(** ** The command line, read as a sequence of tokens

    A second, declarative reading of the argument vector, against which
    [parse_args] is compared: the arguments are grouped into tokens (an option
    that takes a value swallows the next argument whatever it looks like), the
    first token that stops the parse decides how it ends, and without such a
    token the tokens are applied to the default options from left to right. *)

Inductive arg_kind : Type :=
| KImage | KOutput | KVerbose | KHelp | KNeighbors
| KMinSize | KMaxSize | KSize | KOpencv | KDlib | KUnknown.

Fixpoint assoc {A} (k : string) (l : list (string * A)) : option A :=
  match l with
  | [] => None
  | (k', v) :: l' => if String.eqb k k' then Some v else assoc k l'
  end.

(** The spellings [parse_args] compares against. *)
Definition option_table : list (string * arg_kind) :=
  [("-o", KOutput); ("--option", KOutput);
   ("-v", KVerbose); ("--verbose", KVerbose);
   ("-h", KHelp); ("--help", KHelp);
   ("-n", KNeighbors); ("--min-neighbors", KNeighbors);
   ("--min-size", KMinSize); ("--max-size", KMaxSize); ("--size", KSize);
   ("--opencv", KOpencv); ("--dlib", KDlib)].

Definition kind_of (arg : string) : arg_kind :=
  if starts_with_dash arg then default KUnknown (assoc arg option_table)
  else KImage.

Inductive token : Type :=
| TImage (path : string)
| TVerbose
| THelp
| TMode (m : Mode)
| TValue (k : arg_kind) (value : string)   (* an option with its value *)
| TMissing (arg : string)                  (* an option whose value is missing *)
| TUnknown (arg : string).

Fixpoint tokens (argv : list string) : list token :=
  match argv with
  | [] => []
  | arg :: rest =>
      match kind_of arg with
      | KImage => TImage arg :: tokens rest
      | KVerbose => TVerbose :: tokens rest
      | KHelp => THelp :: tokens rest
      | KOpencv => TMode OPENCV :: tokens rest
      | KDlib => TMode DLIB :: tokens rest
      | KUnknown => TUnknown arg :: tokens rest
      | (KOutput | KNeighbors | KMinSize | KMaxSize | KSize) as k =>
          match rest with
          | [] => [TMissing arg]
          | v :: rest' => TValue k v :: tokens rest'
          end
      end
  end.

(** How a call of [parse_args] can end. *)
Inductive verdict : Type :=
| Returns | ThrowsArgParseError | ThrowsRuntimeError | ThrowsOther | Exits.

Definition verdict_of {A} (r : result A) : verdict :=
  match r with
  | Ok _ => Returns
  | Throw (ArgParseError _) | Throw (ArgParseError_nested _ _) => ThrowsArgParseError
  | Throw (runtime_error _) => ThrowsRuntimeError
  | Throw _ => ThrowsOther
  | Exit _ => Exits
  end.

Definition stoi_fails (v : string) : bool :=
  match outcome (stoi v) with Ok _ => false | _ => true end.

Definition to_size_fails (v : string) : bool :=
  match outcome (to_size v) with Ok _ => false | _ => true end.

(** Whether a token ends the parse, and how. *)
Definition token_stop (t : token) : option verdict :=
  match t with
  | THelp => Some Exits
  | TMissing _ | TUnknown _ => Some ThrowsArgParseError
  | TValue KNeighbors v => if stoi_fails v then Some ThrowsArgParseError else None
  | TValue (KMinSize | KMaxSize | KSize) v =>
      if to_size_fails v then Some ThrowsRuntimeError else None
  | _ => None
  end.

Fixpoint first_stop (toks : list token) : option verdict :=
  match toks with
  | [] => None
  | t :: toks' =>
      match token_stop t with
      | Some v => Some v
      | None => first_stop toks'
      end
  end.

(** What a token that does not stop the parse does to the options. *)
Definition token_effect (o : Options) (t : token) : Options :=
  match t with
  | TImage p => push_image p o
  | TVerbose => set_verbose true o
  | TMode m => set_mode m o
  | TValue KOutput v => set_output_directory v o
  | TValue KNeighbors v =>
      match outcome (stoi v) with Ok n => set_min_neighbors n o | _ => o end
  | TValue KMinSize v =>
      match outcome (to_size v) with Ok sz => set_min_size (Some sz) o | _ => o end
  | TValue KMaxSize v =>
      match outcome (to_size v) with Ok sz => set_max_size (Some sz) o | _ => o end
  | TValue KSize v =>
      match outcome (to_size v) with Ok sz => set_output_size sz o | _ => o end
  | _ => o
  end.

Definition image_paths (toks : list token) : list string :=
  omap (fun t => match t with TImage p => Some p | _ => None end) toks.

(** The value of the last [-o] / [--option], empty when there is none. *)
Definition output_directory_given (toks : list token) : string :=
  default EmptyString
    (last (omap (fun t => match t with TValue KOutput v => Some v | _ => None end) toks)).

(** The last of [--dlib] / [--opencv], the former when there is none. *)
Definition mode_given (toks : list token) : Mode :=
  default DLIB (last (omap (fun t => match t with TMode m => Some m | _ => None end) toks)).

(** How [parse_args] ends on [argv], told from the tokens alone. *)
Definition classify (argv : list string) : verdict :=
  let toks := tokens argv in
  match first_stop toks with
  | Some v => v
  | None =>
      if bool_decide (image_paths toks = []) then ThrowsArgParseError
      else if string_empty (output_directory_given toks) then ThrowsArgParseError
      else Returns
  end.

(** The error condition of [parse_args] as the specification words it: any
    of the listed defects, anywhere in the argument vector. *)
Definition stated_error_condition (argv : list string) : bool :=
  let toks := tokens argv in
  (* contains no non-option image path *)
  bool_decide (image_paths toks = [])
  (* sets no output directory *)
  || bool_decide (omap (fun t => match t with TValue KOutput v => Some v | _ => None end) toks = [])
  (* ends with an option that requires a value *)
  || match last toks with Some (TMissing _) => true | _ => false end
  (* contains an unrecognised token starting with '-' *)
  || existsb (fun t => match t with TUnknown _ => true | _ => false end) toks
  (* supplies a min-neighbors or size value that fails to parse *)
  || existsb (fun t => match t with
                       | TValue KNeighbors v => stoi_fails v
                       | TValue (KMinSize | KMaxSize | KSize) v => to_size_fails v
                       | _ => false
                       end) toks.

(** ** A small batch used as a running example *)

(** One hardware thread; [a.jpg] decodes to a 100x100 image, nothing else
    decodes; both detectors report one face in an image that has pixels. *)
Definition example_world : World := {|
  hardware_concurrency := 1;
  create_directory_fails := fun _ => false;
  findFile_fails := fun _ => false;
  findFile := fun name => "/usr/share/opencv4/" +:+ name;
  cascade_load := fun _ => true;
  imread := fun p => if String.eqb p "a.jpg" then cv.MatFile p 100 100 else cv.MatEmpty;
  detectMultiScale := fun image _ _ _ =>
    if cv.empty image then [] else [cv.Rect.mk 10 20 30 30];
  frontal_face_detector := fun image =>
    if cv.empty image then [] else [dlib.mk 10 20 30 30]
|}.

(** [gesichtool --opencv a.jpg missing.jpg -o out] *)
Definition example_argv : list string :=
  ["--opencv"; "a.jpg"; "missing.jpg"; "-o"; "out"].

Definition example_opts : Options :=
  set_output_directory "out"
    (push_image "missing.jpg" (push_image "a.jpg" (set_mode OPENCV Options_default))).

(** Both tasks are launched, the second one gets the only slot first and
    finishes, then the first one gets it and starts working. *)
Definition example_schedule : list tid :=
  [MainThread; MainThread; MainThread;
   TaskThread 1; TaskThread 1; TaskThread 1; TaskThread 1; TaskThread 1;
   TaskThread 0; TaskThread 0].

Definition example_state : state :=
  Eval vm_compute in
    default (init example_world example_opts)
            (exec example_world example_schedule (init example_world example_opts)).

(** The first task runs to its end as well, then the main thread collects
    both futures and leaves [run]. *)
Definition example_full_schedule : list tid :=
  example_schedule
  ++ [TaskThread 0; TaskThread 0; TaskThread 0; TaskThread 0; TaskThread 0; TaskThread 0;
      MainThread; MainThread; MainThread; MainThread].

Definition example_final_state : state :=
  Eval vm_compute in
    default (init example_world example_opts)
            (exec example_world example_full_schedule (init example_world example_opts)).

(** [gesichtool --opencv a.jpg missing.jpg -o out --min-size 20x20 --size 0x0] *)
Definition example_argv_no_size : list string :=
  example_argv ++ ["--min-size"; "20x20"; "--size"; "0x0"].

Definition example_opts_no_size : Options :=
  set_output_size (cv.Size.mk 0 0) (set_min_size (Some (cv.Size.mk 20 20)) example_opts).

(** Both tasks are launched, the main thread starts waiting, the first task
    runs from [acquire] to [release]. *)
Definition example_schedule_no_size : list tid :=
  [MainThread; MainThread; MainThread;
   TaskThread 0; TaskThread 0; TaskThread 0; TaskThread 0; TaskThread 0; TaskThread 0].

Definition example_state_no_size : state :=
  Eval vm_compute in
    default (init example_world example_opts_no_size)
            (exec example_world example_schedule_no_size
                  (init example_world example_opts_no_size)).

(** The example machine, with a dlib detector that reports a face reaching
    over the left border of the image. *)
Definition example_world_border : World := {|
  hardware_concurrency := 1;
  create_directory_fails := create_directory_fails example_world;
  findFile_fails := findFile_fails example_world;
  findFile := findFile example_world;
  cascade_load := cascade_load example_world;
  imread := imread example_world;
  detectMultiScale := detectMultiScale example_world;
  frontal_face_detector := fun image =>
    if cv.empty image then [] else [dlib.mk (-5) 20 30 30]
|}.

(** [gesichtool a.jpg -o out] *)
Definition example_opts_dlib : Options :=
  set_output_directory "out" (push_image "a.jpg" Options_default).

(** The example machine, on which no directory can be created. *)
Definition example_world_no_directory : World := {|
  hardware_concurrency := 1;
  create_directory_fails := fun _ => true;
  findFile_fails := findFile_fails example_world;
  findFile := findFile example_world;
  cascade_load := cascade_load example_world;
  imread := imread example_world;
  detectMultiScale := detectMultiScale example_world;
  frontal_face_detector := frontal_face_detector example_world
|}.

(** Which detector an action belongs to. *)
Definition detector_used (a : action) : option Mode :=
  match a with
  | GetFrontalFaceDetector | DlibDetect _ => Some DLIB
  | CascadeLoad _ | DetectMultiScale _ _ _ _ => Some OPENCV
  | _ => None
  end.

(** Output to [stdout] or to an image file. *)
Definition is_output (a : action) : bool :=
  match a with Print _ _ | Imwrite _ _ => true | _ => false end.

(** A command line that sets every field of the options. *)
Definition example_argv_all : list string :=
  ["--opencv"; "a.jpg"; "--option"; "out"; "--size"; "64x48";
   "--min-size"; "20x20"; "--max-size"; "300x300"; "-v"; "-n"; "5"].

(** ** How [run] leaves *)

(** The first result in the list that is not a normal return. *)
Fixpoint first_failure (rs : list (result unit)) : result unit :=
  match rs with
  | [] => Ok tt
  | Ok _ :: rs' => first_failure rs'
  | r :: _ => r
  end.

(** How [run] leaves: with the exception that ends it before the first
    launch, if there is one; otherwise with what the loop over [futures]
    makes of the tasks' results, where [future.get()] rethrows the exception
    of the first task, in launch order, that ended with one. *)
Definition run_result (w : World) (opts : Options) : result unit :=
  match outcome (run_prologue w opts) with
  | Ok _ => first_failure ((fun i => outcome (task (run w opts) i))
                           <$> seq 0 (length (images opts)))
  | r => r
  end.

(** What the main thread knows about the tasks' results so far. *)
Definition main_result_ok (w : World) (opts : Options) (s : state) : Prop :=
  match st_main s with
  | Launching _ => True
  | Getting k =>
      (k <= length (images opts))%nat /\
      forall j, (j < k)%nat -> outcome (task (run w opts) j) = Ok tt
  | Unwinding r | Left r => r = run_result w opts
  end.

(** The example machine, reporting no hardware thread count. *)
Definition example_world_no_threads : World := {|
  hardware_concurrency := 0;
  create_directory_fails := create_directory_fails example_world;
  findFile_fails := findFile_fails example_world;
  findFile := findFile example_world;
  cascade_load := cascade_load example_world;
  imread := imread example_world;
  detectMultiScale := detectMultiScale example_world;
  frontal_face_detector := frontal_face_detector example_world
|}.

(** The example machine, with a cascade file that does not load. *)
Definition example_world_no_cascade : World := {|
  hardware_concurrency := 2;
  create_directory_fails := create_directory_fails example_world;
  findFile_fails := findFile_fails example_world;
  findFile := findFile example_world;
  cascade_load := fun _ => false;
  imread := imread example_world;
  detectMultiScale := detectMultiScale example_world;
  frontal_face_detector := frontal_face_detector example_world
|}.

(** No task was given a slot, both are launched and wait. *)
Definition example_blocked_state : state :=
  Eval vm_compute in
    default (init example_world_no_threads example_opts)
            (exec example_world_no_threads [MainThread; MainThread; MainThread]
                  (init example_world_no_threads example_opts)).

(** The image files read by [cv::imread], in order. *)
Definition imreads (t : list action) : list string :=
  omap (fun a => match a with Imread p => Some p | _ => None end) t.

(** What the main thread itself does: messages, the output directory, the
    search for the cascade file. *)
Definition is_main_action (a : action) : bool :=
  match a with
  | Print _ _ | CreateDirectory _ | FindFile _ => true
  | _ => false
  end.

(** The entries of the main thread in a log are of the main thread's kind. *)
Definition main_entry_ok (te : tid * event) : Prop :=
  match te with
  | (MainThread, Act a) => is_main_action a = true
  | (MainThread, (Acquire | Release)) => False
  | _ => True
  end.

Fixpoint all_digits (s : string) : bool :=
  match s with
  | EmptyString => true
  | String c s' => match digit_of c with Some _ => all_digits s' | None => false end
  end.

(** [gesichtool --opencv a.jpg a.jpg -o out]: the same file twice. *)
Definition example_opts_twice : Options :=
  set_output_directory "out"
    (push_image "a.jpg" (push_image "a.jpg" (set_mode OPENCV Options_default))).

(** ** Decimal text, for the values given on the command line *)

(** The decimal rendering of an integer, with a minus sign when negative. *)
Definition string_of_int (z : Z) : string :=
  if z <? 0 then "-" +:+ string_of_nonneg (- z) else string_of_nonneg z.

(** The value of a digit sequence read from the left, starting from [acc]. *)
Fixpoint uint_value (acc : Z) (d : Decimal.uint) : Z :=
  match d with
  | Decimal.Nil => acc
  | Decimal.D0 d' => uint_value (10 * acc + 0) d'
  | Decimal.D1 d' => uint_value (10 * acc + 1) d'
  | Decimal.D2 d' => uint_value (10 * acc + 2) d'
  | Decimal.D3 d' => uint_value (10 * acc + 3) d'
  | Decimal.D4 d' => uint_value (10 * acc + 4) d'
  | Decimal.D5 d' => uint_value (10 * acc + 5) d'
  | Decimal.D6 d' => uint_value (10 * acc + 6) d'
  | Decimal.D7 d' => uint_value (10 * acc + 7) d'
  | Decimal.D8 d' => uint_value (10 * acc + 8) d'
  | Decimal.D9 d' => uint_value (10 * acc + 9) d'
  end.

(** The text does not go on with a digit. *)
Definition no_digit_ahead (s : string) : bool :=
  match s with
  | String c _ => match digit_of c with Some _ => false | None => true end
  | EmptyString => true
  end.

(** The text begins with a digit. *)
Definition digit_ahead (s : string) : bool :=
  match s with
  | String c _ => match digit_of c with Some _ => true | None => false end
  | EmptyString => false
  end.

(** ** [main] *)

(** [main] under a schedule of the threads of [run]: the log of everything
    that happened, most recent first, and the exit status of the process.
    [argv] is [args], the command line without the program name. [None]:
    under this schedule [run] has not left, so the process has not ended.
    After the handler, control reaches the end of [main], which returns 0. *)
Definition main (w : World) (argv : list string) (schedule : list tid)
    : option (list (tid * event) * Z) :=
  let report (err : exn) := (MainThread, Act (PrintErr "error: {}\n" [FWhat err])) in
  match parse_args argv with
  | (t, Exit status) => Some (log_main t, status)
  | (t, Throw err) => Some (report err :: log_main t, 0)
  | (t, Ok opts) =>
      match exec w schedule (init w opts) with
      | Some s =>
          match st_main s with
          | Left (Ok _) => Some (st_log s ++ log_main t, 0)
          | Left (Throw err) => Some (report err :: st_log s ++ log_main t, 0)
          | Left (Exit status) => Some (st_log s ++ log_main t, status)
          | _ => None
          end
      | None => None
      end
  end.

(** ** The first, sequential program

    The stand-alone program the tool started as: no options, no threads; the
    last argument is the output directory, the arguments before it are the
    images. [argv] includes the program name. There is no [try] block: an
    exception ([Throw]) leaves [main] and ends the process through
    [std::terminate]. *)
Module Sequential.

(** [fmt::format("{}/face{:03d}.jpg", outputDir, face_idx)] *)
Definition face_filename (outputDir : string) (face_idx : Z) : string :=
  outputDir +:+ "/face" +:+ fmt_03d face_idx +:+ ".jpg".

(** The range-for loop of [detectAndExtractFaces]. *)
Fixpoint extract_loop (face_idx : Z) (inputImage : cv.Mat) (faces : list cv.Rect.t)
    (outputDir : string) : M unit :=
  match faces with
  | [] => mret tt
  | face :: faces' =>
      faceROI ← Mat_roi inputImage face;
      let filename := face_filename outputDir face_idx in
      faceROI ← resize faceROI (cv.Size.mk 512 512);
      emit (Imwrite filename faceROI) ;;
      extract_loop (int_add face_idx 1) inputImage faces' outputDir
  end.

(** The result of [faceCascade.load] is not looked at; [detectMultiScale]
    refuses a classifier that is empty. *)
Definition detectAndExtractFaces (w : World) (inputImage : cv.Mat)
    (outputDir : string) : M unit :=
  file ← samples_findFile w cascade_name;
  emit (CascadeLoad file) ;;
  emit (DetectMultiScale inputImage 3 (cv.Size.mk 256 256) (cv.Size.mk 0 0)) ;;
  (if cascade_load w file then mret tt
   else throw (cv_Exception "detectMultiScale")) ;;
  let faces := detectMultiScale w inputImage 3 (cv.Size.mk 256 256) (cv.Size.mk 0 0) in
  emit (Print "Detected {}\n" [FSize (length faces)]) ;;
  extract_loop 0 inputImage faces outputDir.

(** The line sent to [std::cerr], with the line feed of [std::endl]. *)
Definition usage (argv0 : string) : string :=
  "Usage: " +:+ argv0 +:+ " <input_image1> <input_image2> ... <output_directory>"
  +:+ "\n".

(** The [for] loop of [main], at index [i] with [n] iterations to go. *)
Fixpoint main_loop (w : World) (argv : list string) (outputDir : string)
    (i n : nat) : M unit :=
  match n with
  | O => mret tt
  | S n' =>
      let path := default EmptyString (argv !! i) in
      emit (Imread path) ;;
      let inputImage := imread w path in
      (if cv.empty inputImage
       then emit (PrintErr ("Failed to read image: " +:+ path +:+ "\n") [])
       else detectAndExtractFaces w inputImage outputDir) ;;
      main_loop w argv outputDir (S i) n'
  end.

Definition main (w : World) (argv : list string) : M Z :=
  let argc := length argv in
  if (argc <? 3)%nat then
    emit (PrintErr (usage (default EmptyString (argv !! 0%nat))) []) ;; mret 1
  else
    let outputDir := default EmptyString (argv !! (argc - 1)%nat) in
    create_directory w outputDir ;;
    main_loop w argv outputDir 1 (argc - 2) ;;
    mret 0.

End Sequential.

(** ** The command line and [run] of the revision before the dlib detector

    [struct Options], [parse_args] and [run] as they were with the cascade
    classifier only; [detect_and_extract_faces] of that revision is in
    [CascadeOnly]. *)
Module CascadeOnlyRun.

Record Options : Type := {
  images : list string;
  output_directory : string;
  min_size : option cv.Size.t;
  max_size : option cv.Size.t;
  verbose : bool;
  min_neighbors : Z
}.

Definition Options_default : Options := {|
  images := [];
  output_directory := EmptyString;
  min_size := Some (cv.Size.mk 512 512);
  max_size := None;
  verbose := false;
  min_neighbors := 3
|}.

Definition push_image (v : string) (o : Options) : Options :=
  {| images := images o ++ [v]; output_directory := output_directory o;
     min_size := min_size o; max_size := max_size o;
     verbose := verbose o; min_neighbors := min_neighbors o |}.
Definition set_output_directory (v : string) (o : Options) : Options :=
  {| images := images o; output_directory := v;
     min_size := min_size o; max_size := max_size o;
     verbose := verbose o; min_neighbors := min_neighbors o |}.
Definition set_min_size (v : option cv.Size.t) (o : Options) : Options :=
  {| images := images o; output_directory := output_directory o;
     min_size := v; max_size := max_size o;
     verbose := verbose o; min_neighbors := min_neighbors o |}.
Definition set_max_size (v : option cv.Size.t) (o : Options) : Options :=
  {| images := images o; output_directory := output_directory o;
     min_size := min_size o; max_size := v;
     verbose := verbose o; min_neighbors := min_neighbors o |}.
Definition set_verbose (v : bool) (o : Options) : Options :=
  {| images := images o; output_directory := output_directory o;
     min_size := min_size o; max_size := max_size o;
     verbose := v; min_neighbors := min_neighbors o |}.
Definition set_min_neighbors (v : Z) (o : Options) : Options :=
  {| images := images o; output_directory := output_directory o;
     min_size := min_size o; max_size := max_size o;
     verbose := verbose o; min_neighbors := v |}.

Definition help_text : string :=
  "Usage: gesichtool [OPTIONS] IMAGE... -o OUTDIR\n" +:+
  "Extract faces from image files\n" +:+
  "\n" +:+
  "Options:\n" +:+
  "  -h, --help                Print this help\n" +:+
  "  -v, --verbose             Be more verbose\n" +:+
  "  -o, --output DIR          Output directory\n" +:+
  "  -n, --min-neighbors INT   Higher values reduce false positives (default: 3)\n".

Definition print_help : M unit := emit (Print help_text []).

(** The [for] loop of [parse_args] over the arguments not yet consumed. *)
Fixpoint parse_loop (opts : Options) (argv : list string) : M Options :=
  match argv with
  | [] => mret opts
  | arg :: rest =>
      if starts_with_dash arg then
        if String.eqb arg "-o" || String.eqb arg "--option" then
          match rest with
          | [] => requires_an_argument arg
          | v :: rest' => parse_loop (set_output_directory v opts) rest'
          end
        else if String.eqb arg "-v" || String.eqb arg "--verbose" then
          parse_loop (set_verbose true opts) rest
        else if String.eqb arg "-h" || String.eqb arg "--help" then
          print_help ;; exit 0
        else if String.eqb arg "-n" || String.eqb arg "--min-neighbors" then
          match rest with
          | [] => requires_an_argument arg
          | v :: rest' =>
              n ← try_catch (stoi v) (fun err =>
                     throw (ArgParseError_nested
                              ("invalid value " +:+ v +:+ " for argument") err));
              parse_loop (set_min_neighbors n opts) rest'
          end
        else if String.eqb arg "--min-size" then
          match rest with
          | [] => requires_an_argument arg
          | v :: rest' =>
              sz ← to_size v;
              parse_loop (set_min_size (Some sz) opts) rest'
          end
        else if String.eqb arg "--max-size" then
          match rest with
          | [] => requires_an_argument arg
          | v :: rest' =>
              sz ← to_size v;
              parse_loop (set_max_size (Some sz) opts) rest'
          end
        else
          throw (ArgParseError ("unknown argument " +:+ arg +:+ " given"))
      else
        parse_loop (push_image arg opts) rest
  end.

Definition parse_args (argv : list string) : M Options :=
  opts ← parse_loop Options_default argv;
  if bool_decide (images opts = []) then
    throw (ArgParseError "no input images given")
  else if string_empty (output_directory opts) then
    throw (ArgParseError "no output directory given")
  else mret opts.

(** [opts.images[images_idx]]; the launching loop keeps the index in range. *)
Definition images_at (opts : Options) (images_idx : nat) : string :=
  default EmptyString (images opts !! images_idx).

(** The lambda of [run], between the guard's construction and its
    destruction. *)
Definition cascade_task (w : World) (opts : Options) (cascade_file : string)
    (images_idx : nat) : M unit :=
  let input_image_path := images_at opts images_idx in
  emit (CascadeLoad cascade_file) ;;
  if negb (cascade_load w cascade_file) then
    throw (runtime_error ("failed to load " +:+ cascade_file))
  else
    emit (Imread input_image_path) ;;
    let image := imread w input_image_path in
    if cv.empty image then
      emit (PrintErr "error: failed to read image: {}\n" [FPath input_image_path])
    else
      CascadeOnly.detect_and_extract_faces w (wrap32 (Z.of_nat images_idx)) image
        (min_size opts) (max_size opts) (min_neighbors opts) (output_directory opts).

(** [run]: here the function itself creates the output directory. *)
Definition run (w : World) (opts : Options) : async_batch :=
  let cascade_file := findFile w cascade_name in {|
  prologue := create_directory w (output_directory opts) ;;
              samples_findFile w cascade_name ;; mret tt;
  before_launch := fun images_idx =>
    if verbose opts
    then [Print "processing {}\n" [FPath (images_at opts images_idx)]]
    else [];
  task := cascade_task w opts cascade_file
|}.

End CascadeOnlyRun.

(** The fields of [Options] that the earlier revision already had. *)
Definition earlier_fields (o : Options) : CascadeOnlyRun.Options := {|
  CascadeOnlyRun.images := images o;
  CascadeOnlyRun.output_directory := output_directory o;
  CascadeOnlyRun.min_size := min_size o;
  CascadeOnlyRun.max_size := max_size o;
  CascadeOnlyRun.verbose := verbose o;
  CascadeOnlyRun.min_neighbors := min_neighbors o
|}.

(** What the earlier revision does by construction, as later options: the
    cascade classifier and thumbnails of 512x512. *)
Definition later_options (o : CascadeOnlyRun.Options) : Options := {|
  mode := OPENCV;
  images := CascadeOnlyRun.images o;
  output_directory := CascadeOnlyRun.output_directory o;
  output_size := cv.Size.mk 512 512;
  min_size := CascadeOnlyRun.min_size o;
  max_size := CascadeOnlyRun.max_size o;
  verbose := CascadeOnlyRun.verbose o;
  min_neighbors := CascadeOnlyRun.min_neighbors o
|}.

Definition result_map {A B} (f : A -> B) (r : result A) : result B :=
  match r with
  | Ok a => Ok (f a)
  | Throw e => Throw e
  | Exit status => Exit status
  end.

Definition is_stdout (a : action) : bool :=
  match a with Print _ _ => true | _ => false end.

(** A trace without what goes to [stdout]. *)
Definition effects (t : list action) : list action :=
  filter (fun a => is_stdout a = false) t.

(** The options that got added with the dlib detector. *)
Definition later_option (arg : string) : bool :=
  String.eqb arg "--size" || String.eqb arg "--opencv" || String.eqb arg "--dlib".

(** * Proofs *)

(** ** Integers *)

Lemma wrap32_id z : is_int z -> wrap32 z = z.
Proof.
  unfold is_int, INT_MIN, INT_MAX, wrap32. intros H.
  rewrite Z.mod_small; lia.
Qed.

Lemma wrap32_is_int z : is_int (wrap32 z).
Proof.
  unfold is_int, INT_MIN, INT_MAX, wrap32.
  pose proof (Z.mod_pos_bound (z + 2 ^ 31) (2 ^ 32)). lia.
Qed.

Lemma rect_of_dlib_is_int rect : rect_is_int (rect_of_dlib rect).
Proof. repeat split; apply wrap32_is_int. Qed.

(** ** The monad *)

Lemma bind_Ok {A B} (m : M A) (f : A -> M B) t a :
  m = (t, Ok a) -> m ≫= f = (t ++ trace (f a), outcome (f a)).
Proof. intros ->. unfold mbind, M_bind, bind, trace, outcome. by destruct (f a). Qed.

Lemma pair_bind_Ok {A B} t (a : A) (f : A -> M B) :
  ((t, Ok a) : M A) ≫= f = (t ++ trace (f a), outcome (f a)).
Proof. by apply bind_Ok. Qed.

Lemma emit_bind {B} (a : action) (k : M B) :
  (emit a ;; k) = (a :: trace k, outcome k).
Proof. by rewrite (bind_Ok _ _ [a] tt). Qed.

Lemma mret_bind {A B} (a : A) (f : A -> M B) : mret a ≫= f = f a.
Proof. rewrite (bind_Ok _ _ [] a); [|done]. by destruct (f a). Qed.

Lemma result_bind_outcome {A B} (m : M A) (f : A -> M B) :
  outcome (m ≫= f) = match outcome m with
                     | Ok a => outcome (f a)
                     | Throw e => Throw e
                     | Exit status => Exit status
                     end.
Proof.
  destruct m as [t [a|e|st]]; [|done..].
  by rewrite pair_bind_Ok.
Qed.

(** ** C6: the adjustment of the detected rectangle *)

Lemma inflated_id face : rect_is_int face -> inflated face = face.
Proof.
  intros (Hx & Hy & Hw & Hh). unfold inflated, inflation, int_sub, int_add, int_mul.
  rewrite !Z.sub_0_r, Z.mul_0_l, (wrap32_id 0), !Z.add_0_r
    by (unfold is_int, INT_MIN, INT_MAX; lia).
  rewrite !wrap32_id by done. by destruct face.
Qed.

Lemma enlarged_face_eq image face :
  rect_is_int face ->
  enlarged_face image face =
  (if rejected image face then [Print "  enlargement rejected\n" []] else [], Ok face).
Proof.
  intros Hface. unfold enlarged_face. cbv zeta. rewrite inflated_id by done.
  by destruct (rejected image face).
Qed.

Lemma enlarged_face_outcome image face :
  rect_is_int face -> outcome (enlarged_face image face) = Ok face.
Proof. intros H. by rewrite enlarged_face_eq. Qed.

Lemma enlarged_face_trace image face :
  trace (enlarged_face image face) = [] \/
  trace (enlarged_face image face) = [Print "  enlargement rejected\n" []].
Proof. unfold enlarged_face. cbv zeta. destruct (rejected _ _); [right|left]; done. Qed.

Lemma within_image_is_int image face :
  is_int (cv.cols image) -> is_int (cv.rows image) ->
  within_image image face -> rect_is_int face.
Proof.
  unfold within_image, rect_is_int, is_int, INT_MIN, INT_MAX. lia.
Qed.

(** C6. For every detected rectangle lying within the image, the rectangle
    handed to the crop is the detected rectangle itself: the rectangle grown
    by the zero inflation equals it, and [enlarged_face] ends up as it on both
    paths of the border check, the silent one and the one that prints the
    rejection and restores the original. *)
Theorem adjustment_is_identity image face :
  is_int (cv.cols image) -> is_int (cv.rows image) ->
  within_image image face ->
  inflated face = face /\
  enlarged_face image face =
  (if rejected image face then [Print "  enlargement rejected\n" []] else [], Ok face).
Proof.
  intros Hc Hr Hin.
  pose proof (within_image_is_int image face Hc Hr Hin) as Hface.
  split; [by apply inflated_id | by apply enlarged_face_eq].
Qed.

(** The check does fire for rectangles inside the image: one that touches the
    right border is reported as rejected, and still cropped unchanged. *)
Example adjustment_both_paths :
  let image := cv.MatFile "a.jpg" 100 100 in
  enlarged_face image (cv.Rect.mk 10 10 20 20) = ([], Ok (cv.Rect.mk 10 10 20 20)) /\
  enlarged_face image (cv.Rect.mk 80 10 20 20)
  = ([Print "  enlargement rejected\n" []], Ok (cv.Rect.mk 80 10 20 20)).
Proof. split; reflexivity. Qed.

Lemma adjustment_is_identity_witness :
  let image := cv.MatFile "a.jpg" 100 100 in
  let face := cv.Rect.mk 80 10 20 20 in
  inflated face = face /\
  enlarged_face image face = ([Print "  enlargement rejected\n" []], Ok face).
Proof.
  apply (adjustment_is_identity (cv.MatFile "a.jpg" 100 100) (cv.Rect.mk 80 10 20 20));
    unfold is_int, INT_MIN, INT_MAX, within_image; simpl; lia.
Defined.

(** ** The files written for one image *)

Lemma imwrites_app t1 t2 : imwrites (t1 ++ t2) = imwrites t1 ++ imwrites t2.
Proof. apply omap_app. Qed.

Lemma imwrites_Print f args t : imwrites (Print f args :: t) = imwrites t.
Proof. done. Qed.

Lemma imwrites_Imwrite f m t : imwrites (Imwrite f m :: t) = (f, m) :: imwrites t.
Proof. done. Qed.

Lemma imwrites_cons_other a t :
  (forall f m, a <> Imwrite f m) -> imwrites (a :: t) = imwrites t.
Proof. intros H. destruct a; try done. by destruct (H filename image). Qed.

Lemma imwrites_enlarged_face image face :
  imwrites (trace (enlarged_face image face)) = [].
Proof. by destruct (enlarged_face_trace image face) as [-> | ->]. Qed.

Lemma Mat_roi_resize image face sz :
  (Mat_roi image face ≫= fun m => resize m sz) =
  if extractable image sz face
  then ([], Ok (cv.MatResize (cv.MatRoi image face) sz))
  else ([], Throw (cv_Exception (if roi_inside image face then "resize" else "Mat"))).
Proof.
  unfold extractable, Mat_roi, resize. destruct (roi_inside image face); [|done].
  rewrite mret_bind. cbn [andb].
  destruct (cv.empty (cv.MatRoi image face)); [done|].
  by destruct (size_empty sz).
Qed.

Lemma bind_assoc {A B C} (m : M A) (f : A -> M B) (g : B -> M C) :
  (m ≫= f) ≫= g = m ≫= (fun a => f a ≫= g).
Proof.
  destruct m as [t [a|e|st]]; [|done..].
  unfold mbind, M_bind, bind. destruct (f a) as [t1 [b|e|st]]; [|by rewrite ?app_nil_r..].
  destruct (g b) as [t2 r]. by rewrite app_assoc.
Qed.

(** One turn of the loop of [extract_faces]. *)
Lemma extract_faces_from_cons k image face faces i dir sz :
  rect_is_int face ->
  extract_faces_from k image (face :: faces) i dir sz =
  let pre := trace (enlarged_face image face) ++
             [Print "extracting face at: {} {} {} {} from {}x{}\n"
                [FInt (cv.Rect.x face); FInt (cv.Rect.y face);
                 FInt (cv.Rect.width face); FInt (cv.Rect.height face);
                 FInt (cv.cols image); FInt (cv.rows image)]] in
  if extractable image sz face then
    (pre ++ Imwrite (path_join dir (face_basename i k))
                    (cv.MatResize (cv.MatRoi image face) sz)
            :: trace (extract_faces_from (int_add k 1) image faces i dir sz),
     outcome (extract_faces_from (int_add k 1) image faces i dir sz))
  else
    (pre, Throw (cv_Exception (if roi_inside image face then "resize" else "Mat"))).
Proof.
  intros Hface. cbn [extract_faces_from]. cbv zeta.
  pose proof (enlarged_face_outcome image face Hface) as Hout.
  destruct (enlarged_face image face) as [t0 r0] eqn:E. simpl in Hout. subst r0.
  erewrite bind_Ok by reflexivity. rewrite emit_bind.
  cbn [trace outcome fst snd].
  rewrite <- bind_assoc, Mat_roi_resize.
  destruct (extractable image sz face).
  - rewrite pair_bind_Ok, emit_bind. cbn [trace outcome fst snd app].
    by rewrite <- app_assoc.
  - reflexivity.
Qed.

Lemma extracted_all image sz faces :
  Forall (fun face => extractable image sz face = true) faces ->
  extracted image sz faces = faces.
Proof. induction 1 as [|face faces H _ IH]; [done|]. simpl. by rewrite H, IH. Qed.

Lemma extracted_all_inv image sz faces :
  extracted image sz faces = faces ->
  Forall (fun face => extractable image sz face = true) faces.
Proof.
  induction faces as [|face faces IH]; [done|]. simpl.
  destruct (extractable image sz face) eqn:E; [|done].
  intros [= H]. constructor; auto.
Qed.

Lemma extracted_prefix image sz faces : extracted image sz faces `prefix_of` faces.
Proof.
  induction faces as [|face faces IH]; [done|]. simpl.
  destruct (extractable image sz face); [by apply prefix_cons|apply prefix_nil].
Qed.

(** What the loop writes, and how it ends: a thumbnail for each rectangle up
    to the first one that cannot be cropped or resized, where it throws. *)
Lemma extract_faces_from_writes faces : forall k image i dir sz,
  Forall rect_is_int faces ->
  0 <= k -> k + Z.of_nat (length faces) <= INT_MAX ->
  imwrites (trace (extract_faces_from k image faces i dir sz)) =
    imap (fun j face => (path_join dir (face_basename i (k + Z.of_nat j)),
                         cv.MatResize (cv.MatRoi image face) sz))
         (extracted image sz faces) /\
  (outcome (extract_faces_from k image faces i dir sz) = Ok tt <->
   extracted image sz faces = faces) /\
  (outcome (extract_faces_from k image faces i dir sz) = Ok tt \/
   exists func, outcome (extract_faces_from k image faces i dir sz)
                = Throw (cv_Exception func)).
Proof.
  induction faces as [|face faces IH]; intros k image i dir sz Hint Hk Hlen.
  - split; [done|]. split; [done|by left].
  - apply Forall_cons in Hint as [Hface Hint].
    rewrite extract_faces_from_cons by done. cbv zeta.
    cbn [length] in Hlen. cbn [extracted].
    destruct (extractable image sz face) eqn:Hx; cbn [trace outcome fst snd].
    + assert (int_add k 1 = k + 1) as ->.
      { apply wrap32_id. unfold is_int, INT_MIN, INT_MAX in *. lia. }
      destruct (IH (k + 1) image i dir sz Hint) as (IHw & IHo & IHc); [lia..|].
      split; [|split; [|done]].
      * rewrite !imwrites_app, imwrites_enlarged_face, imwrites_Print, imwrites_Imwrite.
        rewrite IHw. change (imwrites []) with (@nil (string * cv.Mat)).
        cbn [imap app]. rewrite Z.add_0_r. f_equal.
        apply imap_ext. intros j x _. unfold compose. do 3 f_equal. lia.
      * rewrite IHo. split; [by intros ->|by intros [= ->]].
    + split; [|split; [done|right; by eexists]].
      by rewrite imwrites_app, imwrites_enlarged_face.
Qed.

(** *** File names do not collide *)

Lemma string_app_cons c (a b : string) : String c a +:+ b = String c (a +:+ b).
Proof. reflexivity. Qed.

Lemma string_app_nil (b : string) : EmptyString +:+ b = b.
Proof. reflexivity. Qed.


Lemma string_app_inj_l (p a b : string) : p +:+ a = p +:+ b -> a = b.
Proof.
  induction p as [|c p IH]; [done|].
  rewrite !string_app_cons. intros [= E]. auto.
Qed.


Lemma padded_value_zeros n s :
  padded_value (zeros n +:+ s) = padded_value s.
Proof.
  induction n as [|n IH]; [done|]. unfold padded_value in *.
  cbn [zeros]. rewrite string_app_cons. simpl.
  destruct (NilEmpty.uint_of_string (zeros n +:+ s)),
           (NilEmpty.uint_of_string s); simpl in *; congruence.
Qed.

Lemma padded_value_string_of_nonneg z :
  0 <= z -> padded_value (string_of_nonneg z) = Some (Z.to_N z).
Proof.
  intros Hz. unfold padded_value, string_of_nonneg.
  assert (NilEmpty.uint_of_string (NilZero.string_of_uint (N.to_uint (Z.to_N z)))
          = Some (N.to_uint (Z.to_N z))) as ->.
  { unfold NilZero.string_of_uint.
    destruct (N.to_uint (Z.to_N z)) eqn:E; try apply NilEmpty.usu.
    destruct (Z.to_N z); simpl in E; [discriminate|].
    exfalso. revert E. apply DecimalPos.Unsigned.to_uint_nonnil. }
  simpl. by rewrite DecimalN.Unsigned.of_to.
Qed.

Lemma fmt_03d_inj a b : 0 <= a -> 0 <= b -> fmt_03d a = fmt_03d b -> a = b.
Proof.
  intros Ha Hb. unfold fmt_03d, zero_pad.
  destruct (Z.ltb_spec a 0), (Z.ltb_spec b 0); try lia.
  intros E. apply (f_equal padded_value) in E.
  rewrite !padded_value_zeros, !padded_value_string_of_nonneg in E by done.
  injection E as E. lia.
Qed.


Lemma path_join_inj dir a b : path_join dir a = path_join dir b -> a = b.
Proof.
  unfold path_join. destruct dir as [|c dir]; [done|].
  destruct (ends_with_slash _); intros E.
  - by apply string_app_inj_l in E.
  - by do 2 apply string_app_inj_l in E.
Qed.


Lemma images_at_lookup opts i path :
  images opts !! i = Some path -> images_at opts i = path.
Proof. unfold images_at. by intros ->. Qed.

Lemma extract_faces_writes opts image i faces :
  Forall rect_is_int faces ->
  Z.of_nat i <= INT_MAX -> Z.of_nat (length faces) <= INT_MAX ->
  let m := extract_faces image faces (wrap32 (Z.of_nat i))
             (output_directory opts) (output_size opts) in
  imwrites (trace m)
  = imap (thumbnail opts image i) (extracted image (output_size opts) faces) /\
  (outcome m = Ok tt <-> extracted image (output_size opts) faces = faces) /\
  (outcome m = Ok tt \/ exists func, outcome m = Throw (cv_Exception func)).
Proof.
  intros Hint Hi Hn m. subst m. unfold extract_faces.
  rewrite wrap32_id by (unfold is_int, INT_MIN, INT_MAX in *; lia).
  destruct (extract_faces_from_writes faces 0 image (Z.of_nat i)
              (output_directory opts) (output_size opts)) as (Hw & Ho & Hc); [done|lia|lia|].
  split; [|done]. rewrite Hw. apply imap_ext. intros j x _.
  unfold thumbnail. by rewrite Z.add_0_l.
Qed.

Lemma dlib_task_eq w opts i :
  dlib_task w opts i =
  let p := images_at opts i in
  let image := imread w p in
  let m := extract_faces image (rect_of_dlib <$> frontal_face_detector w (cv.MatGray image))
             (wrap32 (Z.of_nat i)) (output_directory opts) (output_size opts) in
  if cv.empty image then
    ((if verbose opts then [Print "processing {}\n" [FPath p]] else [])
     ++ [GetFrontalFaceDetector; Imread p], Throw (cv_Exception "cvtColor"))
  else
    ((if verbose opts then [Print "processing {}\n" [FPath p]] else [])
     ++ GetFrontalFaceDetector :: Imread p :: DlibDetect (cv.MatGray image) :: trace m,
     outcome m).
Proof.
  unfold dlib_task, cvtColor. cbv zeta.
  destruct (cv.empty (imread w (images_at opts i))).
  - rewrite !emit_bind. destruct (verbose opts).
    + by rewrite emit_bind.
    + by rewrite mret_bind.
  - rewrite mret_bind, !emit_bind. destruct (verbose opts).
    + by rewrite emit_bind.
    + by rewrite mret_bind.
Qed.

Lemma detect_faces_eq w image mn mx n :
  detect_faces w image mn mx n =
  ([DetectMultiScale image n (default (cv.Size.mk 0 0) mn) (default (cv.Size.mk 0 0) mx)],
   Ok (detectMultiScale w image n (default (cv.Size.mk 0 0) mn)
         (default (cv.Size.mk 0 0) mx))).
Proof. reflexivity. Qed.

Lemma opencv_task_eq w opts cascade_file i :
  cascade_load w cascade_file = true ->
  cv.empty (imread w (images_at opts i)) = false ->
  opencv_task w opts cascade_file i =
  let p := images_at opts i in
  let image := imread w p in
  let mn := default (cv.Size.mk 0 0) (min_size opts) in
  let mx := default (cv.Size.mk 0 0) (max_size opts) in
  let faces := detectMultiScale w image (min_neighbors opts) mn mx in
  let m := extract_faces image faces
             (wrap32 (Z.of_nat i)) (output_directory opts) (output_size opts) in
  match outcome m with
  | Ok _ =>
      (CascadeLoad cascade_file :: Imread p
       :: DetectMultiScale image (min_neighbors opts) mn mx
       :: trace m ++ [Print "  detected {}\n" [FSize (length faces)]], Ok tt)
  | Throw e =>
      (CascadeLoad cascade_file :: Imread p
       :: DetectMultiScale image (min_neighbors opts) mn mx :: trace m, Throw e)
  | Exit st =>
      (CascadeLoad cascade_file :: Imread p
       :: DetectMultiScale image (min_neighbors opts) mn mx :: trace m, Exit st)
  end.
Proof.
  intros Hload Himg. unfold opencv_task. cbv zeta. rewrite Hload, Himg. cbn [negb].
  rewrite !emit_bind, detect_faces_eq, pair_bind_Ok.
  cbn [trace outcome fst snd app].
  destruct (extract_faces _ _ _ _ _) as [t [[]|e|st]]; reflexivity.
Qed.

(** ** The transition system *)

Lemma holders_app l1 l2 : holders (l1 ++ l2) = (holders l1 + holders l2)%nat.
Proof. induction l1 as [|t l1 IH]; simpl; [done|]. rewrite IH. lia. Qed.

Lemma holders_insert futures : forall i t t',
  futures !! i = Some t ->
  (holders (<[i := t']> futures) + (if is_running t then 1 else 0))%nat =
  (holders futures + (if is_running t' then 1 else 0))%nat.
Proof.
  induction futures as [|x l IH]; intros [|i] t t' H; simplify_eq/=.
  - lia.
  - specialize (IH i t t' H). lia.
Qed.

Lemma all_finished_lookup futures i t :
  all_finished futures = true -> futures !! i = Some t -> t = Finished.
Proof.
  unfold all_finished. rewrite forallb_forall. intros H Hi.
  apply list_elem_of_lookup_2, list_elem_of_In, H in Hi. by destruct t.
Qed.

Lemma events_of_cons t x log :
  events_of t (x :: log) =
  events_of t log ++ (if decide (x.1 = t) then [x.2] else []).
Proof.
  unfold events_of. cbn [rev]. rewrite omap_app. f_equal.
  simpl. by destruct (decide _).
Qed.

Lemma events_of_other t x log : x.1 <> t -> events_of t (x :: log) = events_of t log.
Proof.
  intros H. rewrite events_of_cons. destruct (decide _); [done|]. by rewrite app_nil_r.
Qed.

Lemma events_of_own t e log : events_of t ((t, e) :: log) = events_of t log ++ [e].
Proof. rewrite events_of_cons. simpl. by destruct (decide _). Qed.

Lemma events_of_log_main i acts log :
  events_of (TaskThread i) (log_main acts ++ log) = events_of (TaskThread i) log.
Proof.
  unfold log_main. induction acts as [|a acts IH] using rev_ind; [done|].
  rewrite fmap_app, rev_app_distr. simpl. by rewrite events_of_other.
Qed.

Lemma step_opts w t s s' : step w t s = Some s' -> st_opts s' = st_opts s.
Proof.
  destruct t as [|i]; simpl.
  - unfold step_main. intros H.
    repeat (case_match; simplify_eq/=); done.
  - unfold step_task. intros H.
    repeat (case_match; simplify_eq/=); done.
Qed.

Lemma invariant_init w opts : invariant w opts (init w opts).
Proof.
  unfold init. cbv zeta. split; cbn [st_opts st_sem st_futures st_main st_log].
  - done.
  - simpl. lia.
  - unfold main_consistent, started. cbn [st_main st_futures].
    destruct (outcome (run_prologue w opts)); simpl; repeat split; lia.
  - intros i. cbn [lookup list_lookup task_progress].
    assert (events_of (TaskThread i) (log_main (trace (run_prologue w opts))) = []) as H.
    { rewrite <- (app_nil_r (log_main _)). by rewrite events_of_log_main. }
    destruct (outcome (run_prologue w opts)); cbn [app]; [done|..];
      by rewrite events_of_other.
Qed.

Lemma task_progress_other body (ts : option tstate) i x log :
  x.1 <> TaskThread i ->
  task_progress body ts (events_of (TaskThread i) log) ->
  task_progress body ts (events_of (TaskThread i) (x :: log)).
Proof. intros H. by rewrite events_of_other. Qed.

Lemma invariant_step_task w opts i s s' :
  invariant w opts s -> step_task w i s = Some s' -> invariant w opts s'.
Proof.
  intros [Hopts Hsem Hmain Hlog] Hstep. unfold step_task in Hstep.
  rewrite Hopts in Hstep.
  destruct (st_futures s !! i) as [ts|] eqn:Hi; [|done].
  assert (Hlen : (i < length (st_futures s))%nat) by (by eapply lookup_lt_Some).
  assert (Hnotleft : forall r, st_main s = Left r -> ts = Finished).
  { intros r Hr. unfold main_consistent in Hmain. rewrite Hr in Hmain.
    destruct Hmain as [Hall _]. by eapply all_finished_lookup. }
  pose proof (Hlog i) as Hmine. rewrite Hi in Hmine.
  assert (Hothers : forall (ts' : tstate) (e : event) j, j <> i ->
    task_progress (trace (task (run w opts) j)) (<[i := ts']> (st_futures s) !! j)
      (events_of (TaskThread j) ((TaskThread i, e) :: st_log s))).
  { intros ts' e j Hj. rewrite list_lookup_insert_ne by done.
    apply task_progress_other; [simpl; congruence|]. apply Hlog. }
  destruct ts as [|[|a todo]|].
  - (* acquire *)
    destruct (st_sem s) as [|c] eqn:Hc; [done|]. simplify_eq/=.
    split; simpl.
    + done.
    + pose proof (holders_insert (st_futures s) i Created
                    (Running (trace (task (run w (st_opts s)) i))) Hi) as H.
      simpl in H. lia.
    + unfold main_consistent in *. simpl. rewrite length_insert.
      destruct (st_main s) eqn:Hm; try done.
      by specialize (Hnotleft _ eq_refl).
    + intros j. destruct (decide (j = i)) as [->|Hj]; [|by apply Hothers].
      rewrite list_lookup_insert_eq by done. simpl.
      exists []. split; [done|]. rewrite events_of_own. by rewrite Hmine.
  - (* release *)
    simplify_eq/=. split; simpl.
    + done.
    + pose proof (holders_insert (st_futures s) i (Running []) Finished Hi) as H.
      simpl in H. lia.
    + unfold main_consistent in *. simpl. rewrite length_insert.
      destruct (st_main s) eqn:Hm; try done.
      by specialize (Hnotleft _ eq_refl).
    + intros j. destruct (decide (j = i)) as [->|Hj]; [|by apply Hothers].
      rewrite list_lookup_insert_eq by done. simpl.
      destruct Hmine as (done & Hdone & Hev). rewrite app_nil_r in Hdone. subst done.
      rewrite events_of_own, Hev. done.
  - (* one action of the body *)
    simplify_eq/=. split; simpl.
    + done.
    + pose proof (holders_insert (st_futures s) i (Running (a :: todo)) (Running todo) Hi) as H.
      simpl in H. lia.
    + unfold main_consistent in *. simpl. rewrite length_insert.
      destruct (st_main s) eqn:Hm; try done.
      by specialize (Hnotleft _ eq_refl).
    + intros j. destruct (decide (j = i)) as [->|Hj]; [|by apply Hothers].
      rewrite list_lookup_insert_eq by done. simpl.
      destruct Hmine as (done & Hdone & Hev).
      exists (done ++ [a]). split; [by rewrite <- app_assoc|].
      rewrite events_of_own, Hev, fmap_app. done.
  - done.
Qed.

Lemma invariant_step_main w opts s s' :
  invariant w opts s -> step_main w s = Some s' -> invariant w opts s'.
Proof.
  intros [Hopts Hsem Hmain Hlog] Hstep. unfold step_main in Hstep.
  rewrite Hopts in Hstep. unfold main_consistent in Hmain.
  destruct (st_main s) as [k|k|r|r] eqn:Hm.
  - (* the launching loop *)
    destruct Hmain as (Hst & Hlen & Hk).
    destruct (Nat.ltb_spec k (length (images opts))); simplify_eq/=.
    + split; simpl.
      * done.
      * rewrite holders_app. simpl. lia.
      * unfold main_consistent. simpl. rewrite length_app. simpl.
        repeat split; [done|lia..].
      * intros i. rewrite events_of_other by done. rewrite events_of_log_main.
        specialize (Hlog i).
        destruct (st_futures s !! i) as [ts|] eqn:Hi.
        -- by rewrite (lookup_app_l_Some _ _ _ _ Hi).
        -- simpl in Hlog. rewrite Hlog.
           destruct ((st_futures s ++ [Created]) !! i) as [ts|] eqn:Hi'; [|done].
           apply lookup_app_Some in Hi' as [Hi'|[_ Hi']]; [congruence|].
           apply list_lookup_singleton_Some in Hi' as [_ <-]. done.
    + split; simpl.
      * done.
      * done.
      * unfold main_consistent. simpl. split; [done|lia].
      * intros i. rewrite events_of_other by done. apply Hlog.
  - (* the loop over [futures] *)
    destruct (st_futures s !! k) as [[| |]|] eqn:Hk; simplify_eq/=.
    + split; simpl; try done.
      * unfold main_consistent. simpl.
        by destruct (outcome (task (run w (st_opts s)) k)).
      * intros i. rewrite events_of_other by done. apply Hlog.
    + split; simpl; try done.
  - (* leaving the scope of [futures] *)
    destruct (all_finished (st_futures s)) eqn:Hall; simplify_eq/=.
    destruct Hmain as [Hst Hlen].
    split; simpl; try done.
    + unfold main_consistent. simpl. by rewrite Hst.
    + intros i. rewrite events_of_other by done. apply Hlog.
  - done.
Qed.

Lemma invariant_step w opts t s s' :
  invariant w opts s -> step w t s = Some s' -> invariant w opts s'.
Proof.
  destruct t; [apply invariant_step_main | apply invariant_step_task].
Qed.

Lemma invariant_exec w opts schedule : forall s s',
  invariant w opts s -> exec w schedule s = Some s' -> invariant w opts s'.
Proof.
  induction schedule as [|t schedule IH]; intros s s' Hinv Hexec; simpl in Hexec.
  - by simplify_eq.
  - destruct (step w t s) as [s1|] eqn:Hstep; [|done].
    eapply IH; [|done]. by eapply invariant_step.
Qed.

Lemma invariant_reachable w opts s : reachable w opts s -> invariant w opts s.
Proof. intros [schedule H]. eapply invariant_exec; [apply invariant_init|done]. Qed.

Lemma step_task_frame w i s s' :
  step_task w i s = Some s' ->
  st_opts s' = st_opts s /\ st_main s' = st_main s /\
  length (st_futures s') = length (st_futures s) /\
  forall j, j <> i -> st_futures s' !! j = st_futures s !! j.
Proof.
  unfold step_task. intros H.
  repeat (case_match; simplify_eq/=); repeat split; try done;
    try apply length_insert; intros j Hj; by rewrite list_lookup_insert_ne.
Qed.

(** ** C2: the admission limiter *)

(** C2. In every state a run can reach, the number of tasks holding a slot
    plus the free slots of the semaphore equals
    [std::thread::hardware_concurrency()], so the holders never exceed it; and
    a step of a task changes nothing that other threads read, except the
    semaphore: not the options, not the main thread, not another task. *)
Theorem admission_bounded w opts s :
  reachable w opts s ->
  (holders (st_futures s) <= hardware_concurrency w)%nat /\
  (st_sem s + holders (st_futures s))%nat = hardware_concurrency w /\
  forall i s', step_task w i s = Some s' ->
    st_opts s' = st_opts s /\ st_main s' = st_main s /\
    length (st_futures s') = length (st_futures s) /\
    forall j, j <> i -> st_futures s' !! j = st_futures s !! j.
Proof.
  intros Hr. apply invariant_reachable in Hr. destruct Hr as [_ Hsem _ _].
  split; [lia|]. split; [done|]. intros i s'. apply step_task_frame.
Qed.

Lemma admission_bounded_witness :
  (holders (st_futures example_state) <= hardware_concurrency example_world)%nat /\
  (st_sem example_state + holders (st_futures example_state))%nat
  = hardware_concurrency example_world /\
  forall i s', step_task example_world i example_state = Some s' ->
    st_opts s' = st_opts example_state /\ st_main s' = st_main example_state /\
    length (st_futures s') = length (st_futures example_state) /\
    forall j, j <> i -> st_futures s' !! j = st_futures example_state !! j.
Proof.
  apply (admission_bounded example_world example_opts example_state).
  exists example_schedule. reflexivity.
Defined.

(** With one hardware thread and two images the bound is reached, and the
    task that comes second is refused until the holder releases. *)
Example admission_bound_is_tight :
  holders (st_futures example_state) = 1%nat /\
  exec example_world [MainThread; MainThread; TaskThread 1; TaskThread 0]
       (init example_world example_opts) = None.
Proof. split; reflexivity. Qed.

(** ** C3: the order of the pipeline *)

Lemma left_is_final w opts s r t :
  invariant w opts s -> st_main s = Left r -> step w t s = None.
Proof.
  intros [_ _ Hmain _] Hr. unfold main_consistent in Hmain. rewrite Hr in Hmain.
  destruct Hmain as [Hall _]. destruct t as [|i]; simpl.
  - unfold step_main. by rewrite Hr.
  - unfold step_task. destruct (st_futures s !! i) as [ts|] eqn:Hi; [|done].
    by rewrite (all_finished_lookup _ _ _ Hall Hi).
Qed.

Lemma task_progress_first body ts evs e :
  task_progress body ts evs -> e ∈ evs -> head evs = Some Acquire.
Proof.
  destruct ts as [[|todo|]|]; simpl.
  - intros -> H. by apply elem_of_nil in H.
  - by intros (done & _ & ->) _.
  - by intros -> _.
  - intros -> H. by apply elem_of_nil in H.
Qed.

Lemma task_progress_released body ts evs :
  task_progress body ts evs -> Release ∈ evs -> evs = task_events body.
Proof.
  destruct ts as [[|todo|]|]; simpl.
  - intros -> H. by apply elem_of_nil in H.
  - intros (done & _ & ->) H. exfalso.
    apply elem_of_cons in H as [H|H]; [done|].
    apply list_elem_of_fmap in H as (a & H & _). done.
  - by intros -> _.
  - intros -> H. by apply elem_of_nil in H.
Qed.

(** ** C4: the options are read-only *)

(** C4. The options a run was started with are the options every reachable
    state holds, and no step of any thread, main or task, changes a field. *)
Theorem options_unchanged w opts s :
  reachable w opts s ->
  st_opts s = opts /\
  forall t s', step w t s = Some s' -> st_opts s' = opts.
Proof.
  intros Hr. apply invariant_reachable in Hr.
  split; [apply Hr|]. intros t s' Hstep.
  rewrite (step_opts _ _ _ _ Hstep). apply Hr.
Qed.

Lemma options_unchanged_witness :
  st_opts example_state = example_opts /\
  forall t s', step example_world t example_state = Some s' -> st_opts s' = example_opts.
Proof.
  apply (options_unchanged example_world example_opts example_state).
  exists example_schedule. reflexivity.
Defined.

(** ** The command line *)

Lemma stoi_cases v :
  (exists n, stoi v = ([], Ok n)) \/ (exists e, stoi v = ([], Throw e)).
Proof.
  unfold stoi. destruct (read_int v) as [[n rest]|]; [|right; by eexists].
  destruct (_ && _); [left|right]; by eexists.
Qed.

Lemma to_size_cases v :
  (exists sz, to_size v = ([], Ok sz)) \/
  to_size v = ([], Throw (runtime_error ("failed to read cv::Size from " +:+ v))).
Proof.
  unfold to_size. destruct (read_int v) as [[wd [|c rest]]|]; try by right.
  destruct (Ascii.eqb c "x"); [|by right].
  destruct (read_int rest) as [[ht rest']|]; [left; by eexists|by right].
Qed.

Lemma parse_loop_cons o arg rest :
  parse_loop o (arg :: rest) =
  match kind_of arg with
  | KImage => parse_loop (push_image arg o) rest
  | KOutput =>
      match rest with
      | [] => requires_an_argument arg
      | v :: rest' => parse_loop (set_output_directory v o) rest'
      end
  | KVerbose => parse_loop (set_verbose true o) rest
  | KHelp => print_help ;; exit 0
  | KNeighbors =>
      match rest with
      | [] => requires_an_argument arg
      | v :: rest' =>
          n ← try_catch (stoi v) (fun err =>
                 throw (ArgParseError_nested
                          ("invalid value " +:+ v +:+ " for argument") err));
          parse_loop (set_min_neighbors n o) rest'
      end
  | KMinSize =>
      match rest with
      | [] => requires_an_argument arg
      | v :: rest' => sz ← to_size v; parse_loop (set_min_size (Some sz) o) rest'
      end
  | KMaxSize =>
      match rest with
      | [] => requires_an_argument arg
      | v :: rest' => sz ← to_size v; parse_loop (set_max_size (Some sz) o) rest'
      end
  | KSize =>
      match rest with
      | [] => requires_an_argument arg
      | v :: rest' => sz ← to_size v; parse_loop (set_output_size sz o) rest'
      end
  | KOpencv => parse_loop (set_mode OPENCV o) rest
  | KDlib => parse_loop (set_mode DLIB o) rest
  | KUnknown => throw (ArgParseError ("unknown argument " +:+ arg +:+ " given"))
  end.
Proof.
  unfold kind_of. cbn [parse_loop].
  destruct (starts_with_dash arg); [|done].
  unfold option_table. cbn [assoc].
  repeat (destruct (String.eqb arg _); [reflexivity|]; cbn [orb]).
  reflexivity.
Qed.

(** Induction over an argument vector that is consumed one or two
    arguments at a time. *)
Lemma argv_ind (P : list string -> Prop) :
  P [] ->
  (forall arg rest,
     P rest -> (forall v rest', rest = v :: rest' -> P rest') -> P (arg :: rest)) ->
  forall argv, P argv.
Proof.
  intros Hnil Hcons argv.
  assert (P argv /\ forall v rest', argv = v :: rest' -> P rest') as [H _]; [|done].
  induction argv as [|arg rest [IH1 IH2]].
  - split; [done|]. intros; discriminate.
  - split; [by apply Hcons|]. by intros v rest' [= -> ->].
Qed.

Lemma nil_Ok_bind {A B} (a : A) (f : A -> M B) : (([], Ok a) : M A) ≫= f = f a.
Proof. apply (mret_bind a f). Qed.

Lemma try_catch_stoi_Ok v n (h : exn -> M Z) :
  stoi v = ([], Ok n) -> try_catch (stoi v) h = ([], Ok n).
Proof. by intros ->. Qed.

Lemma try_catch_stoi_Throw v e what :
  stoi v = ([], Throw e) ->
  try_catch (stoi v) (fun err => throw (ArgParseError_nested what err))
  = ([], Throw (ArgParseError_nested what e)).
Proof. by intros ->. Qed.

Lemma parse_loop_spec argv : forall o,
  match first_stop (tokens argv) with
  | Some v => verdict_of (outcome (parse_loop o argv)) = v
  | None => parse_loop o argv = ([], Ok (foldl token_effect o (tokens argv)))
  end.
Proof.
  induction argv as [|arg rest IH1 IH2] using argv_ind; intros o; [done|].
  rewrite parse_loop_cons. cbn [tokens].
  destruct (kind_of arg); try (destruct rest as [|v rest']; [done|]);
    cbn [first_stop token_stop foldl token_effect];
    try apply IH1; try (by eapply IH2); try done.
  - (* -n *)
    unfold stoi_fails. destruct (stoi_cases v) as [[n E]|[e E]].
    + rewrite (try_catch_stoi_Ok _ _ _ E), E, nil_Ok_bind. cbn [outcome snd].
      by eapply IH2.
    + by rewrite (try_catch_stoi_Throw _ _ _ E), E.
  - (* --min-size *)
    unfold to_size_fails. destruct (to_size_cases v) as [[sz E]|E]; rewrite E.
    + rewrite nil_Ok_bind. cbn [outcome snd]. by eapply IH2.
    + done.
  - (* --max-size *)
    unfold to_size_fails. destruct (to_size_cases v) as [[sz E]|E]; rewrite E.
    + rewrite nil_Ok_bind. cbn [outcome snd]. by eapply IH2.
    + done.
  - (* --size *)
    unfold to_size_fails. destruct (to_size_cases v) as [[sz E]|E]; rewrite E.
    + rewrite nil_Ok_bind. cbn [outcome snd]. by eapply IH2.
    + done.
Qed.

Lemma first_stop_not_Returns toks : first_stop toks <> Some Returns.
Proof.
  induction toks as [|t toks IH]; [done|]. simpl.
  destruct t as [| | | |[] v| |]; simpl; try done; by destruct (_ : bool).
Qed.

Lemma parse_loop_Ok o argv o' :
  outcome (parse_loop o argv) = Ok o' ->
  first_stop (tokens argv) = None /\
  parse_loop o argv = ([], Ok o') /\
  o' = foldl token_effect o (tokens argv).
Proof.
  intros H. pose proof (parse_loop_spec argv o) as Hspec.
  destruct (first_stop (tokens argv)) as [v|] eqn:Hstop.
  - exfalso. rewrite H in Hspec. simpl in Hspec. subst v.
    by apply first_stop_not_Returns in Hstop.
  - rewrite Hspec in H. simpl in H. injection H as <-. done.
Qed.

Lemma default_last_cons {A} (d x : A) l : default d (last (x :: l)) = default x (last l).
Proof.
  revert d x. induction l as [|y l IH]; intros d x; [done|].
  by rewrite last_cons_cons, (IH d y), (IH x y).
Qed.

Lemma images_foldl toks : forall o,
  images (foldl token_effect o toks) = images o ++ image_paths toks.
Proof.
  unfold image_paths. induction toks as [|t toks IH]; intros o; simpl.
  - by rewrite app_nil_r.
  - rewrite IH. destruct t as [p| | |m|k v|arg|arg]; simpl; try done.
    + by rewrite <- app_assoc.
    + destruct k; simpl; try done; by destruct (outcome _).
Qed.

Lemma output_directory_foldl toks : forall o,
  output_directory (foldl token_effect o toks) =
  default (output_directory o)
    (last (omap (fun t => match t with TValue KOutput v => Some v | _ => None end) toks)).
Proof.
  induction toks as [|t toks IH]; intros o; simpl; [done|].
  rewrite IH. destruct t as [p| | |m|k v|arg|arg]; simpl; try done.
  destruct k; simpl; try done; try by destruct (outcome _).
  by rewrite default_last_cons.
Qed.

Lemma mode_foldl toks : forall o,
  mode (foldl token_effect o toks) =
  default (mode o)
    (last (omap (fun t => match t with TMode m => Some m | _ => None end) toks)).
Proof.
  induction toks as [|t toks IH]; intros o; simpl; [done|].
  rewrite IH. destruct t as [p| | |m|k v|arg|arg]; simpl; try done.
  - by rewrite default_last_cons.
  - destruct k; simpl; try done; by destruct (outcome _).
Qed.

Lemma verdict_bind_stop {A B} (m : M A) (f : A -> M B) :
  verdict_of (outcome m) <> Returns ->
  verdict_of (outcome (m ≫= f)) = verdict_of (outcome m).
Proof. destruct m as [t [a|e|st]]; simpl; done. Qed.

Lemma parse_args_Ok argv opts :
  outcome (parse_args argv) = Ok opts ->
  parse_args argv = ([], Ok opts) /\
  first_stop (tokens argv) = None /\
  opts = foldl token_effect Options_default (tokens argv).
Proof.
  unfold parse_args. intros H.
  destruct (parse_loop Options_default argv) as [t [o| |]] eqn:E; try done.
  destruct (parse_loop_Ok Options_default argv o) as (Hstop & Heq & Ho); [by rewrite E|].
  rewrite E in Heq. injection Heq as ->.
  rewrite nil_Ok_bind in *.
  destruct (bool_decide _); [done|]. destruct (string_empty _); [done|].
  simpl in H. injection H as <-. done.
Qed.

(** ** C10: how [parse_args] ends *)

(** C10, amended. Reading the arguments from left to right, an option that
    takes a value together with the argument after it: [parse_args] prints the
    help and exits at [-h] / [--help]; it throws [std::runtime_error] at a
    [--min-size], [--max-size] or [--size] value that [sscanf] cannot read; it
    throws [ArgParseError] at such an option left without a value, at an
    unrecognised argument starting with a dash, at a [-n] value [std::stoi]
    rejects; the first of these decides. Without any of them it throws
    [ArgParseError] when no image path was given or the output directory is
    empty, and returns the options otherwise. *)
Theorem parse_args_verdict argv :
  verdict_of (outcome (parse_args argv)) = classify argv.
Proof.
  unfold classify, parse_args.
  pose proof (parse_loop_spec argv Options_default) as Hspec.
  destruct (first_stop (tokens argv)) as [v|] eqn:Hstop.
  - rewrite verdict_bind_stop; [done|]. rewrite Hspec. intros ->.
    by apply first_stop_not_Returns in Hstop.
  - rewrite Hspec, nil_Ok_bind, images_foldl, output_directory_foldl. simpl.
    unfold output_directory_given.
    destruct (bool_decide _); [done|]. by destruct (string_empty _).
Qed.

(** Each listed defect, taken alone, does end in an [ArgParseError]. *)
Example parse_args_errors :
  outcome (parse_args []) = Throw (ArgParseError "no input images given") /\
  outcome (parse_args ["a.jpg"]) = Throw (ArgParseError "no output directory given") /\
  outcome (parse_args ["a.jpg"; "-o"]) = Throw (ArgParseError "-o requires an argument") /\
  outcome (parse_args ["a.jpg"; "-o"; "out"; "--bogus"])
  = Throw (ArgParseError "unknown argument --bogus given") /\
  outcome (parse_args ["a.jpg"; "-o"; "out"; "-n"; "many"])
  = Throw (ArgParseError_nested "invalid value many for argument" (invalid_argument "stoi")) /\
  outcome (parse_args ["a.jpg"; "-o"; EmptyString])
  = Throw (ArgParseError "no output directory given").
Proof. repeat split; reflexivity. Qed.

(** On [-h] alone the stated condition holds (there is no image path), yet
    nothing is thrown: the help is printed and the process exits. *)
Lemma parse_args_stated_counterexample :
  ~ (verdict_of (outcome (parse_args ["-h"])) = ThrowsArgParseError <->
     stated_error_condition ["-h"] = true).
Proof. intros [_ H]. specialize (H eq_refl). vm_compute in H. discriminate. Qed.

(** Two more inputs on which the statement fails: a size that does not scan
    raises [std::runtime_error], and a complete command line followed by
    [--help] returns no options. *)
Example parse_args_other_endings :
  stated_error_condition ["a.jpg"; "-o"; "out"; "--size"; "big"] = true /\
  outcome (parse_args ["a.jpg"; "-o"; "out"; "--size"; "big"])
  = Throw (runtime_error "failed to read cv::Size from big") /\
  stated_error_condition ["a.jpg"; "-o"; "out"; "--help"] = false /\
  outcome (parse_args ["a.jpg"; "-o"; "out"; "--help"]) = Exit 0.
Proof. repeat split; reflexivity. Qed.

(** ** C8: the spellings of the output option *)

Lemma kind_of_KOutput arg :
  kind_of arg = KOutput <-> arg = "-o" \/ arg = "--option".
Proof.
  split; [|by intros [-> | ->]].
  unfold kind_of. destruct (starts_with_dash arg); [|done].
  unfold option_table. cbn [assoc].
  destruct (String.eqb_spec arg "-o"); [by left|].
  destruct (String.eqb_spec arg "--option"); [by right|].
  repeat (destruct (String.eqb arg _); [done|]). done.
Qed.

Lemma parse_loop_output o arg v rest :
  arg = "-o" \/ arg = "--option" ->
  parse_loop o (arg :: v :: rest) = parse_loop (set_output_directory v o) rest.
Proof. intros H. rewrite parse_loop_cons. by apply kind_of_KOutput in H as ->. Qed.

Lemma no_output_tokens argv :
  "-o" ∉ argv -> "--option" ∉ argv ->
  omap (fun t => match t with TValue KOutput v => Some v | _ => None end) (tokens argv) = [].
Proof.
  induction argv as [|arg rest IH1 IH2] using argv_ind; [done|].
  intros H1 H2. apply not_elem_of_cons in H1 as [Ha1 H1], H2 as [Ha2 H2].
  cbn [tokens].
  destruct (kind_of arg) eqn:Hk; try (by simpl; apply IH1).
  { apply kind_of_KOutput in Hk as [-> | ->]; done. }
  all: destruct rest as [|v rest']; [done|]; simpl.
  all: apply not_elem_of_cons in H1 as [_ H1], H2 as [_ H2]; by eapply IH2.
Qed.

Lemma parse_loop_app pre : forall o o' rest,
  outcome (parse_loop o pre) = Ok o' ->
  parse_loop o (pre ++ rest) = parse_loop o' rest.
Proof.
  induction pre as [|arg pre IH1 IH2] using argv_ind; intros o o' rest H.
  - simpl in H. by injection H as ->.
  - rewrite <- app_comm_cons, parse_loop_cons. rewrite parse_loop_cons in H.
    destruct (kind_of arg); try (destruct pre as [|v pre']; [done|]);
      try (by apply IH1); try (by eapply IH2); try done.
    + destruct (stoi_cases v) as [[n E]|[e E]].
      * rewrite <- app_comm_cons.
        rewrite (try_catch_stoi_Ok _ _ _ E), nil_Ok_bind in *. by eapply IH2.
      * by rewrite (try_catch_stoi_Throw _ _ _ E) in H.
    + rewrite <- app_comm_cons.
      destruct (to_size_cases v) as [[sz E]|E]; rewrite E in *; [|done].
      rewrite nil_Ok_bind in *. by eapply IH2.
    + rewrite <- app_comm_cons.
      destruct (to_size_cases v) as [[sz E]|E]; rewrite E in *; [|done].
      rewrite nil_Ok_bind in *. by eapply IH2.
    + rewrite <- app_comm_cons.
      destruct (to_size_cases v) as [[sz E]|E]; rewrite E in *; [|done].
      rewrite nil_Ok_bind in *. by eapply IH2.
Qed.

(** Not every argument vector with [--output] in it is refused: where a
    value is expected, [--output] becomes the output directory and the
    options are returned. *)
Lemma output_token_counterexample :
  ~ (forall argv, "--output" ∈ argv ->
       verdict_of (outcome (parse_args argv)) = ThrowsArgParseError).
Proof.
  intros H. specialize (H ["-o"; "--output"; "a.jpg"]).
  assert ("--output" ∈ ["-o"; "--output"; "a.jpg"]) as Hin by (by repeat constructor).
  specialize (H Hin). vm_compute in H. discriminate.
Qed.

(** C8, amended. The output directory is set by [-o] and by [--option], and
    by no other argument: without these two the directory is what it was.
    Whenever [parse_args] comes to [--output] as an option, that is after a
    prefix of arguments that parses to the end, it throws [ArgParseError]
    with the message for an unknown argument, although the help text
    documents [-o, --output DIR]. *)
Theorem output_spellings :
  (forall o arg v rest, arg = "-o" \/ arg = "--option" ->
     parse_loop o (arg :: v :: rest) = parse_loop (set_output_directory v o) rest) /\
  (forall o argv o', outcome (parse_loop o argv) = Ok o' ->
     "-o" ∉ argv -> "--option" ∉ argv -> output_directory o' = output_directory o) /\
  (forall pre rest o', outcome (parse_loop Options_default pre) = Ok o' ->
     parse_args (pre ++ "--output" :: rest)
     = ([], Throw (ArgParseError "unknown argument --output given"))) /\
  (exists n, String.index 0 "-o, --output DIR" help_text = Some n).
Proof.
  split; [|split; [|split]].
  - intros. by apply parse_loop_output.
  - intros o argv o' H H1 H2.
    apply parse_loop_Ok in H as (_ & _ & ->).
    by rewrite output_directory_foldl, no_output_tokens.
  - intros pre rest o' H. unfold parse_args.
    by rewrite (parse_loop_app _ _ _ _ H), parse_loop_cons.
  - by eexists.
Qed.

Lemma output_spellings_witness :
  parse_loop Options_default ["--option"; "out"; "a.jpg"]
  = parse_loop (set_output_directory "out" Options_default) ["a.jpg"] /\
  output_directory (set_verbose true (push_image "a.jpg" Options_default))
  = output_directory Options_default /\
  parse_args (["a.jpg"; "-v"] ++ ["--output"; "out"])
  = ([], Throw (ArgParseError "unknown argument --output given")).
Proof.
  destruct output_spellings as (H1 & H2 & H3 & _). split; [|split].
  - apply H1. by right.
  - apply (H2 Options_default ["a.jpg"; "-v"]);
      [reflexivity|by apply (bool_decide_unpack _)..].
  - apply (H3 ["a.jpg"; "-v"] ["out"] (set_verbose true (push_image "a.jpg" Options_default))).
    reflexivity.
Defined.

(** ** Every task body, whatever the world answers *)

Lemma enlarged_face_total image face :
  exists t r, enlarged_face image face = (t, Ok r) /\
              (t = [] \/ t = [Print "  enlargement rejected\n" []]).
Proof.
  unfold enlarged_face. cbv zeta. destruct (rejected _ _).
  - do 2 eexists. split; [reflexivity|by right].
  - do 2 eexists. split; [reflexivity|by left].
Qed.

Lemma extract_faces_from_outputs faces : forall k image i dir sz,
  (outcome (extract_faces_from k image faces i dir sz) = Ok tt \/
   exists func, outcome (extract_faces_from k image faces i dir sz)
                = Throw (cv_Exception func)) /\
  Forall (fun a => is_output a = true) (trace (extract_faces_from k image faces i dir sz)).
Proof.
  induction faces as [|face faces IH]; intros k image i dir sz; [split; [by left|done]|].
  cbn [extract_faces_from].
  destruct (enlarged_face_total image face) as (t & r & -> & Ht).
  rewrite pair_bind_Ok, !emit_bind. cbn [trace outcome fst snd].
  rewrite <- bind_assoc, Mat_roi_resize.
  assert (Forall (fun a => is_output a = true) t) as Hpre.
  { by destruct Ht as [-> | ->]; repeat constructor. }
  destruct (extractable image sz r).
  - rewrite pair_bind_Ok, emit_bind. cbn [trace outcome fst snd app].
    destruct (IH (int_add k 1) image i dir sz) as [Ho Hall].
    split; [done|]. apply Forall_app. split; [done|]. by repeat constructor.
  - cbn [trace outcome fst snd]. split; [right; by eexists|].
    apply Forall_app. split; [done|]. by repeat constructor.
Qed.

Lemma opencv_task_cases w opts cascade_file i :
  let p := images_at opts i in
  let image := imread w p in
  let mn := default (cv.Size.mk 0 0) (min_size opts) in
  let mx := default (cv.Size.mk 0 0) (max_size opts) in
  let faces := detectMultiScale w image (min_neighbors opts) mn mx in
  let m := extract_faces image faces
             (wrap32 (Z.of_nat i)) (output_directory opts) (output_size opts) in
  opencv_task w opts cascade_file i =
  if negb (cascade_load w cascade_file) then
    ([CascadeLoad cascade_file],
     Throw (runtime_error ("failed to load " +:+ cascade_file)))
  else if cv.empty image then
    ([CascadeLoad cascade_file; Imread p;
      PrintErr "error: failed to read image: {}\n" [FPath p]], Ok tt)
  else
    (CascadeLoad cascade_file :: Imread p
     :: DetectMultiScale image (min_neighbors opts) mn mx
     :: trace m ++ match outcome m with
                   | Ok _ => [Print "  detected {}\n" [FSize (length faces)]]
                   | _ => []
                   end,
     outcome m).
Proof.
  cbv zeta.
  destruct (cascade_load w cascade_file) eqn:Hload; cbn [negb].
  - destruct (cv.empty (imread w (images_at opts i))) eqn:Hempty.
    + unfold opencv_task. cbv zeta. rewrite Hload, Hempty. reflexivity.
    + rewrite opencv_task_eq by done. cbv zeta.
      destruct (outcome (extract_faces _ _ _ _ _)) as [[]|e|st];
        by rewrite ?app_nil_r.
  - unfold opencv_task. cbv zeta. rewrite Hload. reflexivity.
Qed.

Lemma is_output_no_detector a : is_output a = true -> detector_used a = None.
Proof. by destruct a. Qed.

Lemma extract_faces_outputs image faces i dir sz :
  Forall (fun a => is_output a = true) (trace (extract_faces image faces i dir sz)).
Proof. apply extract_faces_from_outputs. Qed.

Ltac by_detector :=
  repeat (apply Forall_cons; split; [(by right) || (by left)|]);
  try (by apply Forall_nil).

Lemma task_detector w opts i :
  Forall (fun a => detector_used a = None \/ detector_used a = Some (mode opts))
         (trace (task (run w opts) i)).
Proof.
  assert (Hout : forall l, Forall (fun a => is_output a = true) l ->
            Forall (fun a => detector_used a = None \/
                             detector_used a = Some (mode opts)) l).
  { intros l Hl. eapply Forall_impl; [exact Hl|].
    intros a Ha. left. by apply is_output_no_detector. }
  unfold run. destruct (mode opts) eqn:Hmode.
  - cbn [task run_dlib]. rewrite dlib_task_eq. cbv zeta.
    destruct (cv.empty _); cbn [trace fst];
      (apply Forall_app; split; [destruct (verbose opts); by_detector|]);
      by_detector.
    apply Hout, extract_faces_outputs.
  - cbn [task run_opencv]. rewrite opencv_task_cases. cbv zeta.
    destruct (negb _); [|destruct (cv.empty _)]; cbn [trace fst]; by_detector.
    apply Forall_app. split; [apply Hout, extract_faces_outputs|].
    destruct (outcome _); by_detector.
Qed.

(** ** C5: which detector runs *)

(** C5. [run] hands the batch to [run_dlib] when the mode is DLIB and to
    [run_opencv] when it is OPENCV; the actions of every task that belong to
    a detector belong to the detector of that mode; on every image that
    loaded the dlib task calls the dlib detector on the grey image, and the
    OpenCV task, with the cascade file loaded, calls the cascade classifier;
    and the mode that
    [parse_args] returns is the last of [--dlib] / [--opencv] on the command
    line, DLIB when neither occurs. *)
Theorem detector_dispatch w opts :
  run w opts = match mode opts with
               | DLIB => run_dlib w opts
               | OPENCV => run_opencv w opts
               end /\
  (forall i a m, a ∈ trace (task (run w opts) i) ->
     detector_used a = Some m -> m = mode opts) /\
  (forall i, mode opts = DLIB ->
     cv.empty (imread w (images_at opts i)) = false ->
     DlibDetect (cv.MatGray (imread w (images_at opts i)))
     ∈ trace (task (run w opts) i)) /\
  (forall i, mode opts = OPENCV ->
     cascade_load w (findFile w cascade_name) = true ->
     cv.empty (imread w (images_at opts i)) = false ->
     DetectMultiScale (imread w (images_at opts i)) (min_neighbors opts)
       (default (cv.Size.mk 0 0) (min_size opts))
       (default (cv.Size.mk 0 0) (max_size opts))
     ∈ trace (task (run w opts) i)) /\
  (forall argv, outcome (parse_args argv) = Ok opts ->
     mode opts = mode_given (tokens argv)).
Proof.
  split; [by unfold run; destruct (mode opts)|]. split; [|split; [|split]].
  - intros i a m Hin Hm.
    pose proof (task_detector w opts i) as Hall.
    rewrite Forall_forall in Hall. destruct (Hall a Hin) as [H|H]; congruence.
  - intros i Hmode Hne. unfold run. rewrite Hmode. cbn [task run_dlib].
    rewrite dlib_task_eq. cbv zeta. rewrite Hne. cbn [trace fst].
    apply elem_of_app. right. by repeat constructor.
  - intros i Hmode Hload Hne. unfold run. rewrite Hmode. cbn [task run_opencv].
    rewrite opencv_task_cases. cbv zeta. rewrite Hload, Hne. cbn [negb trace fst].
    by repeat constructor.
  - intros argv H. apply parse_args_Ok in H as (_ & _ & ->).
    by rewrite mode_foldl.
Qed.

Lemma detector_dispatch_witness :
  run example_world example_opts = run_opencv example_world example_opts /\
  OPENCV = mode example_opts /\
  DetectMultiScale (cv.MatFile "a.jpg" 100 100) 3 (cv.Size.mk 512 512) (cv.Size.mk 0 0)
  ∈ trace (task (run example_world example_opts) 0) /\
  mode example_opts = mode_given (tokens example_argv).
Proof.
  destruct (detector_dispatch example_world example_opts) as (H1 & H2 & _ & H4 & H5).
  split; [exact H1|]. split; [|split].
  - apply (H2 0%nat (CascadeLoad (findFile example_world cascade_name))).
    + by repeat constructor.
    + reflexivity.
  - apply (H4 0%nat); reflexivity.
  - apply H5. reflexivity.
Defined.

(** Without a mode option the dlib detector is used; the later of two mode
    options wins. *)
Example mode_examples :
  mode <$> [Options_default] = [DLIB] /\
  verdict_of (outcome (parse_args ["a.jpg"; "-o"; "out"])) = Returns /\
  mode_given (tokens ["a.jpg"; "-o"; "out"]) = DLIB /\
  mode_given (tokens ["--opencv"; "a.jpg"; "-o"; "out"]) = OPENCV /\
  mode_given (tokens ["--opencv"; "a.jpg"; "--dlib"; "-o"; "out"]) = DLIB.
Proof. repeat split; reflexivity. Qed.

(** ** C7: the fields of the options *)

(** C7. An [Options] value is its eight fields: mode, image paths, output
    directory, output size, optional minimum and maximum face size,
    verbosity, minimum neighbours. What [parse_args] returns is the default
    record with the tokens of the command line applied in order, and one
    command line can move every field away from its default. *)
Theorem options_fields :
  (forall o : Options,
     o = {| mode := mode o; images := images o;
            output_directory := output_directory o; output_size := output_size o;
            min_size := min_size o; max_size := max_size o;
            verbose := verbose o; min_neighbors := min_neighbors o |}) /\
  (forall argv o, outcome (parse_args argv) = Ok o ->
     o = foldl token_effect Options_default (tokens argv)) /\
  parse_args example_argv_all
  = ([], Ok {| mode := OPENCV; images := ["a.jpg"];
               output_directory := "out"; output_size := cv.Size.mk 64 48;
               min_size := Some (cv.Size.mk 20 20);
               max_size := Some (cv.Size.mk 300 300);
               verbose := true; min_neighbors := 5 |}).
Proof.
  split; [by intros []|]. split; [|reflexivity].
  intros argv o H. by apply parse_args_Ok in H as (_ & _ & ->).
Qed.

Lemma options_fields_witness :
  example_opts = foldl token_effect Options_default (tokens example_argv).
Proof.
  destruct options_fields as (_ & H & _). apply H. reflexivity.
Defined.

(** ** C9: an image that does not load *)

Lemma stderr_lines_outputs l :
  Forall (fun a => is_output a = true) l -> stderr_lines l = [].
Proof.
  induction 1 as [|a l Ha _ IH]; [done|].
  destruct a; try done; apply IH.
Qed.

Lemma stderr_lines_app t1 t2 :
  stderr_lines (t1 ++ t2) = stderr_lines t1 ++ stderr_lines t2.
Proof. apply omap_app. Qed.

Lemma stderr_lines_cons_other a l :
  (forall f args, a <> PrintErr f args) -> stderr_lines (a :: l) = stderr_lines l.
Proof. intros H. destruct a; try done. by destruct (H format args). Qed.

(** The OpenCV task reports the image on [stderr], writes nothing and ends
    normally, so the collecting loop of [run_opencv] goes on. *)
Lemma opencv_task_failed_imread w opts cascade_file i :
  cascade_load w cascade_file = true ->
  cv.empty (imread w (images_at opts i)) = true ->
  opencv_task w opts cascade_file i =
  ([CascadeLoad cascade_file; Imread (images_at opts i);
    PrintErr "error: failed to read image: {}\n" [FPath (images_at opts i)]], Ok tt).
Proof.
  intros Hload Hempty. rewrite opencv_task_cases. cbv zeta.
  by rewrite Hload, Hempty.
Qed.

(** The dlib task never writes to [stderr], whatever [imread] returned. *)
Lemma dlib_task_silent w opts i : stderr_lines (trace (dlib_task w opts i)) = [].
Proof.
  rewrite dlib_task_eq. cbv zeta.
  destruct (cv.empty _); cbn [trace fst];
    rewrite stderr_lines_app, !stderr_lines_cons_other by done.
  - by destruct (verbose opts).
  - rewrite (stderr_lines_outputs _ (extract_faces_outputs _ _ _ _ _)).
    by destruct (verbose opts).
Qed.

(** C9, at the failing input: [missing.jpg] does not decode. With
    [--opencv] its task reports it on [stderr], writes nothing and ends
    normally; in the default dlib mode its task has no such check and reports
    nothing. *)
Theorem failed_imread_by_mode :
  let dlib_opts := set_mode DLIB example_opts in
  imread example_world (images_at example_opts 1) = cv.MatEmpty /\
  task (run example_world example_opts) 1
  = ([CascadeLoad (findFile example_world cascade_name); Imread "missing.jpg";
      PrintErr "error: failed to read image: {}\n" [FPath "missing.jpg"]], Ok tt) /\
  imread example_world (images_at dlib_opts 1) = cv.MatEmpty /\
  stderr_lines (trace (task (run example_world dlib_opts) 1)) = [].
Proof. repeat split; reflexivity. Qed.

(** ** A run can come to its end *)

Lemma exec_app w l1 l2 s :
  exec w (l1 ++ l2) s = exec w l1 s ≫= exec w l2.
Proof.
  revert s. induction l1 as [|t l1 IH]; intros s; simpl; [done|].
  destruct (step w t s); [apply IH|done].
Qed.

Lemma steps_refl w s : steps w s s.
Proof. by exists []. Qed.

Lemma steps_trans w s1 s2 s3 : steps w s1 s2 -> steps w s2 s3 -> steps w s1 s3.
Proof.
  intros [l1 H1] [l2 H2]. exists (l1 ++ l2). by rewrite exec_app, H1.
Qed.

Lemma steps_one w t s s' : step w t s = Some s' -> steps w s s'.
Proof. intros H. exists [t]. simpl. by rewrite H. Qed.

(** The launching loop runs to its end, whatever the tasks do meanwhile. *)
Lemma launching_ends w d : forall s k,
  st_main s = Launching k ->
  (length (images (st_opts s)) - k)%nat = d ->
  Forall idle (st_futures s) ->
  exists s', steps w s s' /\ st_opts s' = st_opts s /\ st_sem s' = st_sem s /\
             st_main s' = Getting 0 /\ Forall idle (st_futures s').
Proof.
  induction d as [|d IH]; intros s k Hm Hd Hidle.
  - eexists. split; [eapply (steps_one w MainThread)|].
    + simpl. unfold step_main. rewrite Hm.
      destruct (Nat.ltb_spec k (length (images (st_opts s)))); [lia|reflexivity].
    + done.
  - destruct (IH {| st_opts := st_opts s; st_sem := st_sem s;
                    st_futures := st_futures s ++ [Created];
                    st_main := Launching (S k);
                    st_log := (MainThread, Launch k)
                              :: log_main (before_launch (run w (st_opts s)) k) ++ st_log s |}
                 (S k)) as (s' & Hsteps & ? & ? & ? & ?); simpl; [done|lia| |].
    + apply Forall_app. split; [done|]. repeat constructor.
    + exists s'. split; [|done]. eapply steps_trans; [|exact Hsteps].
      eapply (steps_one w MainThread). simpl. unfold step_main. rewrite Hm.
      destruct (Nat.ltb_spec k (length (images (st_opts s)))); [reflexivity|lia].
Qed.

(** A task inside the guard's scope runs to its end and gives the slot back. *)
Lemma running_ends w i todo : forall s,
  st_futures s !! i = Some (Running todo) ->
  exists s', steps w s s' /\ st_opts s' = st_opts s /\ st_sem s' = S (st_sem s) /\
             st_main s' = st_main s /\
             st_futures s' = <[i := Finished]> (st_futures s).
Proof.
  induction todo as [|a todo IH]; intros s Hi.
  - eexists. split; [eapply (steps_one w (TaskThread i))|].
    + simpl. unfold step_task. rewrite Hi. reflexivity.
    + done.
  - assert (Hlt : (i < length (st_futures s))%nat) by (by eapply lookup_lt_Some).
    destruct (IH {| st_opts := st_opts s; st_sem := st_sem s;
                    st_futures := <[i := Running todo]> (st_futures s);
                    st_main := st_main s;
                    st_log := (TaskThread i, Act a) :: st_log s |})
      as (s' & Hsteps & ? & ? & ? & Hf); simpl.
    + by apply list_lookup_insert_eq.
    + simpl in *. exists s'. split; [|by rewrite Hf, list_insert_insert_eq].
      eapply steps_trans; [|exact Hsteps].
      eapply (steps_one w (TaskThread i)). simpl. unfold step_task. by rewrite Hi.
Qed.

(** With a free slot, a waiting task acquires, runs and releases. *)
Lemma created_ends w i s c :
  st_futures s !! i = Some Created -> st_sem s = S c ->
  exists s', steps w s s' /\ st_opts s' = st_opts s /\ st_sem s' = S c /\
             st_main s' = st_main s /\
             st_futures s' = <[i := Finished]> (st_futures s).
Proof.
  intros Hi Hc.
  assert (Hlt : (i < length (st_futures s))%nat) by (by eapply lookup_lt_Some).
  destruct (running_ends w i (trace (task (run w (st_opts s)) i))
              {| st_opts := st_opts s; st_sem := c;
                 st_futures := <[i := Running (trace (task (run w (st_opts s)) i))]>
                                 (st_futures s);
                 st_main := st_main s;
                 st_log := (TaskThread i, Acquire) :: st_log s |})
    as (s' & Hsteps & ? & ? & ? & Hf); simpl.
  - by apply list_lookup_insert_eq.
  - simpl in *. exists s'. split; [|by rewrite Hf, list_insert_insert_eq].
    eapply steps_trans; [|exact Hsteps].
    eapply (steps_one w (TaskThread i)). simpl. unfold step_task. by rewrite Hi, Hc.
Qed.

Lemma waiting_insert futures : forall i,
  futures !! i = Some Created ->
  waiting futures = S (waiting (<[i := Finished]> futures)).
Proof.
  induction futures as [|t l IH]; intros [|i] H; simplify_eq/=; [done|].
  rewrite (IH i H). by destruct t.
Qed.

Lemma waiting_none futures :
  Forall idle futures -> waiting futures = 0%nat -> all_finished futures = true.
Proof.
  induction 1 as [|t l [-> | ->] _ IH]; simpl; [done|done|]. apply IH.
Qed.

Lemma waiting_some futures :
  waiting futures <> 0%nat -> exists i, futures !! i = Some Created.
Proof.
  induction futures as [|t l IH]; simpl; [done|]. intros H.
  destruct t; [by exists 0%nat|..]; destruct (IH H) as [i Hi]; by exists (S i).
Qed.

(** With a free slot, all waiting tasks can be run to their ends. *)
Lemma tasks_end w n : forall s c,
  waiting (st_futures s) = n -> Forall idle (st_futures s) -> st_sem s = S c ->
  exists s', steps w s s' /\ st_opts s' = st_opts s /\ st_main s' = st_main s /\
             all_finished (st_futures s') = true.
Proof.
  induction n as [|n IH]; intros s c Hn Hidle Hc.
  - exists s. split; [apply steps_refl|]. by rewrite waiting_none.
  - destruct (waiting_some (st_futures s)) as [i Hi]; [lia|].
    destruct (created_ends w i s c Hi Hc) as (s1 & Hsteps1 & Ho1 & Hc1 & Hm1 & Hf1).
    destruct (IH s1 c) as (s' & Hsteps & Ho & Hm & Hall); [| |done|].
    + rewrite Hf1. rewrite (waiting_insert _ i Hi) in Hn. lia.
    + rewrite Hf1. apply Forall_insert; [done|by right].
    + exists s'. split; [by eapply steps_trans|]. by rewrite Ho, Hm, Ho1, Hm1.
Qed.

(** With all tasks through, the collecting loop and the destructors end. *)
Lemma getting_ends w d : forall s k,
  st_main s = Getting k -> (length (st_futures s) - k)%nat = d ->
  all_finished (st_futures s) = true ->
  exists s' r, steps w s s' /\ st_main s' = Left r.
Proof.
  assert (Hunwind : forall s r, st_main s = Unwinding r ->
            all_finished (st_futures s) = true ->
            exists s' r', steps w s s' /\ st_main s' = Left r').
  { intros s r Hm Hall. do 2 eexists. split; [eapply (steps_one w MainThread)|].
    - simpl. unfold step_main. rewrite Hm, Hall. reflexivity.
    - reflexivity. }
  induction d as [|d IH]; intros s k Hm Hd Hall.
  - destruct (st_futures s !! k) as [ts|] eqn:Hk.
    { apply lookup_lt_Some in Hk. lia. }
    destruct (Hunwind {| st_opts := st_opts s; st_sem := st_sem s;
                         st_futures := st_futures s;
                         st_main := Unwinding (Ok tt); st_log := st_log s |} (Ok tt))
      as (s' & r & Hsteps & Hleft); [done..|].
    exists s', r. split; [|done]. eapply steps_trans; [|exact Hsteps].
    eapply (steps_one w MainThread). simpl. unfold step_main. by rewrite Hm, Hk.
  - destruct (st_futures s !! k) as [ts|] eqn:Hk.
    2: { apply lookup_ge_None in Hk. lia. }
    pose proof (all_finished_lookup _ _ _ Hall Hk) as ->.
    set (s1 := {| st_opts := st_opts s; st_sem := st_sem s;
                  st_futures := st_futures s;
                  st_main := match outcome (task (run w (st_opts s)) k) with
                             | Ok _ => Getting (S k)
                             | r => Unwinding r
                             end;
                  st_log := (MainThread, Got k) :: st_log s |}).
    assert (Hstep : steps w s s1).
    { eapply (steps_one w MainThread). simpl. unfold step_main. by rewrite Hm, Hk. }
    assert (exists s' r, steps w s1 s' /\ st_main s' = Left r) as (s' & r & Hsteps & Hleft).
    { destruct (outcome (task (run w (st_opts s)) k)) eqn:Ho.
      - apply (IH s1 (S k)); subst s1; simpl; [done|lia|done].
      - eapply (Hunwind s1); subst s1; simpl; done.
      - eapply (Hunwind s1); subst s1; simpl; done. }
    exists s', r. split; [by eapply steps_trans|done].
Qed.

Lemma holders_zero_idle futures : holders futures = 0%nat -> Forall idle futures.
Proof.
  induction futures as [|t l IH]; simpl; [done|]. intros H.
  destruct t; simpl in H; try lia; constructor; auto; by (left + right).
Qed.

Lemma all_finished_holders futures :
  all_finished futures = true -> holders futures = 0%nat.
Proof.
  induction futures as [|t l IH]; simpl; [done|].
  destruct t; simpl; first [done | apply IH].
Qed.

Lemma running_some futures :
  holders futures <> 0%nat -> exists i todo, futures !! i = Some (Running todo).
Proof.
  induction futures as [|t l IH]; simpl; [done|]. intros H.
  destruct t as [|todo|]; simpl in H.
  - destruct (IH H) as (i & todo & Hi). by exists (S i), todo.
  - by exists 0%nat, todo.
  - destruct (IH H) as (i & todo & Hi). by exists (S i), todo.
Qed.

(** The tasks inside the guard's scope can all run to their ends. *)
Lemma holders_end w n : forall s,
  holders (st_futures s) = n ->
  exists s', steps w s s' /\ st_opts s' = st_opts s /\ st_main s' = st_main s /\
             holders (st_futures s') = 0%nat.
Proof.
  induction n as [|n IH]; intros s Hn.
  - exists s. split; [apply steps_refl|done].
  - destruct (running_some (st_futures s)) as (i & todo & Hi); [lia|].
    destruct (running_ends w i todo s Hi) as (s1 & Hsteps1 & Ho1 & _ & Hm1 & Hf1).
    destruct (IH s1) as (s' & Hsteps & Ho & Hm & Hz).
    + pose proof (holders_insert (st_futures s) i (Running todo) Finished Hi) as H.
      rewrite Hf1. simpl in H. lia.
    + exists s'. split; [by eapply steps_trans|]. by rewrite Ho, Hm, Ho1, Hm1.
Qed.

Lemma unwinding_ends w s r :
  st_main s = Unwinding r -> all_finished (st_futures s) = true ->
  exists s', steps w s s' /\ st_main s' = Left r.
Proof.
  intros Hm Hall. eexists. split; [eapply (steps_one w MainThread)|].
  - simpl. unfold step_main. rewrite Hm, Hall. reflexivity.
  - reflexivity.
Qed.

(** When the machine reports at least one hardware thread, every state a
    run can reach has a continuation in which [run] leaves. *)
Lemma reachable_can_leave w opts s :
  (0 < hardware_concurrency w)%nat -> reachable w opts s ->
  exists s' r, steps w s s' /\ st_main s' = Left r.
Proof.
  intros Hhc Hs.
  destruct (holders_end w (holders (st_futures s)) s eq_refl)
    as (s1 & Hsteps1 & Ho1 & Hm1 & Hz1).
  assert (Hs1 : reachable w opts s1) by (by eapply steps_trans).
  pose proof (invariant_reachable _ _ _ Hs1) as Hinv1.
  pose proof (inv_sem _ _ _ Hinv1) as Hsem1. rewrite Hz1, Nat.add_0_r in Hsem1.
  destruct (hardware_concurrency w) as [|c] eqn:Hc; [lia|].
  pose proof (holders_zero_idle _ Hz1) as Hidle1.
  destruct (st_main s1) as [k|k|r|r] eqn:Hmain1.
  - destruct (launching_ends w _ s1 k Hmain1 eq_refl Hidle1)
      as (s2 & Hsteps2 & Ho2 & Hc2 & Hm2 & Hidle2).
    destruct (tasks_end w _ s2 c eq_refl Hidle2) as (s3 & Hsteps3 & Ho3 & Hm3 & Hall3);
      [congruence|].
    destruct (getting_ends w (length (st_futures s3) - 0) s3 0%nat)
      as (s4 & r & Hsteps4 & Hleft);
      [congruence|reflexivity|done|].
    exists s4, r. split; [|done]. repeat (eapply steps_trans; [eassumption|]).
    apply steps_refl.
  - destruct (tasks_end w _ s1 c eq_refl Hidle1) as (s3 & Hsteps3 & Ho3 & Hm3 & Hall3);
      [done|].
    destruct (getting_ends w (length (st_futures s3) - k) s3 k)
      as (s4 & r & Hsteps4 & Hleft);
      [congruence|reflexivity|done|].
    exists s4, r. split; [|done]. repeat (eapply steps_trans; [eassumption|]).
    apply steps_refl.
  - destruct (tasks_end w _ s1 c eq_refl Hidle1) as (s3 & Hsteps3 & Ho3 & Hm3 & Hall3);
      [done|].
    destruct (unwinding_ends w s3 r) as (s4 & Hsteps4 & Hleft); [congruence|done|].
    exists s4, r. split; [|done]. repeat (eapply steps_trans; [eassumption|]).
    apply steps_refl.
  - exists s1, r. by split.
Qed.

Lemma reachable_init w opts : reachable w opts (init w opts).
Proof. by exists []. Qed.

(** When the machine reports at least one hardware thread, some schedule
    takes [run] from its start to its end. *)
Lemma run_can_complete w opts :
  (0 < hardware_concurrency w)%nat ->
  exists s r, reachable w opts s /\ st_main s = Left r.
Proof.
  intros Hhc.
  destruct (reachable_can_leave w opts (init w opts) Hhc (reachable_init w opts))
    as (s & r & Hsteps & Hleft).
  by exists s, r.
Qed.

(** Without a free slot and with nobody holding one, the launched tasks all
    stay where they are: in [acquire]. *)
Lemma no_slot_all_created w schedule : forall s s',
  Forall (fun t => t = Created) (st_futures s) -> st_sem s = 0%nat ->
  exec w schedule s = Some s' ->
  Forall (fun t => t = Created) (st_futures s') /\ st_sem s' = 0%nat.
Proof.
  induction schedule as [|t schedule IH]; intros s0 s1 Hall Hsem H; simpl in H.
  - by simplify_eq.
  - destruct (step w t s0) as [s0'|] eqn:Hstep; [|done].
    eapply (IH s0' s1); [| |done].
    + destruct t as [|i]; simpl in Hstep.
      * unfold step_main in Hstep.
        repeat (case_match; simplify_eq/=); try done.
        apply Forall_app. split; [done|]. by repeat constructor.
      * unfold step_task in Hstep.
        destruct (st_futures s0 !! i) as [ts|] eqn:Hi; [|done].
        rewrite Forall_lookup in Hall. rewrite (Hall i ts Hi), Hsem in Hstep. done.
    + destruct t as [|i]; simpl in Hstep.
      * unfold step_main in Hstep. repeat (case_match; simplify_eq/=); done.
      * unfold step_task in Hstep.
        destruct (st_futures s0 !! i) as [ts|] eqn:Hi; [|done].
        rewrite Forall_lookup in Hall. rewrite (Hall i ts Hi), Hsem in Hstep. done.
Qed.

(** Without a hardware thread count ([hardware_concurrency] may report 0) no
    task ever gets a slot, and a run that has launched a task never comes to
    its end. *)
Lemma no_slot_no_end w opts s :
  hardware_concurrency w = 0%nat -> images opts <> [] ->
  outcome (run_prologue w opts) = Ok tt ->
  reachable w opts s -> forall r, st_main s <> Left r.
Proof.
  intros Hhc Himg Hpro [schedule Hexec] r Hleft.
  destruct (no_slot_all_created w schedule (init w opts) s (Forall_nil_2 _) Hhc Hexec)
    as [Hall _].
  pose proof (invariant_reachable w opts s (ex_intro _ schedule Hexec)) as Hinv.
  pose proof (inv_main _ _ _ Hinv) as Hmain. unfold main_consistent, started in Hmain.
  rewrite Hleft, Hpro in Hmain. destruct Hmain as [Hfin Hlen].
  destruct (st_futures s) as [|t l]; simpl in *.
  - by destruct (images opts).
  - apply Forall_cons in Hall as [-> _]. done.
Qed.

(** ** The revision before the dlib detector *)

Lemma extract_loop_imwrites faces : forall k image i dir,
  imwrites (trace (CascadeOnly.extract_loop k image faces i dir)) =
  imwrites (trace (extract_faces_from k image faces i dir (cv.Size.mk 512 512))) /\
  outcome (CascadeOnly.extract_loop k image faces i dir) =
  outcome (extract_faces_from k image faces i dir (cv.Size.mk 512 512)).
Proof.
  induction faces as [|face faces IH]; intros k image i dir; [done|].
  cbn [CascadeOnly.extract_loop extract_faces_from].
  destruct (enlarged_face_total image face) as (t & r & -> & Ht).
  rewrite !pair_bind_Ok, !emit_bind. cbn [trace outcome fst snd].
  rewrite <- !(bind_assoc (Mat_roi image r) (fun m => resize m _)), !Mat_roi_resize.
  destruct (extractable image (cv.Size.mk 512 512) r).
  - rewrite !pair_bind_Ok, !emit_bind. cbn [trace outcome fst snd app].
    destruct (IH (int_add k 1) image i dir) as [IHw IHo].
    split; [|done].
    rewrite !imwrites_app, !imwrites_Print, !imwrites_Imwrite. by rewrite IHw.
  - cbn [mbind M_bind bind trace outcome fst snd].
    split; [|done]. by rewrite !imwrites_app, !imwrites_Print.
Qed.

(** The earlier [detect_and_extract_faces] writes the same files as
    [extract_faces] does with an output size of 512x512, and ends the same
    way. *)
Lemma detect_and_extract_faces_writes w opts i image faces :
  detectMultiScale w image (min_neighbors opts)
    (default (cv.Size.mk 0 0) (min_size opts))
    (default (cv.Size.mk 0 0) (max_size opts)) = faces ->
  output_size opts = cv.Size.mk 512 512 ->
  Forall rect_is_int faces ->
  Z.of_nat i <= INT_MAX -> Z.of_nat (length faces) <= INT_MAX ->
  let m := CascadeOnly.detect_and_extract_faces w (wrap32 (Z.of_nat i)) image
             (min_size opts) (max_size opts) (min_neighbors opts)
             (output_directory opts) in
  (outcome m = Ok tt <-> extracted image (cv.Size.mk 512 512) faces = faces) /\
  imwrites (trace m)
  = imap (thumbnail opts image i) (extracted image (cv.Size.mk 512 512) faces).
Proof.
  intros Hdet Hsz Hint Hi Hn m. subst m.
  unfold CascadeOnly.detect_and_extract_faces.
  rewrite detect_faces_eq, pair_bind_Ok, emit_bind, Hdet.
  cbn [trace outcome fst snd app].
  destruct (extract_loop_imwrites faces 0 image (wrap32 (Z.of_nat i))
              (output_directory opts)) as [Hw Ho].
  destruct (extract_faces_writes opts image i faces Hint Hi Hn) as (Hw' & Ho' & _).
  unfold extract_faces in Hw', Ho'. rewrite Hsz in Hw', Ho'.
  split; [by rewrite Ho|].
  change (imwrites (trace (CascadeOnly.extract_loop 0 image faces (wrap32 (Z.of_nat i))
                             (output_directory opts)))
          = imap (thumbnail opts image i) (extracted image (cv.Size.mk 512 512) faces)).
  by rewrite Hw.
Qed.

(** ** What a task does for an image that loaded *)




(** The conversion of the dlib rectangles changes nothing as long as their
    fields fit an [int]. *)
Lemma rect_of_dlib_fields (ds : list dlib.rectangle) :
  Forall rect_is_int
    ((fun rect => cv.Rect.mk (dlib.left rect) (dlib.top rect)
                             (dlib.width rect) (dlib.height rect)) <$> ds) ->
  rect_of_dlib <$> ds
  = (fun rect => cv.Rect.mk (dlib.left rect) (dlib.top rect)
                            (dlib.width rect) (dlib.height rect)) <$> ds.
Proof.
  induction ds as [|d ds IH]; [done|]. rewrite !fmap_cons.
  intros H. apply Forall_cons in H as [(Hx & Hy & Hw & Hh) H]. simpl in *.
  rewrite IH by done. unfold rect_of_dlib. by rewrite !wrap32_id.
Qed.



(** The body of the task of an image that loaded: what comes before the
    detector is called writes no file; what comes after writes the
    thumbnails of the detected rectangles, in order, up to the first one
    OpenCV refuses to crop or resize. *)
Lemma task_body w opts i path image :
  images opts !! i = Some path ->
  imread w path = image -> cv.empty image = false ->
  (mode opts = OPENCV -> cascade_load w (findFile w cascade_name) = true) ->
  Forall rect_is_int (detected w opts image) ->
  Z.of_nat i <= INT_MAX -> Z.of_nat (length (detected w opts image)) <= INT_MAX ->
  exists pre post,
    trace (task (run w opts) i) = pre ++ detection opts image :: post /\
    imwrites pre = [] /\
    imwrites post
    = imap (thumbnail opts image i)
           (extracted image (output_size opts) (detected w opts image)) /\
    (outcome (task (run w opts) i) = Ok tt <->
     extracted image (output_size opts) (detected w opts image)
     = detected w opts image).
Proof.
  intros Hpath Hread Hne Hload Hint Hi Hn.
  apply images_at_lookup in Hpath.
  destruct (extract_faces_writes opts image i (detected w opts image) Hint Hi Hn)
    as (Hw & Ho & _). cbv zeta in Hw, Ho.
  unfold run, detected, detection in *. destruct (mode opts).
  - cbn [task run_dlib]. rewrite dlib_task_eq. cbv zeta.
    rewrite Hpath, Hread, Hne, (rect_of_dlib_fields _ Hint).
    cbn [trace outcome fst snd].
    eexists (_ ++ [GetFrontalFaceDetector; Imread path]), _.
    split; [by rewrite <- app_assoc|]. split; [|done].
    rewrite imwrites_app. by destruct (verbose opts).
  - cbn [task run_opencv]. rewrite opencv_task_cases. cbv zeta.
    rewrite Hpath, Hread, Hne, (Hload eq_refl). cbn [negb trace outcome fst snd].
    eexists [CascadeLoad _; Imread path], _.
    split; [reflexivity|]. split; [done|]. split; [|done].
    rewrite imwrites_app, Hw.
    destruct (outcome _); by rewrite app_nil_r.
Qed.

(** ** C3: the order of the pipeline *)

(** C3, amended. In every state a run can reach, what the task of image [i]
    has done so far is an initial part of: acquire the slot, the body,
    release the slot; so whatever it has done, it acquired first, and when
    it has released, its body is complete. For an image that loaded (and a cascade file that loaded), a task that has
    released has called the detector after the acquire, and after that call
    and before the release it has written the thumbnail of every detected
    rectangle, the crop of the rectangle itself resized to the output size,
    in the order of detection, up to the first rectangle OpenCV refuses to
    crop or resize: all of them when there is no such rectangle. Once [run]
    has left, every launched task is through, there is a task for every
    image unless [run] ended before its launching loop, and no thread moves
    any more. *)
Theorem pipeline_order w opts s :
  reachable w opts s ->
  (forall i,
     task_progress (trace (task (run w opts) i)) (st_futures s !! i)
                   (events_of (TaskThread i) (st_log s))) /\
  (forall i e, e ∈ events_of (TaskThread i) (st_log s) ->
     head (events_of (TaskThread i) (st_log s)) = Some Acquire) /\
  (forall i, Release ∈ events_of (TaskThread i) (st_log s) ->
     events_of (TaskThread i) (st_log s)
     = Acquire :: (Act <$> trace (task (run w opts) i)) ++ [Release]) /\
  (forall i path image,
     images opts !! i = Some path ->
     imread w path = image -> cv.empty image = false ->
     (mode opts = OPENCV -> cascade_load w (findFile w cascade_name) = true) ->
     Forall rect_is_int (detected w opts image) ->
     Z.of_nat i <= INT_MAX -> Z.of_nat (length (detected w opts image)) <= INT_MAX ->
     Release ∈ events_of (TaskThread i) (st_log s) ->
     exists pre post,
       events_of (TaskThread i) (st_log s)
       = Acquire :: (Act <$> pre) ++ Act (detection opts image)
                 :: (Act <$> post) ++ [Release] /\
       imwrites pre = [] /\
       imwrites post
       = imap (thumbnail opts image i)
              (extracted image (output_size opts) (detected w opts image)) /\
       (Forall (fun face => extractable image (output_size opts) face = true)
               (detected w opts image) ->
        imwrites post = imap (thumbnail opts image i) (detected w opts image))) /\
  (forall r, st_main s = Left r ->
     Forall (fun t => t = Finished) (st_futures s) /\
     (outcome (run_prologue w opts) = Ok tt ->
      length (st_futures s) = length (images opts)) /\
     (forall i, (i < length (st_futures s))%nat ->
        events_of (TaskThread i) (st_log s)
        = task_events (trace (task (run w opts) i))) /\
     (forall t, step w t s = None)).
Proof.
  intros Hr. apply invariant_reachable in Hr.
  split; [apply Hr|]. split; [|split; [|split]].
  { intros i e. eapply task_progress_first, Hr. }
  { intros i. eapply task_progress_released, Hr. }
  { intros i path image Hpath Hread Hne Hload Hint Hi Hn Hrel.
    destruct (task_body w opts i path image Hpath Hread Hne Hload Hint Hi Hn)
      as (pre & post & Hbody & Hpre & Hpost & _).
    exists pre, post.
    rewrite (task_progress_released _ _ _ (inv_log _ _ _ Hr i) Hrel).
    unfold task_events. rewrite Hbody, fmap_app, fmap_cons, <- !app_assoc.
    split; [done|]. split; [done|]. split; [done|].
    intros Hall. by rewrite Hpost, (extracted_all _ _ _ Hall). }
  intros r Hleft.
  pose proof (inv_main _ _ _ Hr) as Hmain. unfold main_consistent, started in Hmain.
  rewrite Hleft in Hmain. destruct Hmain as [Hall Hlen].
  assert (Hfin : forall i ts, st_futures s !! i = Some ts -> ts = Finished).
  { intros i ts. by apply all_finished_lookup. }
  split; [by apply Forall_lookup|]. split; [by intros Hpro; rewrite Hpro in Hlen|].
  split.
  - intros i Hi. apply lookup_lt_is_Some_2 in Hi as [ts Hts].
    pose proof (Hfin _ _ Hts) as ->.
    pose proof (inv_log _ _ _ Hr i) as Hlog. by rewrite Hts in Hlog.
  - intros t. by eapply left_is_final.
Qed.

Lemma pipeline_order_witness :
  exists pre post,
    events_of (TaskThread 0) (st_log example_final_state)
    = Acquire :: (Act <$> pre)
              ++ Act (detection example_opts (cv.MatFile "a.jpg" 100 100))
              :: (Act <$> post) ++ [Release] /\
    imwrites pre = [] /\
    imwrites post
    = imap (thumbnail example_opts (cv.MatFile "a.jpg" 100 100) 0)
           [cv.Rect.mk 10 20 30 30].
Proof.
  destruct (pipeline_order example_world example_opts example_final_state)
    as (_ & _ & _ & H & _).
  { exists example_full_schedule. reflexivity. }
  destruct (H 0%nat "a.jpg" (cv.MatFile "a.jpg" 100 100)) as (pre & post & H1 & H2 & H3 & _).
  - reflexivity.
  - reflexivity.
  - reflexivity.
  - reflexivity.
  - repeat constructor; simpl; unfold INT_MIN, INT_MAX; lia.
  - unfold INT_MAX. simpl. lia.
  - unfold INT_MAX. simpl. lia.
  - apply (list_elem_of_lookup_2 _ 7%nat). reflexivity.
  - by exists pre, post.
Defined.

(** A task can release its slot with a detected face not saved: with
    [--size 0x0] the face of [a.jpg] is detected and cropped, [cv::resize]
    throws, and the guard's destructor releases the slot. *)
Lemma pipeline_counterexample :
  ~ (forall w opts s i path image,
       reachable w opts s ->
       images opts !! i = Some path -> imread w path = image ->
       Act (detection opts image) ∈ events_of (TaskThread i) (st_log s) ->
       Release ∈ events_of (TaskThread i) (st_log s) ->
       length (imwrites (acts_of (events_of (TaskThread i) (st_log s))))
       = length (detected w opts image)).
Proof.
  intros H.
  specialize (H example_world example_opts_no_size example_state_no_size 0%nat
                "a.jpg" (cv.MatFile "a.jpg" 100 100)).
  assert (reachable example_world example_opts_no_size example_state_no_size) as Hs.
  { exists example_schedule_no_size. reflexivity. }
  specialize (H Hs eq_refl eq_refl).
  assert (Act (detection example_opts_no_size (cv.MatFile "a.jpg" 100 100))
          ∈ events_of (TaskThread 0) (st_log example_state_no_size)) as Hdet.
  { apply (list_elem_of_lookup_2 _ 3%nat). reflexivity. }
  assert (Release ∈ events_of (TaskThread 0) (st_log example_state_no_size)) as Hrel.
  { apply (list_elem_of_lookup_2 _ 5%nat). reflexivity. }
  specialize (H Hdet Hrel). vm_compute in H. discriminate.
Qed.

(** ** C1: the thumbnails of one image *)




(** The options of that counterexample come from a command line, and the
    same happens to a rectangle that is not inside the image, as the dlib
    detector reports them for faces at the border. *)
Example thumbnails_other_failures :
  parse_args example_argv_no_size = ([], Ok example_opts_no_size) /\
  task (run example_world example_opts_no_size) 0
  = ([CascadeLoad (findFile example_world cascade_name); Imread "a.jpg";
      DetectMultiScale (cv.MatFile "a.jpg" 100 100) 3 (cv.Size.mk 20 20) (cv.Size.mk 0 0);
      Print "extracting face at: {} {} {} {} from {}x{}\n"
        [FInt 10; FInt 20; FInt 30; FInt 30; FInt 100; FInt 100]],
     Throw (cv_Exception "resize")) /\
  detected example_world_border example_opts_dlib (cv.MatFile "a.jpg" 100 100)
  = [cv.Rect.mk (-5) 20 30 30] /\
  task (run example_world_border example_opts_dlib) 0
  = ([GetFrontalFaceDetector; Imread "a.jpg";
      DlibDetect (cv.MatGray (cv.MatFile "a.jpg" 100 100));
      Print "  enlargement rejected\n" [];
      Print "extracting face at: {} {} {} {} from {}x{}\n"
        [FInt (-5); FInt 20; FInt 30; FInt 30; FInt 100; FInt 100]],
     Throw (cv_Exception "Mat")).
Proof. repeat split; reflexivity. Qed.

(** * Further properties *)

(** ** Runs never get stuck, and how they leave *)

(** X1. With at least one hardware thread reported, no reachable state is
    stuck: whatever has happened so far, some continuation takes [run] to
    its end. *)
Theorem no_deadlock w opts s :
  (0 < hardware_concurrency w)%nat -> reachable w opts s ->
  exists s' r, steps w s s' /\ st_main s' = Left r.
Proof. apply reachable_can_leave. Qed.

Lemma no_deadlock_witness :
  exists s' r, steps example_world example_state s' /\ st_main s' = Left r.
Proof.
  apply (no_deadlock example_world example_opts example_state).
  - simpl. lia.
  - exists example_schedule. reflexivity.
Defined.

(** X2. Without a hardware thread count ([hardware_concurrency] may report
    0) no task ever gets a slot, and a run with at least one image that got
    as far as creating its semaphore never comes to its end. *)
Theorem zero_slots_block w opts s :
  hardware_concurrency w = 0%nat -> images opts <> [] ->
  reachable w opts s ->
  (outcome (run_prologue w opts) = Ok tt -> forall r, st_main s <> Left r) /\
  Forall (fun t => t = Created) (st_futures s).
Proof.
  intros Hhc Himg Hs. split; [intros Hpro; by eapply no_slot_no_end|].
  destruct Hs as [schedule Hexec].
  by destruct (no_slot_all_created w schedule (init w opts) s (Forall_nil_2 _) Hhc Hexec).
Qed.

Lemma zero_slots_block_witness :
  (forall r, st_main example_blocked_state <> Left r) /\
  Forall (fun t => t = Created) (st_futures example_blocked_state).
Proof.
  destruct (zero_slots_block example_world_no_threads example_opts example_blocked_state)
    as [H1 H2].
  - reflexivity.
  - discriminate.
  - exists [MainThread; MainThread; MainThread]. reflexivity.
  - split; [by apply H1|exact H2].
Defined.

(** X3. When [run] has left, normally or by an exception, every slot is
    back: the semaphore counts [hardware_concurrency] again and no task
    holds one. *)
Theorem slots_returned w opts s r :
  reachable w opts s -> st_main s = Left r ->
  st_sem s = hardware_concurrency w /\ holders (st_futures s) = 0%nat.
Proof.
  intros Hs Hleft. apply invariant_reachable in Hs.
  pose proof (inv_main _ _ _ Hs) as Hmain. unfold main_consistent in Hmain.
  rewrite Hleft in Hmain. destruct Hmain as [Hall _].
  pose proof (inv_sem _ _ _ Hs) as Hsem.
  rewrite (all_finished_holders _ Hall) in *. split; [lia|done].
Qed.

Lemma slots_returned_witness :
  st_sem example_final_state = hardware_concurrency example_world /\
  holders (st_futures example_final_state) = 0%nat.
Proof.
  apply (slots_returned example_world example_opts example_final_state (Ok tt)).
  - exists example_full_schedule. reflexivity.
  - reflexivity.
Defined.

Lemma first_failure_all_ok (f : nat -> result unit) m : forall a,
  (forall j, (a <= j < a + m)%nat -> f j = Ok tt) ->
  first_failure (f <$> seq a m) = Ok tt.
Proof.
  induction m as [|m IH]; intros a H; [done|].
  cbn [seq fmap list_fmap first_failure]. rewrite (H a) by lia.
  apply IH. intros j Hj. apply H. lia.
Qed.

Lemma first_failure_first (f : nat -> result unit) m : forall a k,
  (a <= k < a + m)%nat ->
  (forall j, (a <= j < k)%nat -> f j = Ok tt) ->
  (forall u, f k <> Ok u) ->
  first_failure (f <$> seq a m) = f k.
Proof.
  induction m as [|m IH]; intros a k Hk Hok Hfail; [lia|].
  cbn [seq fmap list_fmap first_failure].
  destruct (decide (k = a)) as [->|Hne].
  - destruct (f a) as [u| |] eqn:E; [by destruct (Hfail u)|done..].
  - rewrite (Hok a) by lia. apply (IH (S a) k); [lia| |done].
    intros j Hj. apply Hok. lia.
Qed.

Lemma run_result_started w opts :
  started w opts = true ->
  run_result w opts = first_failure ((fun i => outcome (task (run w opts) i))
                                     <$> seq 0 (length (images opts))).
Proof.
  unfold started, run_result. by destruct (outcome (run_prologue w opts)).
Qed.

Lemma main_result_init w opts : main_result_ok w opts (init w opts).
Proof.
  unfold main_result_ok, init, run_result. cbn [st_main].
  by destruct (outcome (run_prologue w opts)).
Qed.

Lemma main_result_step w opts t s s' :
  invariant w opts s -> main_result_ok w opts s ->
  step w t s = Some s' -> main_result_ok w opts s'.
Proof.
  intros Hinv Hres Hstep. destruct t as [|i]; simpl in Hstep.
  - pose proof (inv_opts _ _ _ Hinv) as Hopts.
    pose proof (inv_main _ _ _ Hinv) as Hmain.
    unfold step_main in Hstep. rewrite Hopts in Hstep.
    unfold main_result_ok, main_consistent in *.
    destruct (st_main s) as [k|k|r|r] eqn:Hm.
    + destruct (Nat.ltb_spec k (length (images opts))); simplify_eq/=; [done|].
      split; [lia|]. intros; lia.
    + destruct Hres as [Hk Hok]. destruct Hmain as [Hst Hlen].
      destruct (st_futures s !! k) as [[| |]|] eqn:Hlk; simplify_eq/=.
      * apply lookup_lt_Some in Hlk. rewrite Hlen in Hlk.
        destruct (outcome (task (run w (st_opts s)) k)) as [[]| |] eqn:Ho.
        -- split; [lia|]. intros j Hj.
           destruct (decide (j = k)) as [->|]; [done|]. apply Hok. lia.
        -- rewrite run_result_started by done. rewrite <- Ho. symmetry.
           apply (first_failure_first (fun i => outcome (task (run w _) i)));
             [lia|intros; apply Hok; lia|].
           intros u. by rewrite Ho.
        -- rewrite run_result_started by done. rewrite <- Ho. symmetry.
           apply (first_failure_first (fun i => outcome (task (run w _) i)));
             [lia|intros; apply Hok; lia|].
           intros u. by rewrite Ho.
      * apply lookup_ge_None in Hlk. rewrite Hlen in Hlk.
        rewrite run_result_started by done. symmetry.
        apply (first_failure_all_ok (fun i => outcome (task (run w _) i))).
        intros j Hj. apply Hok. lia.
    + destruct (all_finished (st_futures s)); simplify_eq/=. done.
    + done.
  - apply step_task_frame in Hstep as (_ & Hm & _ & _).
    unfold main_result_ok in *. by rewrite Hm.
Qed.

Lemma main_result_exec w opts schedule : forall s s',
  invariant w opts s -> main_result_ok w opts s ->
  exec w schedule s = Some s' -> main_result_ok w opts s'.
Proof.
  induction schedule as [|t schedule IH]; intros s s' Hinv Hres Hexec; simpl in Hexec.
  - by simplify_eq.
  - destruct (step w t s) as [s1|] eqn:Hstep; [|done].
    eapply (IH s1); [by eapply invariant_step|by eapply main_result_step|done].
Qed.

(** X4. However the threads are scheduled, [run] leaves in one way only:
    with the exception of [create_directory] or [findFile] when one of them
    fails before the first launch; otherwise with the exception of the
    first task, in launch order, that threw; and normally when none did. *)
Theorem run_result_unique w opts s r :
  reachable w opts s -> st_main s = Left r -> r = run_result w opts.
Proof.
  intros [schedule Hexec] Hleft.
  pose proof (main_result_exec w opts schedule (init w opts) s
                (invariant_init w opts) (main_result_init w opts) Hexec) as H.
  unfold main_result_ok in H. by rewrite Hleft in H.
Qed.

Lemma run_result_unique_witness : Ok tt = run_result example_world example_opts.
Proof.
  apply (run_result_unique example_world example_opts example_final_state).
  - exists example_full_schedule. reflexivity.
  - reflexivity.
Defined.

(** Two runs that end before or without a thumbnail: the output directory
    cannot be created; the only image does not decode and the dlib task
    hands it to [cv::cvtColor]. *)
Example run_result_examples :
  run_result example_world_no_directory example_opts
  = Throw (filesystem_error "out") /\
  init example_world_no_directory example_opts
  = {| st_opts := example_opts; st_sem := 1; st_futures := [];
       st_main := Left (Throw (filesystem_error "out"));
       st_log := [(MainThread, Leave (Throw (filesystem_error "out")));
                  (MainThread, Act (CreateDirectory "out"))] |} /\
  task (run example_world (set_output_directory "out"
                             (push_image "missing.jpg" Options_default))) 0
  = ([GetFrontalFaceDetector; Imread "missing.jpg"], Throw (cv_Exception "cvtColor")) /\
  run_result example_world (set_output_directory "out"
                              (push_image "missing.jpg" Options_default))
  = Throw (cv_Exception "cvtColor").
Proof. repeat split; reflexivity. Qed.

(** ** What ends up in the log *)

Lemma events_of_elem t e log : (t, e) ∈ log -> e ∈ events_of t log.
Proof.
  intros H. unfold events_of. apply list_elem_of_omap. exists (t, e). split.
  - apply list_elem_of_In, in_rev. rewrite rev_involutive. by apply list_elem_of_In.
  - simpl. by destruct (decide (t = t)).
Qed.

Lemma task_progress_action body ts evs a :
  task_progress body ts evs -> Act a ∈ evs -> a ∈ body.
Proof.
  assert (Hact : forall l : list action, Act a ∈ Act <$> l -> a ∈ l).
  { intros l H. apply list_elem_of_fmap in H as (a' & [= ->] & H). done. }
  destruct ts as [[|todo|]|]; simpl.
  - intros -> H. by apply elem_of_nil in H.
  - intros (done & <- & ->) H. apply elem_of_cons in H as [H|H]; [done|].
    apply elem_of_app. left. by apply Hact.
  - intros -> H. unfold task_events in H.
    apply elem_of_cons in H as [H|H]; [done|].
    apply elem_of_app in H as [H|H]; [by apply Hact|].
    by apply list_elem_of_singleton in H.
  - intros -> H. by apply elem_of_nil in H.
Qed.

Lemma log_task_action w opts s i a :
  reachable w opts s -> (TaskThread i, Act a) ∈ st_log s ->
  a ∈ trace (task (run w opts) i) /\ (i < length (images opts))%nat.
Proof.
  intros Hs Hin. apply invariant_reachable in Hs.
  apply events_of_elem in Hin. pose proof (inv_log _ _ _ Hs i) as Hlog.
  split; [by eapply task_progress_action|].
  destruct (st_futures s !! i) as [ts|] eqn:Hi.
  - apply lookup_lt_Some in Hi.
    pose proof (inv_main _ _ _ Hs) as Hmain. unfold main_consistent in Hmain.
    destruct (st_main s); [lia..|]. destruct Hmain as [_ Hlen].
    destruct (started w opts); [lia|]. rewrite Hlen in Hi. simpl in Hi. lia.
  - simpl in Hlog. rewrite Hlog in Hin. by apply elem_of_nil in Hin.
Qed.

Lemma log_main_ok acts :
  Forall (fun a => is_main_action a = true) acts -> Forall main_entry_ok (log_main acts).
Proof.
  intros H. unfold log_main. apply Forall_forall. intros te Hte.
  apply list_elem_of_In, in_rev, list_elem_of_In in Hte.
  apply list_elem_of_fmap in Hte as (a & -> & Ha).
  rewrite Forall_forall in H. by apply H.
Qed.

Lemma prologue_main_actions w opts :
  Forall (fun a => is_main_action a = true) (trace (run_prologue w opts)).
Proof.
  unfold run_prologue, create_directory, run, run_opencv, run_dlib, samples_findFile.
  destruct (mode opts); cbn [prologue];
    destruct (create_directory_fails w (output_directory opts));
    try destruct (findFile_fails w cascade_name); by repeat constructor.
Qed.

Lemma before_launch_main_actions w opts i :
  Forall (fun a => is_main_action a = true) (before_launch (run w opts) i).
Proof.
  unfold run. destruct (mode opts); simpl; [constructor|].
  destruct (verbose opts); by repeat constructor.
Qed.

Lemma main_entries_exec w schedule : forall s s',
  Forall main_entry_ok (st_log s) -> exec w schedule s = Some s' ->
  Forall main_entry_ok (st_log s').
Proof.
  induction schedule as [|t schedule IH]; intros s s' Hlog Hexec; simpl in Hexec.
  - by simplify_eq.
  - destruct (step w t s) as [s1|] eqn:Hstep; [|done].
    eapply (IH s1); [|done]. destruct t as [|i]; simpl in Hstep.
    + unfold step_main in Hstep.
      repeat (case_match; simplify_eq/=); try done;
        try (by apply Forall_cons).
      apply Forall_cons. split; [done|]. apply Forall_app. split; [|done].
      apply log_main_ok, before_launch_main_actions.
    + unfold step_task in Hstep.
      repeat (case_match; simplify_eq/=); by apply Forall_cons.
Qed.

Lemma main_entries_reachable w opts s :
  reachable w opts s -> Forall main_entry_ok (st_log s).
Proof.
  intros [schedule Hexec]. eapply main_entries_exec; [|done].
  unfold init. cbv zeta. cbn [st_log].
  apply Forall_app. split; [by destruct (outcome _); repeat constructor|].
  apply log_main_ok, prologue_main_actions.
Qed.

Lemma extract_faces_from_names faces : forall k image idx dir sz f m,
  Imwrite f m ∈ trace (extract_faces_from k image faces idx dir sz) ->
  exists j r, f = path_join dir (face_basename idx j) /\
              m = cv.MatResize (cv.MatRoi image r) sz.
Proof.
  induction faces as [|face faces IH]; intros k image idx dir sz f m H.
  - by apply elem_of_nil in H.
  - cbn [extract_faces_from] in H.
    destruct (enlarged_face_total image face) as (t & r & E & Ht).
    rewrite E, pair_bind_Ok, !emit_bind in H. cbn [trace outcome fst snd] in H.
    rewrite <- bind_assoc, Mat_roi_resize in H.
    apply elem_of_app in H as [H|H].
    { destruct Ht as [-> | ->]; [by apply elem_of_nil in H|].
      by apply list_elem_of_singleton in H. }
    apply elem_of_cons in H as [H|H]; [done|].
    destruct (extractable image sz r); [|by apply elem_of_nil in H].
    rewrite pair_bind_Ok, emit_bind in H. cbn [trace outcome fst snd app] in H.
    apply elem_of_cons in H as [H|H]; [injection H as -> ->; by eauto|].
    by eapply IH.
Qed.

Lemma task_imwrite_names w opts i f m :
  Imwrite f m ∈ trace (task (run w opts) i) ->
  exists j r,
    f = path_join (output_directory opts) (face_basename (wrap32 (Z.of_nat i)) j) /\
    m = cv.MatResize (cv.MatRoi (imread w (images_at opts i)) r) (output_size opts).
Proof.
  unfold run. destruct (mode opts).
  - cbn [task run_dlib]. rewrite dlib_task_eq. cbv zeta.
    destruct (cv.empty _); cbn [trace fst]; intros H;
      (apply elem_of_app in H as [H|H];
       [destruct (verbose opts);
          [by apply list_elem_of_singleton in H|by apply elem_of_nil in H]|]).
    + do 2 (apply elem_of_cons in H as [H|H]; [done|]). by apply elem_of_nil in H.
    + do 3 (apply elem_of_cons in H as [H|H]; [done|]).
      by eapply extract_faces_from_names.
  - cbn [task run_opencv]. rewrite opencv_task_cases. cbv zeta.
    destruct (negb _); [|destruct (cv.empty _)]; cbn [trace fst]; intros H.
    + by apply list_elem_of_singleton in H.
    + do 2 (apply elem_of_cons in H as [H|H]; [done|]).
      by apply list_elem_of_singleton in H.
    + do 3 (apply elem_of_cons in H as [H|H]; [done|]).
      apply elem_of_app in H as [H|H]; [by eapply extract_faces_from_names|].
      destruct (outcome _);
        [by apply list_elem_of_singleton in H|by apply elem_of_nil in H..].
Qed.

(** X5. Whatever the schedule, the only files a run writes are thumbnails:
    every [cv::imwrite] in the log was issued by the task of some image [i]
    of the batch, into the output directory, under a name of the form
    [face{i:03d}-{j:03d}.jpg], for a crop of image [i] resized to the output
    size. The main thread writes no file. *)
Theorem writes_only_thumbnails w opts s t f m :
  reachable w opts s -> (t, Act (Imwrite f m)) ∈ st_log s ->
  exists i j r,
    t = TaskThread i /\ (i < length (images opts))%nat /\
    f = path_join (output_directory opts) (face_basename (wrap32 (Z.of_nat i)) j) /\
    m = cv.MatResize (cv.MatRoi (imread w (images_at opts i)) r) (output_size opts).
Proof.
  intros Hs Hin. destruct t as [|i].
  - pose proof (main_entries_reachable _ _ _ Hs) as Hmain.
    rewrite Forall_forall in Hmain. by apply Hmain in Hin.
  - destruct (log_task_action _ _ _ _ _ Hs Hin) as [Ha Hi].
    destruct (task_imwrite_names _ _ _ _ _ Ha) as (j & r & -> & ->).
    by exists i, j, r.
Qed.

Lemma writes_only_thumbnails_witness :
  exists i j r,
    TaskThread 0 = TaskThread i /\ (i < length (images example_opts))%nat /\
    "out/face000-000.jpg"
    = path_join (output_directory example_opts) (face_basename (wrap32 (Z.of_nat i)) j) /\
    cv.MatResize (cv.MatRoi (cv.MatFile "a.jpg" 100 100) (cv.Rect.mk 10 20 30 30))
                 (cv.Size.mk 512 512)
    = cv.MatResize (cv.MatRoi (imread example_world (images_at example_opts i)) r)
                   (output_size example_opts).
Proof.
  apply (writes_only_thumbnails example_world example_opts example_final_state).
  - exists example_full_schedule. reflexivity.
  - apply (list_elem_of_lookup_2 _ 5%nat). reflexivity.
Defined.

(** ** File names across tasks *)

Lemma all_digits_app a b :
  all_digits a = true -> all_digits b = true -> all_digits (a +:+ b) = true.
Proof.
  induction a as [|c a IH]; [done|]. rewrite string_app_cons. simpl.
  destruct (digit_of c); [auto|done].
Qed.

Lemma all_digits_zeros n : all_digits (zeros n) = true.
Proof. induction n; [done|]. simpl. done. Qed.

Lemma all_digits_string_of_uint d : all_digits (NilEmpty.string_of_uint d) = true.
Proof. induction d; simpl; done. Qed.

Lemma all_digits_string_of_nonneg z : all_digits (string_of_nonneg z) = true.
Proof.
  unfold string_of_nonneg, NilZero.string_of_uint.
  destruct (N.to_uint (Z.to_N z)) eqn:E; try done;
    rewrite <- E; apply all_digits_string_of_uint.
Qed.

Lemma all_digits_fmt_03d z : 0 <= z -> all_digits (fmt_03d z) = true.
Proof.
  intros Hz. unfold fmt_03d. destruct (Z.ltb_spec z 0); [lia|].
  apply all_digits_app; [apply all_digits_zeros|apply all_digits_string_of_nonneg].
Qed.

Lemma digits_before_dash p : forall q x y,
  all_digits p = true -> all_digits q = true ->
  p +:+ String "-" x = q +:+ String "-" y -> p = q /\ x = y.
Proof.
  induction p as [|c p IH]; intros [|d q] x y Hp Hq E.
  - by injection E.
  - rewrite string_app_nil, string_app_cons in E. injection E as <- _. done.
  - rewrite string_app_nil, string_app_cons in E. injection E as -> _. done.
  - rewrite !string_app_cons in E. injection E as -> E.
    simpl in Hp, Hq. destruct (digit_of d); [|done].
    destruct (IH q x y Hp Hq E) as [-> ->]. done.
Qed.

Lemma face_basename_inj_image a b j j' :
  0 <= a -> 0 <= b -> face_basename a j = face_basename b j' -> a = b.
Proof.
  intros Ha Hb. unfold face_basename. intros E.
  apply string_app_inj_l in E.
  change ("-" +:+ ?x) with (String "-" x) in E.
  apply digits_before_dash in E as [E _]; [|by apply all_digits_fmt_03d..].
  by apply fmt_03d_inj.
Qed.

(** X6. The tasks of two different images never write to the same file:
    the image index is part of every name a task writes, so concurrent tasks
    cannot overwrite each other's thumbnails. *)
Theorem tasks_write_distinct_files w opts i i' f m f' m' :
  i <> i' -> Z.of_nat i <= INT_MAX -> Z.of_nat i' <= INT_MAX ->
  Imwrite f m ∈ trace (task (run w opts) i) ->
  Imwrite f' m' ∈ trace (task (run w opts) i') ->
  f <> f'.
Proof.
  intros Hne Hi Hi' H H' Heq.
  apply task_imwrite_names in H as (j & r & -> & _).
  apply task_imwrite_names in H' as (j' & r' & -> & _).
  rewrite !wrap32_id in Heq by (unfold is_int, INT_MIN, INT_MAX in *; lia).
  apply path_join_inj, face_basename_inj_image in Heq; lia.
Qed.

Lemma tasks_write_distinct_files_witness :
  "out/face000-000.jpg" <> "out/face001-000.jpg".
Proof.
  apply (tasks_write_distinct_files example_world example_opts_twice 0 1
           _ (cv.MatResize (cv.MatRoi (cv.MatFile "a.jpg" 100 100) (cv.Rect.mk 10 20 30 30))
                           (cv.Size.mk 512 512))
           _ (cv.MatResize (cv.MatRoi (cv.MatFile "a.jpg" 100 100) (cv.Rect.mk 10 20 30 30))
                           (cv.Size.mk 512 512))).
  - done.
  - unfold INT_MAX. simpl. lia.
  - unfold INT_MAX. simpl. lia.
  - apply (list_elem_of_lookup_2 _ 4%nat). reflexivity.
  - apply (list_elem_of_lookup_2 _ 4%nat). reflexivity.
Defined.

(** ** The directory, the images, the cascade file *)

Lemma log_oldest_exec w schedule : forall s s' x,
  last (st_log s) = Some x -> exec w schedule s = Some s' ->
  last (st_log s') = Some x.
Proof.
  induction schedule as [|t schedule IH]; intros s s' x Hlast Hexec; simpl in Hexec.
  - by simplify_eq.
  - destruct (step w t s) as [s1|] eqn:Hstep; [|done].
    eapply (IH s1); [|done].
    assert (Hcons : forall y, last (y :: st_log s) = Some x).
    { intros y. destruct (st_log s); [done|]. by rewrite last_cons_cons. }
    destruct t as [|i]; simpl in Hstep.
    + unfold step_main in Hstep.
      repeat (case_match; simplify_eq/=); try done; try apply Hcons.
      rewrite app_comm_cons. apply last_app_Some. by left.
    + unfold step_task in Hstep.
      repeat (case_match; simplify_eq/=); apply Hcons.
Qed.

(** X7. The first thing a run does is create the output directory: in
    every reachable state the oldest entry of the log is the main thread's
    [create_directory(opts.output_directory)], before any task is launched
    and any file written. *)
Theorem directory_created_first w opts s :
  reachable w opts s ->
  last (st_log s) = Some (MainThread, Act (CreateDirectory (output_directory opts))).
Proof.
  intros [schedule Hexec]. eapply log_oldest_exec; [|done].
  unfold init. cbv zeta. cbn [st_log].
  assert (exists rest, trace (run_prologue w opts)
                       = CreateDirectory (output_directory opts) :: rest) as [rest ->].
  { unfold run_prologue, create_directory. rewrite bind_assoc, emit_bind.
    cbn [trace outcome fst snd]. by eexists. }
  unfold log_main. rewrite fmap_cons. cbn [rev].
  rewrite app_assoc. apply last_snoc.
Qed.

Lemma directory_created_first_witness :
  last (st_log example_final_state)
  = Some (MainThread, Act (CreateDirectory (output_directory example_opts))).
Proof.
  apply (directory_created_first example_world example_opts example_final_state).
  exists example_full_schedule. reflexivity.
Defined.

Lemma imreads_outputs l : Forall (fun a => is_output a = true) l -> imreads l = [].
Proof. induction 1 as [|a l Ha _ IH]; [done|]. destruct a; try done; apply IH. Qed.

Lemma imreads_app t1 t2 : imreads (t1 ++ t2) = imreads t1 ++ imreads t2.
Proof. apply omap_app. Qed.

Lemma imreads_Imread p t : imreads (Imread p :: t) = p :: imreads t.
Proof. done. Qed.

Lemma imreads_cons_other a t :
  (forall p, a <> Imread p) -> imreads (a :: t) = imreads t.
Proof. intros H. destruct a; try done. by destruct (H p). Qed.

Lemma task_imreads w opts i :
  imreads (trace (task (run w opts) i)) =
  match mode opts with
  | DLIB => [images_at opts i]
  | OPENCV => if cascade_load w (findFile w cascade_name)
              then [images_at opts i] else []
  end.
Proof.
  assert (Hx : forall image faces idx,
            imreads (trace (extract_faces image faces idx (output_directory opts)
                              (output_size opts))) = []).
  { intros. apply imreads_outputs, extract_faces_outputs. }
  unfold run. destruct (mode opts).
  - cbn [task run_dlib]. rewrite dlib_task_eq. cbv zeta.
    assert (imreads (if verbose opts
              then [Print "processing {}\n" [FPath (images_at opts i)]] else []) = []) as Hv
      by (by destruct (verbose opts)).
    destruct (cv.empty _); cbn [trace fst]; rewrite imreads_app, Hv; [done|].
    cbn [app]. rewrite !imreads_cons_other by done. rewrite imreads_Imread.
    rewrite imreads_cons_other by done. by rewrite Hx.
  - cbn [task run_opencv]. rewrite opencv_task_cases. cbv zeta.
    destruct (cascade_load w (findFile w cascade_name)); cbn [negb]; [|done].
    destruct (cv.empty _); cbn [trace fst]; [done|].
    rewrite imreads_cons_other by done. rewrite imreads_Imread.
    rewrite imreads_cons_other by done. rewrite imreads_app, Hx.
    by destruct (outcome _).
Qed.

(** X8. A run reads only the images of the batch, each in its own task and
    not more than once there: every [cv::imread] in the log was issued by
    the task of an image [i] of the batch, for the path [opts.images[i]],
    and a task's body contains at most one. *)
Theorem reads_only_own_image w opts s t p :
  reachable w opts s -> (t, Act (Imread p)) ∈ st_log s ->
  exists i, t = TaskThread i /\ (i < length (images opts))%nat /\
            images opts !! i = Some p /\
            imreads (trace (task (run w opts) i)) = [p].
Proof.
  intros Hs Hin. destruct t as [|i].
  - pose proof (main_entries_reachable _ _ _ Hs) as Hmain.
    rewrite Forall_forall in Hmain. by apply Hmain in Hin.
  - destruct (log_task_action _ _ _ _ _ Hs Hin) as [Ha Hi].
    exists i. split; [done|]. split; [done|].
    assert (p ∈ imreads (trace (task (run w opts) i))) as Hp.
    { apply list_elem_of_omap. by exists (Imread p). }
    assert (imreads (trace (task (run w opts) i)) = [images_at opts i]) as Hreads.
    { rewrite task_imreads in *. destruct (mode opts); [done|].
      destruct (cascade_load _ _); [done|]. by apply elem_of_nil in Hp. }
    rewrite Hreads in Hp. apply list_elem_of_singleton in Hp as ->.
    split; [|done]. unfold images_at.
    apply lookup_lt_is_Some_2 in Hi as [q Hq]. by rewrite Hq.
Qed.

Lemma reads_only_own_image_witness :
  exists i, TaskThread 0 = TaskThread i /\ (i < length (images example_opts))%nat /\
            images example_opts !! i = Some "a.jpg" /\
            imreads (trace (task (run example_world example_opts) i)) = ["a.jpg"].
Proof.
  apply (reads_only_own_image example_world example_opts example_final_state).
  - exists example_full_schedule. reflexivity.
  - apply (list_elem_of_lookup_2 _ 8%nat). reflexivity.
Defined.

Lemma task_outcome_cases w opts i :
  outcome (task (run w opts) i) = Ok tt \/
  (exists func, outcome (task (run w opts) i) = Throw (cv_Exception func)) \/
  (mode opts = OPENCV /\ cascade_load w (findFile w cascade_name) = false /\
   outcome (task (run w opts) i)
   = Throw (runtime_error ("failed to load " +:+ findFile w cascade_name))).
Proof.
  unfold run. destruct (mode opts) eqn:Hmode.
  - cbn [task run_dlib]. rewrite dlib_task_eq. cbv zeta.
    destruct (cv.empty _); cbn [outcome snd]; [right; left; by eexists|].
    destruct (extract_faces_from_outputs
                (rect_of_dlib <$> frontal_face_detector w
                   (cv.MatGray (imread w (images_at opts i))))
                0 (imread w (images_at opts i)) (wrap32 (Z.of_nat i))
                (output_directory opts) (output_size opts)) as [[H|H] _]; auto.
  - cbn [task run_opencv]. rewrite opencv_task_cases. cbv zeta.
    destruct (cascade_load w (findFile w cascade_name)) eqn:Hload; cbn [negb];
      [|right; right; done].
    destruct (cv.empty _); cbn [outcome snd]; [by left|].
    destruct (extract_faces_from_outputs
                (detectMultiScale w (imread w (images_at opts i)) (min_neighbors opts)
                   (default (cv.Size.mk 0 0) (min_size opts))
                   (default (cv.Size.mk 0 0) (max_size opts)))
                0 (imread w (images_at opts i)) (wrap32 (Z.of_nat i))
                (output_directory opts) (output_size opts)) as [[H|H] _]; auto.
Qed.

Lemma run_prologue_cases w opts :
  outcome (run_prologue w opts) = Ok tt \/
  outcome (run_prologue w opts) = Throw (filesystem_error (output_directory opts)) \/
  (mode opts = OPENCV /\ outcome (run_prologue w opts) = Throw (cv_Exception "findFile")).
Proof.
  unfold run_prologue, create_directory, run, run_opencv, run_dlib, samples_findFile.
  destruct (mode opts); cbn [prologue];
    destruct (create_directory_fails w (output_directory opts)); auto;
    destruct (findFile_fails w cascade_name); auto.
Qed.

Lemma first_failure_elem rs : first_failure rs = Ok tt \/ first_failure rs ∈ rs.
Proof.
  induction rs as [|r rs IH]; [by left|]. simpl.
  destruct r as [[]|e|st]; [|right; by left..].
  destruct IH as [IH|IH]; [by left|right; by right].
Qed.

(** X9. With [--opencv], [run] leaves with the [std::runtime_error]
    [failed to load <file>] exactly when it got as far as its launching
    loop, there is an image, and the cascade file does not load; and then no
    task reads an image or writes a file: each one stops right after the
    failed load. *)
Theorem cascade_failure w opts :
  mode opts = OPENCV ->
  let file := findFile w cascade_name in
  (forall msg, run_result w opts = Throw (runtime_error msg) <->
     outcome (run_prologue w opts) = Ok tt /\ images opts <> [] /\
     cascade_load w file = false /\ msg = "failed to load " +:+ file) /\
  (cascade_load w file = false ->
   forall i, task (run w opts) i
             = ([CascadeLoad file], Throw (runtime_error ("failed to load " +:+ file)))).
Proof.
  intros Hmode file. subst file.
  assert (Htask : forall i, task (run w opts) i
            = opencv_task w opts (findFile w cascade_name) i).
  { intros i. unfold run. by rewrite Hmode. }
  assert (Hfail : cascade_load w (findFile w cascade_name) = false ->
            forall i, task (run w opts) i
                      = ([CascadeLoad (findFile w cascade_name)],
                         Throw (runtime_error ("failed to load " +:+ findFile w cascade_name)))).
  { intros Hload i. rewrite Htask, opencv_task_cases. cbv zeta. by rewrite Hload. }
  split; [|done]. intros msg. split.
  - intros Hres. unfold run_result in Hres.
    destruct (run_prologue_cases w opts) as [Hp|[Hp|[_ Hp]]];
      rewrite Hp in Hres; [|done..].
    split; [done|].
    destruct (first_failure_elem ((fun i => outcome (task (run w opts) i))
                                  <$> seq 0 (length (images opts)))) as [H|H];
      [congruence|].
    rewrite Hres in H. apply list_elem_of_fmap in H as (i & Hi & Hin).
    split; [intros Himg; rewrite Himg in Hin; by apply elem_of_nil in Hin|].
    destruct (task_outcome_cases w opts i) as [H|[[func H]|(_ & Hload & H)]];
      [congruence..|].
    split; [done|]. congruence.
  - intros (Hp & Himg & Hload & ->). unfold run_result. rewrite Hp.
    destruct (images opts) as [|x l]; [done|].
    cbn [length seq fmap list_fmap first_failure]. by rewrite Hfail.
Qed.

Lemma cascade_failure_witness :
  let file := findFile example_world_no_cascade cascade_name in
  run_result example_world_no_cascade example_opts
  = Throw (runtime_error ("failed to load " +:+ file)) /\
  (forall i, task (run example_world_no_cascade example_opts) i
             = ([CascadeLoad file], Throw (runtime_error ("failed to load " +:+ file)))).
Proof.
  destruct (cascade_failure example_world_no_cascade example_opts eq_refl) as [H1 H2].
  split; [|by apply H2].
  apply H1. repeat split. discriminate.
Defined.

(** ** Values on the command line *)

Lemma string_app_nil_r (a : string) : a +:+ EmptyString = a.
Proof. induction a as [|c a IH]; [done|]. by rewrite string_app_cons, IH. Qed.

Lemma uint_value_of_uint_acc d : forall p,
  Z.pos (Pos.of_uint_acc d p) = uint_value (Z.pos p) d.
Proof.
  induction d as [|d IH|d IH|d IH|d IH|d IH|d IH|d IH|d IH|d IH|d IH];
    intros p; cbn [Pos.of_uint_acc uint_value]; [done|..];
    rewrite IH; f_equal; lia.
Qed.

Lemma uint_value_of_uint d : Z.of_N (Pos.of_uint d) = uint_value 0 d.
Proof.
  induction d as [|d IH|d IH|d IH|d IH|d IH|d IH|d IH|d IH|d IH|d IH];
    cbn [Pos.of_uint uint_value]; [done|exact IH|..];
    rewrite N2Z.inj_pos, uint_value_of_uint_acc; f_equal.
Qed.

Lemma uint_value_to_uint z :
  0 <= z -> uint_value 0 (N.to_uint (Z.to_N z)) = z.
Proof.
  intros Hz. rewrite <- uint_value_of_uint.
  change (Pos.of_uint ?d) with (N.of_uint d).
  rewrite DecimalN.Unsigned.of_to. lia.
Qed.

Lemma read_digits_no_digit acc s :
  no_digit_ahead s = true -> read_digits acc s = (acc, s).
Proof. destruct s as [|c s]; [done|]. simpl. by destruct (digit_of c). Qed.

Lemma read_digits_string_of_uint d : forall acc rest,
  no_digit_ahead rest = true ->
  read_digits acc (NilEmpty.string_of_uint d +:+ rest) = (uint_value acc d, rest).
Proof.
  induction d as [|d IH|d IH|d IH|d IH|d IH|d IH|d IH|d IH|d IH|d IH];
    intros acc rest Hrest; cbn [NilEmpty.string_of_uint uint_value];
    [by apply read_digits_no_digit|..];
    rewrite string_app_cons; apply (IH _ rest Hrest).
Qed.

Lemma string_of_nonneg_digits z :
  exists d, d <> Decimal.Nil /\ N.to_uint (Z.to_N z) = d /\
            string_of_nonneg z = NilEmpty.string_of_uint d.
Proof.
  unfold string_of_nonneg, NilZero.string_of_uint.
  exists (N.to_uint (Z.to_N z)). split; [|split; [done|]].
  - destruct (Z.to_N z); [done|]. apply DecimalPos.Unsigned.to_uint_nonnil.
  - destruct (N.to_uint (Z.to_N z)) eqn:E; try done.
    destruct (Z.to_N z); [done|]. by apply DecimalPos.Unsigned.to_uint_nonnil in E.
Qed.

Lemma read_int_digit_ahead s :
  digit_ahead s = true ->
  read_int s = (let '(v, rest) := read_digits 0 s in Some (v, rest)).
Proof.
  destruct s as [|c s]; [done|]. intros Hc. simpl in Hc.
  destruct (digit_of c) as [v|] eqn:Hd; [|done].
  assert (Hn : (48 <= nat_of_ascii c <= 57)%nat).
  { unfold digit_of in Hd.
    destruct (Nat.leb_spec 48 (nat_of_ascii c)), (Nat.leb_spec (nat_of_ascii c) 57);
      simpl in Hd; first [done | lia]. }
  unfold read_int. cbn [skip_space].
  assert (is_space c = false) as ->.
  { unfold is_space.
    destruct (Nat.eqb_spec (nat_of_ascii c) 32); [lia|].
    destruct (Nat.leb_spec 9 (nat_of_ascii c)), (Nat.leb_spec (nat_of_ascii c) 13);
      simpl; first [done | lia]. }
  destruct (Ascii.eqb_spec c "-") as [->|_];
    [change (nat_of_ascii "-") with 45%nat in Hn; lia|].
  destruct (Ascii.eqb_spec c "+") as [->|_];
    [change (nat_of_ascii "+") with 43%nat in Hn; lia|].
  by rewrite Hd.
Qed.

Lemma digit_ahead_string_of_uint d rest :
  d <> Decimal.Nil -> digit_ahead (NilEmpty.string_of_uint d +:+ rest) = true.
Proof. by destruct d. Qed.

Lemma read_int_digits d rest :
  d <> Decimal.Nil -> no_digit_ahead rest = true ->
  read_int (NilEmpty.string_of_uint d +:+ rest) = Some (uint_value 0 d, rest).
Proof.
  intros Hd Hrest.
  rewrite read_int_digit_ahead by (by apply digit_ahead_string_of_uint).
  by rewrite read_digits_string_of_uint.
Qed.

Lemma read_digits_string_of_nonneg z rest :
  0 <= z -> no_digit_ahead rest = true ->
  read_digits 0 (string_of_nonneg z +:+ rest) = (z, rest) /\
  digit_ahead (string_of_nonneg z +:+ rest) = true.
Proof.
  intros Hz Hrest. destruct (string_of_nonneg_digits z) as (d & Hd & Hto & ->).
  split; [|by apply digit_ahead_string_of_uint].
  rewrite read_digits_string_of_uint by done. by rewrite <- Hto, uint_value_to_uint.
Qed.

Lemma read_int_minus s :
  digit_ahead s = true ->
  read_int (String "-" s) = (let '(v, rest) := read_digits 0 s in Some (- v, rest)).
Proof.
  destruct s as [|c s]; [done|]. intros Hc. simpl in Hc.
  unfold read_int. cbn [skip_space].
  change (is_space "-") with false. cbv iota.
  change (Ascii.eqb "-" "-") with true. cbv iota beta.
  by destruct (digit_of c).
Qed.

Lemma read_int_string_of_int z rest :
  no_digit_ahead rest = true ->
  read_int (string_of_int z +:+ rest) = Some (z, rest).
Proof.
  intros Hrest. unfold string_of_int. destruct (Z.ltb_spec z 0).
  - destruct (read_digits_string_of_nonneg (- z) rest) as [Hr Hhead]; [lia|done|].
    change (("-" +:+ string_of_nonneg (- z)) +:+ rest)
      with (String "-" (string_of_nonneg (- z) +:+ rest)).
    rewrite read_int_minus, Hr by done. do 2 f_equal. lia.
  - destruct (read_digits_string_of_nonneg z rest) as [Hr Hhead]; [lia|done|].
    by rewrite read_int_digit_ahead, Hr.
Qed.

Lemma scanned_int_id z : is_int z -> scanned_int z = z.
Proof.
  intros H. unfold scanned_int.
  rewrite Z.min_r, Z.max_r by (unfold is_int, INT_MIN, INT_MAX in H; lia).
  by apply wrap32_id.
Qed.

(** X10. [--size], [--min-size] and [--max-size] values: a width and a
    height that fit an [int], written in decimal with an [x] between them,
    are read back as exactly that size. Negative numbers are read as well:
    the sign is not checked. *)
Theorem to_size_round_trip wd ht :
  is_int wd -> is_int ht ->
  to_size (string_of_int wd +:+ "x" +:+ string_of_int ht)
  = ([], Ok (cv.Size.mk wd ht)).
Proof.
  intros Hw Hh. unfold to_size.
  rewrite (read_int_string_of_int wd) by done.
  change ("x" +:+ string_of_int ht) with (String "x" (string_of_int ht)). cbv iota beta.
  simpl Ascii.eqb. cbv iota.
  rewrite <- (string_app_nil_r (string_of_int ht)) at 1.
  rewrite (read_int_string_of_int ht) by done.
  by rewrite !scanned_int_id.
Qed.

Lemma to_size_round_trip_witness :
  to_size (string_of_int 640 +:+ "x" +:+ string_of_int (-480))
  = ([], Ok (cv.Size.mk 640 (-480))).
Proof.
  apply to_size_round_trip; unfold is_int, INT_MIN, INT_MAX; lia.
Defined.

Lemma stoi_string_of_int n suffix :
  no_digit_ahead suffix = true ->
  stoi (string_of_int n +:+ suffix) =
  if (INT_MIN <=? n) && (n <=? INT_MAX) then ([], Ok n)
  else ([], Throw (out_of_range "stoi")).
Proof.
  intros Hs. unfold stoi. rewrite read_int_string_of_int by done.
  by destruct (_ && _).
Qed.

Lemma kind_of_KNeighbors arg :
  arg = "-n" \/ arg = "--min-neighbors" -> kind_of arg = KNeighbors.
Proof. by intros [-> | ->]. Qed.

(** X11. [-n] and [--min-neighbors]: a number that fits an [int], written
    in decimal and followed by anything that is not a digit, sets the
    threshold to exactly that number; a number that does not fit an [int] is
    refused with an [ArgParseError] that carries [std::out_of_range]. *)
Theorem min_neighbors_round_trip o arg n suffix rest :
  arg = "-n" \/ arg = "--min-neighbors" ->
  no_digit_ahead suffix = true ->
  (is_int n ->
   parse_loop o (arg :: (string_of_int n +:+ suffix) :: rest)
   = parse_loop (set_min_neighbors n o) rest) /\
  (~ is_int n ->
   parse_loop o (arg :: (string_of_int n +:+ suffix) :: rest)
   = ([], Throw (ArgParseError_nested
                   ("invalid value " +:+ (string_of_int n +:+ suffix) +:+ " for argument")
                   (out_of_range "stoi")))).
Proof.
  intros Harg Hs. rewrite parse_loop_cons, (kind_of_KNeighbors _ Harg).
  pose proof (stoi_string_of_int n suffix Hs) as Hstoi.
  split; intros Hn.
  - assert ((INT_MIN <=? n) && (n <=? INT_MAX) = true) as E.
    { unfold is_int in Hn. apply andb_true_intro. split; apply Z.leb_le; lia. }
    rewrite E in Hstoi. by rewrite (try_catch_stoi_Ok _ _ _ Hstoi), nil_Ok_bind.
  - assert ((INT_MIN <=? n) && (n <=? INT_MAX) = false) as E.
    { unfold is_int in Hn. apply andb_false_iff.
      destruct (Z.leb_spec INT_MIN n), (Z.leb_spec n INT_MAX); auto; lia. }
    rewrite E in Hstoi. by rewrite (try_catch_stoi_Throw _ _ _ Hstoi).
Qed.

Lemma min_neighbors_round_trip_witness :
  parse_loop Options_default ["-n"; string_of_int 7 +:+ " faces"; "a.jpg"]
  = parse_loop (set_min_neighbors 7 Options_default) ["a.jpg"].
Proof.
  apply (min_neighbors_round_trip Options_default "-n" 7 " faces" ["a.jpg"]).
  - by left.
  - reflexivity.
  - unfold is_int, INT_MIN, INT_MAX. lia.
Defined.

(** X12. The three size options go to three different fields: a size that
    reads (see X10) after [--size] becomes the output size, after
    [--min-size] the minimum face size, after [--max-size] the maximum face
    size, and nothing else changes. *)
Theorem size_options o wd ht rest :
  is_int wd -> is_int ht ->
  let text := string_of_int wd +:+ "x" +:+ string_of_int ht in
  parse_loop o ("--size" :: text :: rest)
  = parse_loop (set_output_size (cv.Size.mk wd ht) o) rest /\
  parse_loop o ("--min-size" :: text :: rest)
  = parse_loop (set_min_size (Some (cv.Size.mk wd ht)) o) rest /\
  parse_loop o ("--max-size" :: text :: rest)
  = parse_loop (set_max_size (Some (cv.Size.mk wd ht)) o) rest.
Proof.
  intros Hw Hh text. subst text.
  assert (to_size (string_of_int wd +:+ "x" +:+ string_of_int ht)
          = ([], Ok (cv.Size.mk wd ht))) as E.
  { unfold to_size.
    rewrite (read_int_string_of_int wd) by done.
    change ("x" +:+ string_of_int ht) with (String "x" (string_of_int ht)). cbv iota beta.
    simpl Ascii.eqb. cbv iota.
    rewrite <- (string_app_nil_r (string_of_int ht)) at 1.
    rewrite (read_int_string_of_int ht) by done.
    by rewrite !scanned_int_id. }
  repeat split; rewrite parse_loop_cons;
    change (kind_of "--size") with KSize;
    change (kind_of "--min-size") with KMinSize;
    change (kind_of "--max-size") with KMaxSize;
    cbv iota; by rewrite E, nil_Ok_bind.
Qed.

Lemma size_options_witness :
  let text := string_of_int 64 +:+ "x" +:+ string_of_int 48 in
  parse_loop Options_default ("--size" :: text :: [])
  = parse_loop (set_output_size (cv.Size.mk 64 48) Options_default) [] /\
  parse_loop Options_default ("--min-size" :: text :: [])
  = parse_loop (set_min_size (Some (cv.Size.mk 64 48)) Options_default) [] /\
  parse_loop Options_default ("--max-size" :: text :: [])
  = parse_loop (set_max_size (Some (cv.Size.mk 64 48)) Options_default) [].
Proof.
  apply (size_options Options_default 64 48 []); unfold is_int, INT_MIN, INT_MAX; lia.
Defined.

Lemma string_app_assoc (a b c : string) : (a +:+ b) +:+ c = a +:+ (b +:+ c).
Proof. induction a as [|x a IH]; [done|]. by rewrite !string_app_cons, IH. Qed.

Lemma skip_space_suffix s : exists pre, s = pre +:+ skip_space s.
Proof.
  induction s as [|c s [pre IH]]; [by exists EmptyString|]. simpl.
  destruct (is_space c); [|by exists EmptyString].
  exists (String c pre). by rewrite string_app_cons, <- IH.
Qed.

Lemma read_digits_suffix s : forall acc,
  exists pre, s = pre +:+ snd (read_digits acc s).
Proof.
  induction s as [|c s IH]; intros acc; [by exists EmptyString|]. simpl.
  destruct (digit_of c) as [d|]; [|by exists EmptyString].
  destruct (IH (10 * acc + d)) as [pre E].
  exists (String c pre). by rewrite string_app_cons, <- E.
Qed.

Lemma read_int_suffix s v rest :
  read_int s = Some (v, rest) -> exists pre, s = pre +:+ rest.
Proof.
  unfold read_int. destruct (skip_space_suffix s) as [pre0 E0].
  destruct (skip_space s) as [|c s1] eqn:Es; [done|].
  assert (Hgen : forall neg s2 pre,
            s = pre +:+ s2 ->
            match s2 with
            | String c0 _ =>
                match digit_of c0 with
                | Some _ => let '(v0, rest0) := read_digits 0 s2 in
                            Some (if neg : bool then - v0 else v0, rest0)
                | None => None
                end
            | EmptyString => None
            end = Some (v, rest) -> exists pre', s = pre' +:+ rest).
  { intros neg s2 pre Hs H. destruct s2 as [|c0 s2']; [done|].
    destruct (digit_of c0); [|done].
    destruct (read_digits_suffix (String c0 s2') 0) as [pre1 E1].
    destruct (read_digits 0 (String c0 s2')) as [v0 rest0]. simpl in E1.
    injection H as _ <-. exists (pre +:+ pre1). by rewrite string_app_assoc, <- E1. }
  destruct (Ascii.eqb c "-").
  { apply (Hgen true s1 (pre0 +:+ String c EmptyString)).
    by rewrite string_app_assoc. }
  destruct (Ascii.eqb c "+").
  { apply (Hgen false s1 (pre0 +:+ String c EmptyString)).
    by rewrite string_app_assoc. }
  by apply (Hgen false (String c s1) pre0).
Qed.

(** X13. [to_size] ends in one of two ways only: it returns a size, and
    then the text contains an [x]; or it throws the [std::runtime_error]
    whose message quotes the text. It prints nothing. *)
Theorem to_size_outcomes text :
  (exists sz pre post,
     to_size text = ([], Ok sz) /\ text = pre +:+ String "x" post) \/
  to_size text = ([], Throw (runtime_error ("failed to read cv::Size from " +:+ text))).
Proof.
  unfold to_size. destruct (read_int text) as [[wd [|c rest]]|] eqn:E; try by right.
  destruct (Ascii.eqb_spec c "x") as [->|_]; [|by right].
  destruct (read_int rest) as [[ht rest']|]; [|by right].
  left. apply read_int_suffix in E as [pre E]. by eexists _, pre, rest.
Qed.

(** ** What [parse_args] prints and returns *)

Lemma parse_loop_help_or_silent argv : forall o,
  parse_loop o argv = ([Print help_text []], Exit 0) \/
  (trace (parse_loop o argv) = [] /\ forall st, outcome (parse_loop o argv) <> Exit st).
Proof.
  induction argv as [|arg rest IH1 IH2] using argv_ind; intros o; [by right|].
  rewrite parse_loop_cons.
  destruct (kind_of arg); try (destruct rest as [|v rest']; [by right|]);
    try apply IH1; try (by eapply IH2); try (by right); try (by left).
  - destruct (stoi_cases v) as [[n E]|[e E]].
    + rewrite (try_catch_stoi_Ok _ _ _ E), nil_Ok_bind. by eapply IH2.
    + rewrite (try_catch_stoi_Throw _ _ _ E). by right.
  - destruct (to_size_cases v) as [[sz E]|E]; rewrite E; [|by right].
    rewrite nil_Ok_bind. by eapply IH2.
  - destruct (to_size_cases v) as [[sz E]|E]; rewrite E; [|by right].
    rewrite nil_Ok_bind. by eapply IH2.
  - destruct (to_size_cases v) as [[sz E]|E]; rewrite E; [|by right].
    rewrite nil_Ok_bind. by eapply IH2.
Qed.

Lemma parse_args_prints argv :
  parse_args argv = ([Print help_text []], Exit 0) \/
  (trace (parse_args argv) = [] /\ forall st, outcome (parse_args argv) <> Exit st).
Proof.
  unfold parse_args.
  destruct (parse_loop_help_or_silent argv Options_default) as [E|[Ht Hx]].
  - left. by rewrite E.
  - right. destruct (parse_loop Options_default argv) as [t [o|e|st]].
    + simpl in Ht. subst t. rewrite nil_Ok_bind.
      destruct (bool_decide _); [done|]. by destruct (string_empty _).
    + simpl in Ht. by subst t.
    + by destruct (Hx st).
Qed.

(** X14. [parse_args] prints nothing, with one exception: at [-h] or
    [--help] it prints the help text, once, and exits with status 0. It
    never exits in another way or with another status. *)
Theorem parse_args_silent argv :
  parse_args argv = ([Print help_text []], Exit 0) \/
  (trace (parse_args argv) = [] /\ forall st, outcome (parse_args argv) <> Exit st).
Proof. apply parse_args_prints. Qed.

Lemma kind_of_KHelp arg : arg = "-h" \/ arg = "--help" -> kind_of arg = KHelp.
Proof. by intros [-> | ->]. Qed.

(** X15. Help wins over everything that comes after it: when the arguments
    before [-h] or [--help] parse to the end, the help is printed and the
    process exits with status 0, whatever follows and even if no image or
    output directory was given. *)
Theorem help_stops_parsing pre arg rest o' :
  outcome (parse_loop Options_default pre) = Ok o' ->
  arg = "-h" \/ arg = "--help" ->
  parse_args (pre ++ arg :: rest) = ([Print help_text []], Exit 0).
Proof.
  intros Hpre Harg. unfold parse_args.
  by rewrite (parse_loop_app _ _ _ _ Hpre), parse_loop_cons, (kind_of_KHelp _ Harg).
Qed.

Lemma help_stops_parsing_witness :
  parse_args (["-v"] ++ "--help" :: ["--bogus"; "-o"])
  = ([Print help_text []], Exit 0).
Proof.
  apply (help_stops_parsing ["-v"] "--help" ["--bogus"; "-o"]
           (set_verbose true Options_default)).
  - reflexivity.
  - by right.
Defined.

Lemma parse_loop_images imgs : forall o,
  Forall (fun a => starts_with_dash a = false) imgs ->
  parse_loop o imgs
  = ([], Ok {| mode := mode o; images := images o ++ imgs;
               output_directory := output_directory o; output_size := output_size o;
               min_size := min_size o; max_size := max_size o;
               verbose := verbose o; min_neighbors := min_neighbors o |}).
Proof.
  induction imgs as [|a imgs IH]; intros o Hall.
  - rewrite app_nil_r. by destruct o.
  - apply Forall_cons in Hall as [Ha Hall].
    rewrite parse_loop_cons. unfold kind_of. rewrite Ha.
    rewrite IH by done. simpl. by rewrite <- app_assoc.
Qed.

(** X16. The usage line works as printed: image paths that do not start
    with a dash, at least one, followed by [-o] and a non-empty directory,
    give the default options with exactly these images, in this order, and
    this output directory. *)
Theorem parse_args_usage imgs dir :
  Forall (fun a => starts_with_dash a = false) imgs ->
  imgs <> [] -> dir <> EmptyString ->
  parse_args (imgs ++ ["-o"; dir])
  = ([], Ok {| mode := DLIB; images := imgs; output_directory := dir;
               output_size := cv.Size.mk 512 512;
               min_size := Some (cv.Size.mk 512 512); max_size := None;
               verbose := false; min_neighbors := 3 |}).
Proof.
  intros Himgs Hne Hdir. unfold parse_args.
  pose proof (parse_loop_images imgs Options_default Himgs) as E.
  rewrite (parse_loop_app imgs Options_default _ ["-o"; dir] (f_equal snd E)).
  rewrite parse_loop_cons. change (kind_of "-o") with KOutput. cbv iota.
  cbn [parse_loop]. rewrite mret_bind. simpl.
  rewrite bool_decide_eq_false_2 by done.
  by destruct dir.
Qed.

Lemma parse_args_usage_witness :
  parse_args (["a.jpg"; "b.jpg"] ++ ["-o"; "out"])
  = ([], Ok {| mode := DLIB; images := ["a.jpg"; "b.jpg"]; output_directory := "out";
               output_size := cv.Size.mk 512 512;
               min_size := Some (cv.Size.mk 512 512); max_size := None;
               verbose := false; min_neighbors := 3 |}).
Proof.
  apply parse_args_usage.
  - by repeat constructor.
  - discriminate.
  - discriminate.
Defined.

(** X17. What [parse_args] returns can be run: there is at least one image
    and the output directory is not empty; the images are the arguments
    that are neither options nor option values, in command-line order, and
    the directory is the value of the last [-o] / [--option]. *)
Theorem parse_args_postcondition argv opts :
  outcome (parse_args argv) = Ok opts ->
  images opts <> [] /\ output_directory opts <> EmptyString /\
  images opts = image_paths (tokens argv) /\
  output_directory opts = output_directory_given (tokens argv).
Proof.
  intros H. pose proof (parse_args_Ok argv opts H) as (_ & Hstop & Hopts).
  assert (images opts = image_paths (tokens argv)) as Himg.
  { by rewrite Hopts, images_foldl. }
  assert (output_directory opts = output_directory_given (tokens argv)) as Hdir.
  { by rewrite Hopts, output_directory_foldl. }
  pose proof (parse_loop_spec argv Options_default) as Hspec.
  rewrite Hstop, <- Hopts in Hspec.
  unfold parse_args in H. rewrite Hspec, nil_Ok_bind in H.
  case_bool_decide as Hi; [done|].
  rewrite <- Himg, <- Hdir. split; [done|]. split; [|done].
  by destruct (output_directory opts).
Qed.

Lemma parse_args_postcondition_witness :
  images example_opts <> [] /\ output_directory example_opts <> EmptyString /\
  images example_opts = image_paths (tokens example_argv) /\
  output_directory example_opts = output_directory_given (tokens example_argv).
Proof. apply (parse_args_postcondition example_argv example_opts). reflexivity. Defined.

(** ** [main] *)

Lemma first_failure_no_exit rs :
  Forall (fun r => r = Ok tt \/ exists e, r = Throw e) rs ->
  first_failure rs = Ok tt \/ exists e, first_failure rs = Throw e.
Proof.
  induction 1 as [|r rs [-> | [e ->]] _ IH]; simpl; [by left|done|right; by eexists].
Qed.

Lemma run_result_cases w opts :
  run_result w opts = Ok tt \/ exists e, run_result w opts = Throw e.
Proof.
  unfold run_result.
  destruct (run_prologue_cases w opts) as [Hp|[Hp|[_ Hp]]]; rewrite Hp;
    [|right; by eexists..].
  apply first_failure_no_exit, Forall_fmap, Forall_forall.
  intros i _. simpl.
  destruct (task_outcome_cases w opts i) as [H|[[func H]|(_ & _ & H)]];
    rewrite H; [by left|right; by eexists..].
Qed.

Lemma parse_args_images argv opts :
  outcome (parse_args argv) = Ok opts -> images opts <> [].
Proof.
  unfold parse_args. rewrite result_bind_outcome.
  destruct (outcome (parse_loop Options_default argv)) as [o|e|st]; [|done..].
  case_bool_decide as Himg; [done|]. destruct (string_empty _); [done|].
  by intros [= <-].
Qed.

(** X18. Whenever the process ends, its exit status is 0: after a normal
    run, after the help, and also after an error. When [parse_args] throws,
    all that happens is one line [error: <what>] on [stderr]: [run] is not
    entered. When [parse_args] returns, the process ends when [run] has left,
    which it does in the one way [run_result] tells; an exception from [run]
    is reported in the same way, as the last thing that happens. With a
    hardware thread some schedule lets the process end; with none reported it
    never ends once [run] has created its semaphore. *)
Theorem main_exit_status w argv :
  (forall schedule log status,
     main w argv schedule = Some (log, status) -> status = 0) /\
  (forall err schedule, outcome (parse_args argv) = Throw err ->
     main w argv schedule
     = Some ([(MainThread, Act (PrintErr "error: {}\n" [FWhat err]))], 0)) /\
  (forall opts schedule log status,
     outcome (parse_args argv) = Ok opts ->
     main w argv schedule = Some (log, status) ->
     exists s, exec w schedule (init w opts) = Some s /\
               st_main s = Left (run_result w opts) /\
               log = match run_result w opts with
                     | Throw err =>
                         (MainThread, Act (PrintErr "error: {}\n" [FWhat err])) :: st_log s
                     | _ => st_log s
                     end) /\
  (forall opts, outcome (parse_args argv) = Ok opts ->
     (0 < hardware_concurrency w)%nat ->
     exists schedule log, main w argv schedule = Some (log, 0)) /\
  (forall opts schedule, outcome (parse_args argv) = Ok opts ->
     hardware_concurrency w = 0%nat -> outcome (run_prologue w opts) = Ok tt ->
     main w argv schedule = None).
Proof.
  assert (Hleft : forall opts schedule s r,
            exec w schedule (init w opts) = Some s -> st_main s = Left r ->
            r = run_result w opts).
  { intros opts schedule s r Hexec Hl.
    pose proof (main_result_exec w opts schedule (init w opts) s
                  (invariant_init w opts) (main_result_init w opts) Hexec) as H.
    unfold main_result_ok in H. by rewrite Hl in H. }
  unfold main. cbv zeta.
  destruct (parse_args_prints argv) as [E|[Ht Hx]].
  { rewrite E. repeat split; intros; simplify_eq/=; done. }
  destruct (parse_args argv) as [t [opts|e|st]] eqn:Hparse; simpl in Ht; subst t.
  2: { repeat split; intros; by simplify_eq/=. }
  2: { by destruct (Hx st). }
  cbn [log_main fmap list_fmap rev]. split; [|split; [|split; [|split]]].
  - intros schedule log status H.
    destruct (exec w schedule (init w opts)) as [s|] eqn:Hexec; [|done].
    destruct (st_main s) as [| | |r] eqn:Hm; try done.
    pose proof (Hleft _ _ _ _ Hexec Hm) as Hr.
    destruct r as [[]|e|st]; simplify_eq/=; try done.
    destruct (run_result_cases w opts) as [H|[e H]]; congruence.
  - intros; by simplify_eq/=.
  - intros opts' schedule log status [= <-] H.
    destruct (exec w schedule (init w opts)) as [s|] eqn:Hexec; [|done].
    destruct (st_main s) as [| | |r] eqn:Hm; try done.
    pose proof (Hleft _ _ _ _ Hexec Hm) as Hr. exists s. rewrite <- Hr.
    split; [done|]. split; [done|].
    destruct r as [[]|e|st]; simplify_eq/=; by rewrite ?app_nil_r.
  - intros opts' [= <-] Hhc.
    destruct (reachable_can_leave w opts (init w opts) Hhc (reachable_init w opts))
      as (s & r & [schedule Hexec] & Hm).
    pose proof (Hleft _ _ _ _ Hexec Hm) as Hr.
    exists schedule. rewrite Hexec, Hm.
    destruct r as [[]|e|st]; [by eexists..|].
    destruct (run_result_cases w opts) as [H|[e H]]; congruence.
  - intros opts' schedule [= <-] Hhc Hpro.
    destruct (exec w schedule (init w opts)) as [s|] eqn:Hexec; [|done].
    destruct (st_main s) as [| | |r] eqn:Hm; try done.
    exfalso. eapply (no_slot_no_end w opts s); eauto.
    + apply (parse_args_images argv). by rewrite Hparse.
    + by exists schedule.
Qed.

Lemma main_exit_status_witness :
  main example_world ["a.jpg"] example_full_schedule
  = Some ([(MainThread,
            Act (PrintErr "error: {}\n" [FWhat (ArgParseError "no output directory given")]))],
          0).
Proof.
  destruct (main_exit_status example_world ["a.jpg"]) as (_ & H & _).
  apply (H (ArgParseError "no output directory given")). reflexivity.
Defined.

(** [gesichtool a.jpg -o out] where the directory cannot be created, and
    [gesichtool missing.jpg -o out]: both end with an error line and
    status 0. *)
Example main_reports_errors :
  main example_world_no_directory ["a.jpg"; "-o"; "out"] []
  = Some ([(MainThread, Act (PrintErr "error: {}\n" [FWhat (filesystem_error "out")]));
           (MainThread, Leave (Throw (filesystem_error "out")));
           (MainThread, Act (CreateDirectory "out"))], 0) /\
  main example_world ["missing.jpg"; "-o"; "out"]
       [MainThread; MainThread; TaskThread 0; TaskThread 0; TaskThread 0; TaskThread 0;
        MainThread; MainThread]
  = Some ([(MainThread, Act (PrintErr "error: {}\n" [FWhat (cv_Exception "cvtColor")]));
           (MainThread, Leave (Throw (cv_Exception "cvtColor")));
           (MainThread, Got 0);
           (TaskThread 0, Release);
           (TaskThread 0, Act (Imread "missing.jpg"));
           (TaskThread 0, Act GetFrontalFaceDetector);
           (TaskThread 0, Acquire);
           (MainThread, Act (Print "waiting for results\n" []));
           (MainThread, Launch 0);
           (MainThread, Act (Print "running dlib face detection\n" []));
           (MainThread, Act (CreateDirectory "out"))], 0).
Proof. split; reflexivity. Qed.

(** ** The first, sequential program *)

(** The loop of [detectAndExtractFaces]: a file for each rectangle up to the
    first one that cannot be cropped or resized, where it throws. *)
Lemma sequential_extract_loop faces : forall k image dir,
  0 <= k -> k + Z.of_nat (length faces) <= INT_MAX ->
  trace (Sequential.extract_loop k image faces dir)
  = imap (fun j face => Imwrite (Sequential.face_filename dir (k + Z.of_nat j))
                                (cv.MatResize (cv.MatRoi image face) (cv.Size.mk 512 512)))
         (extracted image (cv.Size.mk 512 512) faces) /\
  (outcome (Sequential.extract_loop k image faces dir) = Ok tt <->
   extracted image (cv.Size.mk 512 512) faces = faces) /\
  (outcome (Sequential.extract_loop k image faces dir) = Ok tt \/
   exists func, outcome (Sequential.extract_loop k image faces dir)
                = Throw (cv_Exception func)).
Proof.
  induction faces as [|face faces IH]; intros k image dir Hk Hlen.
  { split; [done|]. split; [done|by left]. }
  cbn [Sequential.extract_loop length extracted] in *.
  rewrite <- bind_assoc, Mat_roi_resize.
  destruct (extractable image (cv.Size.mk 512 512) face).
  - rewrite pair_bind_Ok, emit_bind. cbn [trace outcome fst snd app].
    assert (int_add k 1 = k + 1) as ->.
    { apply wrap32_id. unfold is_int, INT_MIN, INT_MAX in *. lia. }
    destruct (IH (k + 1) image dir) as (Ht & Ho & Hc); [lia..|].
    split; [|split; [|done]].
    + rewrite Ht. cbn [imap]. rewrite Z.add_0_r. f_equal.
      apply imap_ext. intros j x _. unfold compose. do 2 f_equal. lia.
    + rewrite Ho. split; [by intros ->|by intros [= ->]].
  - split; [done|]. split; [done|]. right. by eexists.
Qed.

(** [detectAndExtractFaces], by what the world answers. *)
Lemma sequential_detect w image dir :
  let faces := detectMultiScale w image 3 (cv.Size.mk 256 256) (cv.Size.mk 0 0) in
  let file := findFile w cascade_name in
  Sequential.detectAndExtractFaces w image dir =
  if findFile_fails w cascade_name then
    ([FindFile cascade_name], Throw (cv_Exception "findFile"))
  else if cascade_load w file then
    (FindFile cascade_name :: CascadeLoad file
     :: DetectMultiScale image 3 (cv.Size.mk 256 256) (cv.Size.mk 0 0)
     :: Print "Detected {}\n" [FSize (length faces)]
     :: trace (Sequential.extract_loop 0 image faces dir),
     outcome (Sequential.extract_loop 0 image faces dir))
  else
    ([FindFile cascade_name; CascadeLoad file;
      DetectMultiScale image 3 (cv.Size.mk 256 256) (cv.Size.mk 0 0)],
     Throw (cv_Exception "detectMultiScale")).
Proof.
  cbv zeta. unfold Sequential.detectAndExtractFaces, samples_findFile.
  rewrite bind_assoc, emit_bind.
  destruct (findFile_fails w cascade_name); [done|].
  rewrite mret_bind. cbv beta. rewrite !emit_bind.
  destruct (cascade_load w (findFile w cascade_name)); [|done].
  by rewrite mret_bind.
Qed.

Lemma imwrites_imap_Imwrite {A} (f : nat -> A -> string) (g : nat -> A -> cv.Mat) l :
  imwrites (imap (fun j x => Imwrite (f j x) (g j x)) l) = imap (fun j x => (f j x, g j x)) l.
Proof.
  revert f g. induction l as [|x l IH]; intros f g; [done|].
  cbn [imap]. rewrite imwrites_Imwrite. f_equal. apply (IH (f ∘ S) (g ∘ S)).
Qed.

Lemma extracted_length image sz faces :
  (length (extracted image sz faces) <= length faces)%nat.
Proof. apply prefix_length, extracted_prefix. Qed.

(** X19. In the first program the name of a thumbnail says which face of
    an image it is, not which image: the files written for an image are
    [face000.jpg], [face001.jpg], ... in the output directory, whatever the
    image: one for every detected face when the function returns, fewer when
    it ends by an exception. Two images with a face each are both written to
    [face000.jpg]. *)
Theorem sequential_names_collide w image dir :
  Z.of_nat (length (detectMultiScale w image 3 (cv.Size.mk 256 256) (cv.Size.mk 0 0)))
  <= INT_MAX ->
  exists n,
    (n <= length (detectMultiScale w image 3 (cv.Size.mk 256 256) (cv.Size.mk 0 0)))%nat /\
    fst <$> imwrites (trace (Sequential.detectAndExtractFaces w image dir))
    = (fun j => dir +:+ "/face" +:+ fmt_03d (Z.of_nat j) +:+ ".jpg") <$> seq 0 n /\
    (outcome (Sequential.detectAndExtractFaces w image dir) = Ok tt ->
     n = length (detectMultiScale w image 3 (cv.Size.mk 256 256) (cv.Size.mk 0 0))).
Proof.
  intros Hlen. rewrite sequential_detect. cbv zeta.
  destruct (findFile_fails w cascade_name).
  { exists 0%nat. split; [lia|]. by split. }
  destruct (cascade_load w (findFile w cascade_name)).
  2: { exists 0%nat. split; [lia|]. by split. }
  destruct (sequential_extract_loop
              (detectMultiScale w image 3 (cv.Size.mk 256 256) (cv.Size.mk 0 0))
              0 image dir) as (Ht & Ho & _); [lia..|].
  exists (length (extracted image (cv.Size.mk 512 512)
                    (detectMultiScale w image 3 (cv.Size.mk 256 256) (cv.Size.mk 0 0)))).
  split; [apply extracted_length|]. cbn [trace outcome fst snd]. split.
  - rewrite !imwrites_cons_other by done. rewrite Ht.
    rewrite (imwrites_imap_Imwrite
               (fun j _ => Sequential.face_filename dir (0 + Z.of_nat j))
               (fun _ face => cv.MatResize (cv.MatRoi image face) (cv.Size.mk 512 512))).
    generalize (extracted image (cv.Size.mk 512 512)
                  (detectMultiScale w image 3 (cv.Size.mk 256 256) (cv.Size.mk 0 0))).
    intros l. apply list_eq. intros i.
    rewrite !list_lookup_fmap, list_lookup_imap.
    destruct (l !! i) as [x|] eqn:Hi.
    + rewrite (lookup_seq_lt _ _ _ (lookup_lt_Some _ _ _ Hi)). done.
    + rewrite (lookup_seq_ge _ _ _ (proj1 (lookup_ge_None _ _) Hi)). done.
  - intros H. apply Ho in H. by rewrite H.
Qed.

Lemma sequential_names_collide_witness :
  exists n,
    (n <= 1)%nat /\
    fst <$> imwrites (trace (Sequential.detectAndExtractFaces example_world
                               (cv.MatFile "a.jpg" 100 100) "out"))
    = (fun j => "out" +:+ "/face" +:+ fmt_03d (Z.of_nat j) +:+ ".jpg") <$> seq 0 n /\
    (outcome (Sequential.detectAndExtractFaces example_world
                (cv.MatFile "a.jpg" 100 100) "out") = Ok tt -> n = 1%nat).
Proof.
  apply (sequential_names_collide example_world (cv.MatFile "a.jpg" 100 100) "out").
  unfold INT_MAX. simpl. lia.
Defined.

(** X20. Called with fewer than two arguments, the first program prints the
    usage line to [stderr] and returns 1; it creates no directory and reads
    no file. *)
Theorem sequential_usage w argv :
  (length argv < 3)%nat ->
  Sequential.main w argv
  = ([PrintErr (Sequential.usage (default EmptyString (argv !! 0%nat))) []], Ok 1).
Proof.
  intros Hlen. unfold Sequential.main. cbv zeta.
  destruct (Nat.ltb_spec (length argv) 3); [|lia]. by rewrite emit_bind.
Qed.

Lemma sequential_usage_witness :
  Sequential.main example_world ["gesichtool"; "a.jpg"]
  = ([PrintErr (Sequential.usage "gesichtool") []], Ok 1).
Proof. apply (sequential_usage example_world ["gesichtool"; "a.jpg"]). simpl. lia. Defined.

Lemma imreads_PrintErr f args t : imreads (PrintErr f args :: t) = imreads t.
Proof. done. Qed.

Lemma stderr_lines_PrintErr f args t :
  stderr_lines (PrintErr f args :: t) = f :: stderr_lines t.
Proof. done. Qed.

Lemma stderr_lines_Imread p t : stderr_lines (Imread p :: t) = stderr_lines t.
Proof. done. Qed.

Lemma sequential_extract_loop_quiet faces : forall k image dir,
  imreads (trace (Sequential.extract_loop k image faces dir)) = [] /\
  stderr_lines (trace (Sequential.extract_loop k image faces dir)) = [] /\
  (outcome (Sequential.extract_loop k image faces dir) = Ok tt \/
   exists e, outcome (Sequential.extract_loop k image faces dir) = Throw e).
Proof.
  induction faces as [|face faces IH]; intros k image dir; [by repeat split; left|].
  cbn [Sequential.extract_loop].
  rewrite <- bind_assoc, Mat_roi_resize.
  destruct (extractable image (cv.Size.mk 512 512) face).
  - rewrite pair_bind_Ok, emit_bind. cbn [trace outcome fst snd app].
    destruct (IH (int_add k 1) image dir) as (Hr & He & Ho). done.
  - repeat split. right. by eexists.
Qed.

Lemma sequential_detect_quiet w image dir :
  imreads (trace (Sequential.detectAndExtractFaces w image dir)) = [] /\
  stderr_lines (trace (Sequential.detectAndExtractFaces w image dir)) = [] /\
  (outcome (Sequential.detectAndExtractFaces w image dir) = Ok tt \/
   exists e, outcome (Sequential.detectAndExtractFaces w image dir) = Throw e).
Proof.
  rewrite sequential_detect. cbv zeta.
  destruct (findFile_fails w cascade_name); [repeat split; right; by eexists|].
  destruct (cascade_load w (findFile w cascade_name));
    [|repeat split; right; by eexists].
  cbn [trace outcome fst snd]. apply sequential_extract_loop_quiet.
Qed.

(** The loop of [main] over the image arguments. *)
Lemma sequential_main_loop w argv dir imgs : forall i,
  (forall k p, imgs !! k = Some p -> argv !! (i + k)%nat = Some p) ->
  let m := Sequential.main_loop w argv dir i (length imgs) in
  imreads (trace m) `prefix_of` imgs /\
  (outcome m = Ok tt \/ exists e, outcome m = Throw e) /\
  ((forall p, p ∈ imgs -> cv.empty (imread w p) = false ->
      outcome (Sequential.detectAndExtractFaces w (imread w p) dir) = Ok tt) ->
   outcome m = Ok tt /\
   imreads (trace m) = imgs /\
   stderr_lines (trace m)
   = omap (fun p => if cv.empty (imread w p)
                    then Some ("Failed to read image: " +:+ p +:+ "\n") else None) imgs).
Proof.
  induction imgs as [|p imgs IH]; intros i Hargv.
  { cbv zeta. split; [done|]. split; [by left|done]. }
  cbv zeta. cbn [length Sequential.main_loop].
  pose proof (Hargv 0%nat p eq_refl) as Hp. rewrite Nat.add_0_r in Hp. rewrite Hp.
  change (default EmptyString (Some p)) with p.
  rewrite emit_bind. cbn [trace outcome fst snd].
  destruct (IH (S i)) as (Hpre & Hcases & Hall).
  { intros k q Hk. replace (S i + k)%nat with (i + S k)%nat by lia. by apply Hargv. }
  cbv zeta in Hpre, Hcases, Hall.
  rewrite imreads_Imread, stderr_lines_Imread.
  change (omap ?f (p :: imgs))
    with (match f p with Some y => y :: omap f imgs | None => omap f imgs end).
  cbv beta.
  destruct (cv.empty (imread w p)) eqn:Hempty; cbv iota.
  - rewrite emit_bind. cbn [trace outcome fst snd].
    rewrite imreads_PrintErr, stderr_lines_PrintErr.
    split; [by apply prefix_cons|]. split; [done|].
    intros Hok. destruct Hall as (Ho & Hr & He).
    { intros q Hq. apply Hok. by right. }
    by rewrite Ho, Hr, He.
  - destruct (sequential_detect_quiet w (imread w p) dir) as (Hr' & He' & Ho').
    destruct (Sequential.detectAndExtractFaces w (imread w p) dir) as [t r] eqn:Ed.
    cbn [trace outcome fst snd] in Hr', He', Ho'.
    destruct Ho' as [->|[e ->]].
    + rewrite pair_bind_Ok. cbn [trace outcome fst snd].
      rewrite imreads_app, stderr_lines_app, Hr', He'. cbn [app].
      split; [by apply prefix_cons|]. split; [done|].
      intros Hok. destruct Hall as (Ho & Hr & He).
      { intros q Hq. apply Hok. by right. }
      by rewrite Ho, Hr, He.
    + cbn [mbind M_bind bind trace outcome fst snd]. rewrite Hr'.
      split; [apply prefix_cons, prefix_nil|]. split; [right; by eexists|].
      intros Hok. assert (p ∈ p :: imgs) as Hin by (by left).
      specialize (Hok p Hin Hempty). rewrite Ed in Hok. done.
Qed.

(** X21. Called with a program name, images and a directory, the first
    program creates the directory first. If that fails, the exception ends
    the process before any image is read. Otherwise the image arguments are
    read in order; an image that does not load is reported on [stderr] and
    the program goes on with the next one; when no call of
    [detectAndExtractFaces] throws, every image argument is read once and the
    program returns 0. In every case the images read are an initial part of
    the image arguments, and the program returns 0 or ends by an exception. *)
Theorem sequential_batch w prog imgs dir :
  imgs <> [] ->
  let m := Sequential.main w (prog :: imgs ++ [dir]) in
  head (trace m) = Some (CreateDirectory dir) /\
  imreads (trace m) `prefix_of` imgs /\
  (outcome m = Ok 0 \/ exists e, outcome m = Throw e) /\
  (create_directory_fails w dir = true ->
   m = ([CreateDirectory dir], Throw (filesystem_error dir))) /\
  (create_directory_fails w dir = false ->
   (forall p, p ∈ imgs -> cv.empty (imread w p) = false ->
      outcome (Sequential.detectAndExtractFaces w (imread w p) dir) = Ok tt) ->
   outcome m = Ok 0 /\
   imreads (trace m) = imgs /\
   stderr_lines (trace m)
   = omap (fun p => if cv.empty (imread w p)
                    then Some ("Failed to read image: " +:+ p +:+ "\n") else None) imgs).
Proof.
  intros Hne m. subst m. unfold Sequential.main. cbv zeta.
  assert (length (prog :: imgs ++ [dir]) = S (S (length imgs))) as Hlen.
  { simpl. rewrite length_app. simpl. lia. }
  rewrite Hlen.
  destruct (Nat.ltb_spec (S (S (length imgs))) 3) as [Hlt|_].
  { destruct imgs; [done|]. simpl in Hlt. lia. }
  assert ((prog :: imgs ++ [dir]) !! (S (S (length imgs)) - 1)%nat = Some dir) as ->.
  { replace (S (S (length imgs)) - 1)%nat with (S (length imgs)) by lia.
    change ((prog :: imgs ++ [dir]) !! S (length imgs))
      with ((imgs ++ [dir]) !! length imgs).
    rewrite lookup_app_r by lia. by rewrite Nat.sub_diag. }
  cbn [default from_option]. unfold id, create_directory.
  rewrite !bind_assoc, emit_bind.
  replace (S (S (length imgs)) - 2)%nat with (length imgs) by lia.
  destruct (sequential_main_loop w (prog :: imgs ++ [dir]) dir imgs 1)
    as (Hpre & Hcases & Hall).
  { intros k p Hk.
    change ((prog :: imgs ++ [dir]) !! (1 + k)%nat) with ((imgs ++ [dir]) !! k).
    by apply lookup_app_l_Some. }
  cbv zeta in Hpre, Hcases, Hall.
  destruct (create_directory_fails w dir).
  { cbn [mbind M_bind bind trace outcome fst snd].
    repeat split; [apply prefix_nil|right; by eexists|done..]. }
  rewrite mret_bind.
  destruct (Sequential.main_loop w (prog :: imgs ++ [dir]) dir 1 (length imgs))
    as [t r] eqn:El.
  cbn [trace outcome fst snd] in Hpre, Hcases, Hall.
  split; [done|].
  destruct Hcases as [->|[e ->]].
  - rewrite pair_bind_Ok. cbn [trace outcome fst snd]. rewrite app_nil_r.
    rewrite imreads_cons_other by done. split; [done|]. split; [by left|].
    split; [done|]. intros _ Hok. destruct (Hall Hok) as (_ & Hr & He).
    rewrite stderr_lines_cons_other by done. done.
  - cbn [mbind M_bind bind trace outcome fst snd].
    rewrite imreads_cons_other by done. split; [done|]. split; [right; by eexists|].
    split; [done|]. intros _ Hok. by destruct (Hall Hok) as (? & _).
Qed.

(** Where the directory cannot be created the program ends at once. *)
Example sequential_no_directory :
  Sequential.main example_world_no_directory ["gesichtool"; "a.jpg"; "out"]
  = ([CreateDirectory "out"], Throw (filesystem_error "out")).
Proof. reflexivity. Qed.

Lemma sequential_batch_witness :
  let m := Sequential.main example_world ("gesichtool" :: ["a.jpg"; "missing.jpg"] ++ ["out"]) in
  outcome m = Ok 0 /\
  imreads (trace m) = ["a.jpg"; "missing.jpg"] /\
  stderr_lines (trace m)
  = omap (fun p => if cv.empty (imread example_world p)
                   then Some ("Failed to read image: " +:+ p +:+ "\n") else None)
         ["a.jpg"; "missing.jpg"].
Proof.
  destruct (sequential_batch example_world "gesichtool" ["a.jpg"; "missing.jpg"] "out")
    as (_ & _ & _ & _ & H); [discriminate|].
  apply H; [reflexivity|].
  intros p Hp Hne.
  apply elem_of_cons in Hp as [->|Hp]; [reflexivity|].
  apply list_elem_of_singleton in Hp as ->. discriminate.
Defined.

(** ** The revision before the dlib detector, compared *)

Lemma later_option_false arg :
  later_option arg = false ->
  String.eqb arg "--size" = false /\ String.eqb arg "--opencv" = false /\
  String.eqb arg "--dlib" = false.
Proof.
  unfold later_option. intros H.
  apply orb_false_iff in H as [H ?]. apply orb_false_iff in H as [? ?]. done.
Qed.

Lemma cascade_only_parse_loop argv :
  Forall (fun a => later_option a = false) argv ->
  forall o,
    outcome (CascadeOnlyRun.parse_loop (earlier_fields o) argv)
    = result_map earlier_fields (outcome (parse_loop o argv)).
Proof.
  induction argv as [|arg rest IH1 IH2] using argv_ind; intros Hall o; [done|].
  apply Forall_cons in Hall as [Harg Hrest].
  destruct (later_option_false _ Harg) as (Hs & Ho & Hd).
  assert (forall v rest', rest = v :: rest' ->
            forall o, outcome (CascadeOnlyRun.parse_loop (earlier_fields o) rest')
                      = result_map earlier_fields (outcome (parse_loop o rest'))) as IH2'.
  { intros v rest' -> o'. apply (IH2 v rest' eq_refl).
    by apply Forall_cons in Hrest as [_ ?]. }
  cbn [parse_loop CascadeOnlyRun.parse_loop]. rewrite Hs, Ho, Hd.
  destruct (starts_with_dash arg); [|apply (IH1 Hrest (push_image arg o))].
  destruct (String.eqb arg "-o" || String.eqb arg "--option").
  { destruct rest as [|v rest']; [done|].
    apply (IH2' v rest' eq_refl (set_output_directory v o)). }
  destruct (String.eqb arg "-v" || String.eqb arg "--verbose").
  { apply (IH1 Hrest (set_verbose true o)). }
  destruct (String.eqb arg "-h" || String.eqb arg "--help"); [done|].
  destruct (String.eqb arg "-n" || String.eqb arg "--min-neighbors").
  { destruct rest as [|v rest']; [done|].
    rewrite !result_bind_outcome.
    destruct (outcome (try_catch (stoi v) _)) as [n|e|st]; [|done..].
    apply (IH2' v rest' eq_refl (set_min_neighbors n o)). }
  destruct (String.eqb arg "--min-size").
  { destruct rest as [|v rest']; [done|].
    rewrite !result_bind_outcome.
    destruct (outcome (to_size v)) as [sz|e|st]; [|done..].
    apply (IH2' v rest' eq_refl (set_min_size (Some sz) o)). }
  destruct (String.eqb arg "--max-size"); [|done].
  destruct rest as [|v rest']; [done|].
  rewrite !result_bind_outcome.
  destruct (outcome (to_size v)) as [sz|e|st]; [|done..].
  apply (IH2' v rest' eq_refl (set_max_size (Some sz) o)).
Qed.

(** X22. On a command line without [--size], [--opencv] and [--dlib], the
    earlier [parse_args] ends as the later one does: with the same
    exception, the same exit, or with options that are the later ones
    without the two added fields. *)
Theorem earlier_parse_args_agrees argv :
  Forall (fun a => later_option a = false) argv ->
  outcome (CascadeOnlyRun.parse_args argv)
  = result_map earlier_fields (outcome (parse_args argv)).
Proof.
  intros Hall. unfold CascadeOnlyRun.parse_args, parse_args.
  rewrite !result_bind_outcome.
  change CascadeOnlyRun.Options_default with (earlier_fields Options_default).
  rewrite (cascade_only_parse_loop argv Hall Options_default).
  destruct (outcome (parse_loop Options_default argv)) as [o|e|st]; [|done..].
  cbn [result_map].
  change (CascadeOnlyRun.images (earlier_fields o)) with (images o).
  change (CascadeOnlyRun.output_directory (earlier_fields o)) with (output_directory o).
  destruct (bool_decide (images o = [])); [done|].
  by destruct (string_empty (output_directory o)).
Qed.

Lemma earlier_parse_args_agrees_witness :
  let argv := ["a.jpg"; "-n"; "5"; "--min-size"; "20x20"; "-v"; "-o"; "out"] in
  outcome (CascadeOnlyRun.parse_args argv)
  = result_map earlier_fields (outcome (parse_args argv)).
Proof.
  apply (earlier_parse_args_agrees
           ["a.jpg"; "-n"; "5"; "--min-size"; "20x20"; "-v"; "-o"; "out"]).
  repeat constructor.
Defined.

Lemma earlier_parse_loop_images imgs : forall o rest,
  Forall (fun a => starts_with_dash a = false) imgs ->
  CascadeOnlyRun.parse_loop o (imgs ++ rest)
  = CascadeOnlyRun.parse_loop
      (foldl (fun o a => CascadeOnlyRun.push_image a o) o imgs) rest.
Proof.
  induction imgs as [|a imgs IH]; intros o rest Hall; [done|].
  apply Forall_cons in Hall as [Ha Hall].
  cbn [app CascadeOnlyRun.parse_loop foldl]. rewrite Ha. by apply IH.
Qed.

(** X23. The earlier [parse_args] refuses each of the options that came
    with the dlib detector as an unknown argument, when it comes to it
    after image arguments. *)
Theorem earlier_refuses_later_options imgs arg rest :
  Forall (fun a => starts_with_dash a = false) imgs ->
  later_option arg = true ->
  CascadeOnlyRun.parse_args (imgs ++ arg :: rest)
  = throw (ArgParseError ("unknown argument " +:+ arg +:+ " given")).
Proof.
  intros Himgs Harg. unfold CascadeOnlyRun.parse_args.
  rewrite earlier_parse_loop_images by done.
  cbn [CascadeOnlyRun.parse_loop].
  assert (arg = "--size" \/ arg = "--opencv" \/ arg = "--dlib") as Hcases.
  { unfold later_option in Harg.
    apply orb_true_iff in Harg as [Harg|Harg].
    - apply orb_true_iff in Harg as [Harg|Harg]; apply String.eqb_eq in Harg; auto.
    - apply String.eqb_eq in Harg; auto. }
  by destruct Hcases as [->|[->| ->]].
Qed.

Lemma earlier_refuses_later_options_witness :
  CascadeOnlyRun.parse_args (["a.jpg"; "b.jpg"] ++ "--dlib" :: ["-o"; "out"])
  = throw (ArgParseError ("unknown argument " +:+ "--dlib" +:+ " given")).
Proof.
  apply (earlier_refuses_later_options ["a.jpg"; "b.jpg"] "--dlib" ["-o"; "out"]).
  - repeat constructor.
  - reflexivity.
Defined.

(** What goes to [stdout] is no effect. *)
Lemma effects_Print f args t : effects (Print f args :: t) = effects t.
Proof. done. Qed.

Lemma effects_keep a t : is_stdout a = false -> effects (a :: t) = a :: effects t.
Proof. intros H. unfold effects. by rewrite filter_cons_True. Qed.

Lemma effects_app t1 t2 : effects (t1 ++ t2) = effects t1 ++ effects t2.
Proof. apply filter_app. Qed.

Lemma effects_enlarged_face image face :
  exists t r, enlarged_face image face = (t, Ok r) /\ effects t = [].
Proof.
  destruct (enlarged_face_total image face) as (t & r & -> & [->| ->]);
    by do 2 eexists.
Qed.

Lemma extract_loop_effects faces : forall k image i dir,
  effects (trace (CascadeOnly.extract_loop k image faces i dir)) =
  effects (trace (extract_faces_from k image faces i dir (cv.Size.mk 512 512))).
Proof.
  induction faces as [|face faces IH]; intros k image i dir; [done|].
  cbn [CascadeOnly.extract_loop extract_faces_from].
  destruct (effects_enlarged_face image face) as (t & r & -> & Ht).
  rewrite !pair_bind_Ok, !emit_bind. cbn [trace outcome fst snd].
  rewrite <- !(bind_assoc (Mat_roi image r) (fun m => resize m _)), !Mat_roi_resize.
  rewrite !effects_app, !effects_Print, Ht. cbn [app].
  destruct (extractable image (cv.Size.mk 512 512) r); [|done].
  rewrite !pair_bind_Ok, !emit_bind. cbn [trace outcome fst snd app].
  rewrite !effects_keep by done. f_equal. apply IH.
Qed.

(** X24. The earlier [run] and the later one in OpenCV mode with
    thumbnails of 512x512 differ only in what they print on [stdout]:
    before the launches, before each launch and in each task they do the
    same things other than that in the same order, and each of these parts
    ends the same way, normally or with the same exception. *)
Theorem earlier_run_agrees w o i :
  let opts := later_options o in
  effects (trace (prologue (CascadeOnlyRun.run w o)))
  = effects (trace (run_prologue w opts)) /\
  outcome (prologue (CascadeOnlyRun.run w o)) = outcome (run_prologue w opts) /\
  before_launch (CascadeOnlyRun.run w o) i = before_launch (run w opts) i /\
  outcome (task (CascadeOnlyRun.run w o) i) = outcome (task (run w opts) i) /\
  effects (trace (task (CascadeOnlyRun.run w o) i))
  = effects (trace (task (run w opts) i)).
Proof.
  intros opts. subst opts.
  assert (Hpro : effects (trace (prologue (CascadeOnlyRun.run w o)))
                 = effects (trace (run_prologue w (later_options o))) /\
                 outcome (prologue (CascadeOnlyRun.run w o))
                 = outcome (run_prologue w (later_options o))).
  { unfold run_prologue, run.
    cbn [mode later_options run_opencv CascadeOnlyRun.run prologue output_directory].
    unfold create_directory, samples_findFile.
    destruct (create_directory_fails w (CascadeOnlyRun.output_directory o)); [done|].
    by destruct (findFile_fails w cascade_name). }
  destruct Hpro as [Hpro1 Hpro2].
  split; [done|]. split; [done|]. split; [done|].
  unfold run. cbn [mode later_options run_opencv CascadeOnlyRun.run task].
  unfold CascadeOnlyRun.cascade_task, opencv_task. cbv zeta.
  change (images_at (later_options o) i) with (CascadeOnlyRun.images_at o i).
  destruct (cascade_load w (findFile w cascade_name)); [|done].
  cbn [negb].
  destruct (cv.empty (imread w (CascadeOnlyRun.images_at o i))); [done|].
  unfold CascadeOnly.detect_and_extract_faces, extract_faces.
  rewrite !emit_bind, !detect_faces_eq, !pair_bind_Ok, ?emit_bind.
  cbn [trace outcome fst snd later_options min_size max_size min_neighbors
       output_directory output_size].
  set (image := imread w (CascadeOnlyRun.images_at o i)).
  set (faces := detectMultiScale w image _ _ _).
  pose proof (extract_loop_imwrites faces 0 image (wrap32 (Z.of_nat i))
                (CascadeOnlyRun.output_directory o)) as [_ Ho].
  pose proof (extract_loop_effects faces 0 image (wrap32 (Z.of_nat i))
                (CascadeOnlyRun.output_directory o)) as He.
  destruct (extract_faces_from 0 image faces _ _ _) as [t r].
  cbn [trace outcome fst snd] in Ho, He.
  rewrite Ho. cbn [app].
  rewrite !(effects_keep (CascadeLoad _)), !(effects_keep (Imread _)),
    !(effects_keep (DetectMultiScale _ _ _ _)) by done.
  rewrite effects_Print, He.
  destruct r as [[]|e|st].
  - rewrite pair_bind_Ok. cbn [trace outcome fst snd emit].
    split; [done|]. do 3 f_equal. rewrite effects_app. cbn. by rewrite app_nil_r.
  - done.
  - done.
Qed.
